(** * Hedging dashboard: payoff model of the [HedgingStrategy] component

    A shallow embedding of the TypeScript sources of the dashboard:

    - [HedgingStrategy] (the component with [generatePayoffData],
      [getBreakeven], [maxLoss], [maxGain] and the three sliders);
    - [Portfolio.addHoldingByShares] and the quantity check of
      [StockSearch.confirmAddToPortfolio];
    - the risk metrics [beta] and [sharpe_ratio], which the front end only
      declares as nullable columns of [risk_metrics].

    Numbers.  A JavaScript number is modelled by [Num]: [NaN], the two
    infinities, or a finite value carried as an exact rational.  The model
    does not round to 53 bits, does not overflow and has one zero.  The
    source computes in binary64, so the statements about the values of
    payoffs, extrema and breakevens are made for inputs on which the
    doubles compute exactly: slider values in their ranges and premiums
    that parse to whole numbers of at most nine digits.  The module
    [Binary64] evaluates the same code with the IEEE-754 operations of the
    Standard Library, and the section [Doubles] proves that the two
    evaluations agree on these inputs; with a fraction in a premium they
    may differ by a hundredth.  Slider values are integers (step 1) and are
    kept as [Z] in the component state. *)

From Stdlib Require Import ZArith QArith Qround Qabs Qpower Lia Lqa.
From Stdlib Require Import Bool List String Ascii.
From Stdlib Require Import SpecFloat.
Import ListNotations.

Local Open Scope Z_scope.

(* ================================================================== *)
(** ** JavaScript numbers *)

Module JsNum.

Inductive Num : Type :=
| NaN
| NegInf
| Fin (q : Q)
| PosInf.

(** An integer seen as a number. *)
Definition Nz (z : Z) : Num := Fin (inject_Z z).

(** Same value (rationals compared by [Qeq]); [NaN] is the same value as
    [NaN] here, unlike the language's [===]. *)
Definition Neq (a b : Num) : Prop :=
  match a, b with
  | NaN, NaN => True
  | NegInf, NegInf => True
  | PosInf, PosInf => True
  | Fin x, Fin y => (x == y)%Q
  | _, _ => False
  end.

Definition isFinite (a : Num) : bool :=
  match a with Fin _ => true | _ => false end.

(** Unary minus. *)
Definition nneg (a : Num) : Num :=
  match a with
  | NaN => NaN
  | NegInf => PosInf
  | Fin x => Fin (- x)
  | PosInf => NegInf
  end.

(** [a + b]. *)
Definition nadd (a b : Num) : Num :=
  match a, b with
  | NaN, _ | _, NaN => NaN
  | Fin x, Fin y => Fin (x + y)
  | PosInf, NegInf | NegInf, PosInf => NaN
  | PosInf, _ | _, PosInf => PosInf
  | NegInf, _ | _, NegInf => NegInf
  end.

(** [a - b]. *)
Definition nsub (a b : Num) : Num := nadd a (nneg b).

(** Sign of a rational: [Lt], [Eq] or [Gt] against zero. *)
Definition qsign (x : Q) : comparison := (x ?= 0)%Q.

Definition inf_of_sign (c : comparison) : Num :=
  match c with Lt => NegInf | Eq => NaN | Gt => PosInf end.

Definition flip (c : comparison) : comparison := CompOpp c.

(** [a * b]. *)
Definition nmul (a b : Num) : Num :=
  match a, b with
  | NaN, _ | _, NaN => NaN
  | Fin x, Fin y => Fin (x * y)
  | PosInf, Fin y | Fin y, PosInf => inf_of_sign (qsign y)
  | NegInf, Fin y | Fin y, NegInf => inf_of_sign (flip (qsign y))
  | PosInf, PosInf | NegInf, NegInf => PosInf
  | PosInf, NegInf | NegInf, PosInf => NegInf
  end.

(** [a / b] (the single zero of the model counts as [+0]). *)
Definition ndiv (a b : Num) : Num :=
  match a, b with
  | NaN, _ | _, NaN => NaN
  | Fin x, Fin y =>
      if Qeq_bool y 0 then inf_of_sign (qsign x) else Fin (x / y)
  | Fin _, PosInf | Fin _, NegInf => Fin 0
  | PosInf, Fin y => if Qle_bool 0 y then PosInf else NegInf
  | NegInf, Fin y => if Qle_bool 0 y then NegInf else PosInf
  | _, _ => NaN
  end.

(** [a <= b] and [a < b]: false as soon as one side is [NaN]. *)
Definition nle (a b : Num) : bool :=
  match a, b with
  | NaN, _ | _, NaN => false
  | NegInf, _ => true
  | _, PosInf => true
  | Fin x, Fin y => Qle_bool x y
  | _, _ => false
  end.

Definition nlt (a b : Num) : bool :=
  match a, b with
  | NaN, _ | _, NaN => false
  | Fin x, Fin y => negb (Qle_bool y x)
  | NegInf, NegInf | PosInf, PosInf => false
  | NegInf, _ => true
  | _, PosInf => true
  | _, _ => false
  end.

(** [Math.max(a, b)] and [Math.min(a, b)]. *)
Definition nmax (a b : Num) : Num :=
  match a, b with
  | NaN, _ | _, NaN => NaN
  | PosInf, _ | _, PosInf => PosInf
  | NegInf, c | c, NegInf => c
  | Fin x, Fin y => Fin (if Qle_bool x y then y else x)
  end.

Definition nmin (a b : Num) : Num :=
  match a, b with
  | NaN, _ | _, NaN => NaN
  | NegInf, _ | _, NegInf => NegInf
  | PosInf, c | c, PosInf => c
  | Fin x, Fin y => Fin (if Qle_bool x y then x else y)
  end.

(** [Math.max(...l)] and [Math.min(...l)]; on no argument they are
    [-Infinity] and [Infinity]. *)
Definition mathMax (l : list Num) : Num := fold_right nmax NegInf l.
Definition mathMin (l : list Num) : Num := fold_right nmin PosInf l.

(** [Math.round(a)]: nearest integer, ties towards [+Infinity]. *)
Definition mathRound (a : Num) : Num :=
  match a with
  | Fin x => Nz (Qfloor (x + (1 # 2)))
  | other => other
  end.

End JsNum.
Export JsNum.

(* ================================================================== *)
(** ** [parseFloat]

    The built-in applied to the text of the two premium inputs: leading
    white space is skipped, then the longest prefix that is a signed
    decimal literal (digits, an optional fraction, an optional exponent,
    or [Infinity]) gives the value; with no such prefix the result is
    [NaN].  Strings are byte strings: only the ASCII white space characters
    are recognised. *)

Module Parse.

Local Open Scope char_scope.

Definition isWhite (c : ascii) : bool :=
  let n := nat_of_ascii c in
  ((9 <=? n) && (n <=? 13) || (n =? 32))%nat.

Definition isDigit (c : ascii) : bool :=
  let n := nat_of_ascii c in ((48 <=? n) && (n <=? 57))%nat.

Definition digitVal (c : ascii) : Z := Z.of_nat (nat_of_ascii c) - 48.

Fixpoint skipWhite (s : string) : string :=
  match s with
  | String c r => if isWhite c then skipWhite r else s
  | EmptyString => s
  end.

(** Reads a run of decimal digits: its value (continuing [acc]), how many
    digits were read (continuing [n]) and the rest of the text. *)
Fixpoint digits (s : string) (acc : Z) (n : nat) : Z * nat * string :=
  match s with
  | String c r =>
      if isDigit c then digits r (10 * acc + digitVal c) (S n) else (acc, n, s)
  | EmptyString => (acc, n, s)
  end.

(** The exponent part, [e] or [E], an optional sign and at least one digit;
    [0] when the text does not start with one. *)
Definition exponent (s : string) : Z :=
  match s with
  | String c r =>
      if (Ascii.eqb c "e" || Ascii.eqb c "E")%bool then
        let '(neg, r') :=
          match r with
          | String "+" t => (false, t)
          | String "-" t => (true, t)
          | _ => (false, r)
          end in
        let '(v, n, _) := digits r' 0 0%nat in
        if (n =? 0)%nat then 0 else if neg then - v else v
      else 0
  | EmptyString => 0
  end.

Definition parseFloat (s : string) : Num :=
  let s1 := skipWhite s in
  let '(neg, s2) :=
    match s1 with
    | String "+" r => (false, r)
    | String "-" r => (true, r)
    | _ => (false, s1)
    end in
  if String.prefix "Infinity" s2 then (if neg then NegInf else PosInf)
  else
    let '(ip, ni, s3) := digits s2 0 0%nat in
    let '(fp, nf, s4) :=
      match s3 with
      | String "." r => digits r 0 0%nat
      | _ => (0, 0%nat, s3)
      end in
    if (ni + nf =? 0)%nat then NaN
    else
      let mant := (inject_Z ip + inject_Z fp / inject_Z (10 ^ Z.of_nat nf))%Q in
      let v := (mant * Qpower (inject_Z 10) (exponent s4))%Q in
      Fin (if neg then (- v)%Q else v).

End Parse.
Export Parse.

(* ================================================================== *)
(** ** The [HedgingStrategy] component *)

Module HedgingStrategy.

Local Open Scope string_scope.

(** The six [useState] cells.  The sliders keep one-element arrays of
    integers; the two premium inputs keep the raw text. *)
Record State : Type := mkState {
  strategy : string;
  currentPrice : Z;
  putStrike : Z;
  callStrike : Z;
  putPremium : string;
  callPremium : string
}.

(** The initial values given to [useState]. *)
Definition initState : State :=
  mkState "collar" 100 95 110 "10" "10".

Record PayoffPoint : Type := mkPoint {
  price : Z;
  payoff : Num
}.

(** The prices visited by [for (let price = 85; price <= 120; price += 1)]. *)
Definition priceGrid : list Z := map Z.of_nat (seq 85 36).

(** The local [payoff] of the loop body, before it is rounded, as a
    function of the loop variable. *)
Definition netPayoff (st : State) (p : Num) : Num :=
  let stockGain := nsub p (Nz (currentPrice st)) in
  if strategy st =? "collar" then
    let putPayoff :=
      nsub (nmax (nsub (Nz (putStrike st)) p) (Nz 0))
           (parseFloat (putPremium st)) in
    let callPayoff :=
      nadd (nneg (nmax (nsub p (Nz (callStrike st))) (Nz 0)))
           (parseFloat (callPremium st)) in
    nadd (nadd stockGain putPayoff) callPayoff
  else if strategy st =? "protective_put" then
    let putPayoff :=
      nsub (nmax (nsub (Nz (putStrike st)) p) (Nz 0))
           (parseFloat (putPremium st)) in
    nadd stockGain putPayoff
  else if strategy st =? "bear_put_spread" then
    let longPutPayoff :=
      nsub (nmax (nsub (Nz (putStrike st)) p) (Nz 0))
           (parseFloat (putPremium st)) in
    let shortPutPayoff :=
      nadd (nneg (nmax (nsub (Nz (callStrike st)) p) (Nz 0)))
           (parseFloat (callPremium st)) in
    nadd longPutPayoff shortPutPayoff
  else Nz 0.

(** [Math.round(x * 100) / 100]. *)
Definition round2 (x : Num) : Num :=
  ndiv (mathRound (nmul x (Nz 100))) (Nz 100).

Definition generatePayoffData (st : State) : list PayoffPoint :=
  map (fun p => mkPoint p (round2 (netPayoff st (Nz p)))) priceGrid.

Definition getBreakeven (st : State) : Num :=
  if strategy st =? "collar" then
    nsub (nadd (Nz (currentPrice st)) (parseFloat (callPremium st)))
         (parseFloat (putPremium st))
  else if strategy st =? "protective_put" then
    nadd (Nz (currentPrice st)) (parseFloat (putPremium st))
  else if strategy st =? "bear_put_spread" then
    nadd (nsub (Nz (putStrike st)) (parseFloat (putPremium st)))
         (parseFloat (callPremium st))
  else Nz (currentPrice st).

Definition maxLoss (st : State) : Num :=
  mathMin (map payoff (generatePayoffData st)).

Definition maxGain (st : State) : Num :=
  mathMax (map payoff (generatePayoffData st)).

(** The payoff stored for one price of the grid. *)
Definition payoffAt (st : State) (p : Z) : Num :=
  round2 (netPayoff st (Nz p)).

(** *** The controls

    What the user can do to the state.  A slider only emits values between
    its [min] and [max] as they are at that render; nothing else changes
    the other cells.  The second strike slider and the second premium input
    are rendered for [collar] and [bear_put_spread] only; the select offers
    the three strategy names. *)
Inductive Event : Type :=
| SetStrategy (s : string)
| SetCurrentPrice (v : Z)
| SetPutStrike (v : Z)
| SetCallStrike (v : Z)
| SetPutPremium (s : string)
| SetCallPremium (s : string).

Definition offered (s : string) : bool :=
  (s =? "collar") || (s =? "protective_put") || (s =? "bear_put_spread").

Definition hasSecondLeg (st : State) : bool :=
  (strategy st =? "collar") || (strategy st =? "bear_put_spread").

Definition callStrikeMin (st : State) : Z :=
  if strategy st =? "bear_put_spread" then putStrike st + 5
  else currentPrice st + 5.

Definition handle (st : State) (ev : Event) : option State :=
  match ev with
  | SetStrategy s =>
      if offered s
      then Some (mkState s (currentPrice st) (putStrike st) (callStrike st)
                         (putPremium st) (callPremium st))
      else None
  | SetCurrentPrice v =>
      if (50 <=? v)%Z && (v <=? 150)%Z
      then Some (mkState (strategy st) v (putStrike st) (callStrike st)
                         (putPremium st) (callPremium st))
      else None
  | SetPutStrike v =>
      if (50 <=? v)%Z && (v <=? currentPrice st - 5)%Z
      then Some (mkState (strategy st) (currentPrice st) v (callStrike st)
                         (putPremium st) (callPremium st))
      else None
  | SetCallStrike v =>
      if hasSecondLeg st && (callStrikeMin st <=? v)%Z && (v <=? 150)%Z
      then Some (mkState (strategy st) (currentPrice st) (putStrike st) v
                         (putPremium st) (callPremium st))
      else None
  | SetPutPremium s =>
      Some (mkState (strategy st) (currentPrice st) (putStrike st)
                    (callStrike st) s (callPremium st))
  | SetCallPremium s =>
      if hasSecondLeg st
      then Some (mkState (strategy st) (currentPrice st) (putStrike st)
                         (callStrike st) (putPremium st) s)
      else None
  end.

(** Running a list of events from a state; [None] if one is not possible. *)
Fixpoint run (st : State) (evs : list Event) : option State :=
  match evs with
  | [] => Some st
  | ev :: rest =>
      match handle st ev with
      | Some st' => run st' rest
      | None => None
      end
  end.

(** The states the user can bring the component to. *)
Definition reachable (st : State) : Prop :=
  exists evs, run initState evs = Some st.

End HedgingStrategy.
Export HedgingStrategy.

(* ================================================================== *)
(** ** Adding a holding: [Portfolio] and [StockSearch] *)

Module Holdings.

Local Open Scope string_scope.

(** [s.trim()] and [s.toUpperCase()] on ASCII text. *)
Fixpoint trimEnd (s : string) : string :=
  match s with
  | EmptyString => EmptyString
  | String c r =>
      let r' := trimEnd r in
      if isWhite c && (r' =? "") then "" else String c r'
  end.

Definition trim (s : string) : string := trimEnd (skipWhite s).

Definition upper (c : ascii) : ascii :=
  let n := nat_of_ascii c in
  if ((97 <=? n) && (n <=? 122))%nat then ascii_of_nat (n - 32) else c.

Fixpoint toUpperCase (s : string) : string :=
  match s with
  | EmptyString => EmptyString
  | String c r => String (upper c) (toUpperCase r)
  end.

(** [AddHoldingRequest]: [type] is ['shares'] or ['dollars']; [quantity]
    and [amount] are optional. *)
Record AddHoldingRequest : Type := mkRequest {
  symbol : string;
  type : string;
  quantity : option Num;
  amount : option Num
}.

(** What [addHoldingByShares] does with its arguments: it returns early
    after logging, or hands a request to [PortfolioService.addHolding].
    The symbol is typed as a string, so of the first test only the empty
    and the blank symbol remain. *)
Inductive Outcome : Type :=
| InvalidSymbol
| InvalidQuantityPrice
| Requested (req : AddHoldingRequest).

Definition addHoldingByShares
    (sym name : string) (qty price : Num) : Outcome :=
  if (sym =? "") || (trim sym =? "") then InvalidSymbol
  else if nle qty (Nz 0) || nle price (Nz 0) then InvalidQuantityPrice
  else Requested (mkRequest (toUpperCase (trim sym)) "shares" (Some qty) None).

(** [confirmAddToPortfolio] up to the request it sends: the selected
    stock's symbol if any, the purchase type and the text of the two
    inputs. *)
Definition confirmAddToPortfolio
    (stockToAdd : option string) (purchaseType qty dollarAmount : string)
  : string + AddHoldingRequest :=
  match stockToAdd with
  | None => inl "No stock selected"
  | Some sym =>
      if purchaseType =? "shares" then
        if (qty =? "") || nle (parseFloat qty) (Nz 0)
        then inl "Please enter a valid number of shares"
        else inr (mkRequest (toUpperCase (trim sym)) purchaseType
                            (Some (parseFloat qty)) None)
      else
        if (dollarAmount =? "") || nle (parseFloat dollarAmount) (Nz 0)
        then inl "Please enter a valid dollar amount"
        else inr (mkRequest (toUpperCase (trim sym)) purchaseType
                            None (Some (parseFloat dollarAmount)))
  end.

End Holdings.
Export Holdings.

(* ================================================================== *)
(** ** Risk metrics: beta and Sharpe ratio (C8)

    The front end only declares [beta] and [sharpe_ratio] as nullable
    columns of [risk_metrics]; the engine that fills them is not part of
    the sources at hand. *)

Module RiskMetrics.

Local Open Scope Q_scope.

(** Modelled from the spec: the value of one metric of the bundle, which is
    either a number or the explicit null that stands for
    [UndefinedMetricError] (the front end's [number | null]). *)
Inductive Metric : Type :=
| Value (q : Q)
| Undefined.

(** Modelled from the spec: the sum of a sample, for the statistics of the
    risk metrics engine, which is missing from the sources. *)
Definition sum (l : list Q) : Q := fold_right Qplus 0 l.

(** Modelled from the spec: the sample mean used by the missing engine. *)
Definition mean (l : list Q) : Q :=
  sum l / inject_Z (Z.of_nat (List.length l)).

(** Modelled from the spec: sample covariance of the missing engine
    ([ddof = 1] when there is more than one sample, else 0). *)
Definition covariance (xs ys : list Q) : Q :=
  let mx := mean xs in
  let my := mean ys in
  let n := List.length xs in
  if (n <=? 1)%nat then 0
  else sum (map (fun xy => (fst xy - mx) * (snd xy - my)) (combine xs ys))
       / inject_Z (Z.of_nat (n - 1)).

(** Modelled from the spec: sample variance of the missing engine. *)
Definition variance (xs : list Q) : Q := covariance xs xs.

(** Modelled from the spec: beta of the missing risk metrics engine,
    [covariance(portfolioReturns, benchmarkReturns) /
    variance(benchmarkReturns)], undefined when the benchmark variance is 0
    or the benchmark series is absent. *)
Definition beta (portfolioReturns : list Q)
    (benchmarkReturns : option (list Q)) : Metric :=
  match benchmarkReturns with
  | None => Undefined
  | Some bench =>
      if Qeq_bool (variance bench) 0 then Undefined
      else Value (covariance portfolioReturns bench / variance bench)
  end.

(** Modelled from the spec: Sharpe ratio of the missing risk metrics
    engine, [(meanReturn - riskFreeRatePerPeriod) / volatilityPerPeriod],
    null when the volatility is 0. *)
Definition sharpeRatio
    (meanReturn riskFreeRatePerPeriod volatilityPerPeriod : Q) : Metric :=
  if Qeq_bool volatilityPerPeriod 0 then Undefined
  else Value ((meanReturn - riskFreeRatePerPeriod) / volatilityPerPeriod).

(** Modelled from the spec: the part of the metrics bundle that the missing
    [computeMetrics] fills with these two metrics; the bundle is produced
    whether or not one of them is undefined. *)
Record Bundle : Type := mkBundle {
  volatility : Q;
  bundleBeta : Metric;
  bundleSharpe : Metric
}.

(** Modelled from the spec: [computeMetrics] of the missing engine,
    restricted to these fields; the per-period volatility is taken as
    given. *)
Definition computeMetrics (portfolioReturns : list Q)
    (benchmarkReturns : option (list Q))
    (riskFreeRatePerPeriod volatilityPerPeriod : Q) : Bundle :=
  mkBundle volatilityPerPeriod
           (beta portfolioReturns benchmarkReturns)
           (sharpeRatio (mean portfolioReturns) riskFreeRatePerPeriod
                        volatilityPerPeriod).

End RiskMetrics.

(* ================================================================== *)
(** ** The specification's wording, for comparison

    Definitions of this module follow the specification's sentences, not
    the source; they are what the component is compared with. *)

Module Spec.

Local Open Scope string_scope.

Inductive StrategyType : Type :=
| ProtectivePut
| Collar
| BearPutSpread.

(** The tag carried by the component's [strategy] cell. *)
Definition strategyType (s : string) : option StrategyType :=
  if s =? "protective_put" then Some ProtectivePut
  else if s =? "collar" then Some Collar
  else if s =? "bear_put_spread" then Some BearPutSpread
  else None.

(** Stock leg: [price - underlyingPrice]. *)
Definition stockLeg (p underlyingPrice : Num) : Num := nsub p underlyingPrice.

(** Long put: [max(strike - price, 0) - premiumPaid]. *)
Definition longPut (strike p premiumPaid : Num) : Num :=
  nsub (nmax (nsub strike p) (Nz 0)) premiumPaid.

(** Short call: [- max(price - strike, 0) + premiumReceived]. *)
Definition shortCall (strike p premiumReceived : Num) : Num :=
  nadd (nneg (nmax (nsub p strike) (Nz 0))) premiumReceived.

(** Short put: [- max(strike - price, 0) + premiumReceived]. *)
Definition shortPut (strike p premiumReceived : Num) : Num :=
  nadd (nneg (nmax (nsub strike p) (Nz 0))) premiumReceived.

(** Strategy assembly.  [putStrike] and [putPremium] belong to the long
    put; the second strike and premium belong to the short call of a collar
    or to the short put of a bear put spread. *)
Definition legSum (ty : StrategyType) (st : State) (p : Num) : Num :=
  let S := Nz (currentPrice st) in
  let pp := parseFloat (putPremium st) in
  let cp := parseFloat (callPremium st) in
  match ty with
  | ProtectivePut =>
      nadd (stockLeg p S) (longPut (Nz (putStrike st)) p pp)
  | Collar =>
      nadd (nadd (stockLeg p S) (longPut (Nz (putStrike st)) p pp))
           (shortCall (Nz (callStrike st)) p cp)
  | BearPutSpread =>
      nadd (longPut (Nz (putStrike st)) p pp)
           (shortPut (Nz (callStrike st)) p cp)
  end.

(** [-(total premium paid) + (total premium received)]. *)
Definition costBasis (ty : StrategyType) (st : State) : Num :=
  let pp := parseFloat (putPremium st) in
  let cp := parseFloat (callPremium st) in
  match ty with
  | ProtectivePut => nneg pp
  | Collar | BearPutSpread => nadd (nneg pp) cp
  end.

(** The invariant of a strategy specification: the put is struck below
    spot for a protective put and a collar; the long put is struck above
    the short put for a bear put spread. *)
Definition valid (ty : StrategyType) (st : State) : Prop :=
  match ty with
  | ProtectivePut | Collar => (putStrike st < currentPrice st)%Z
  | BearPutSpread => (callStrike st < putStrike st)%Z
  end.

(** A percentage band around spot. *)
Definition band (spot : Z) (pct : Q) : Q * Q :=
  ((inject_Z spot * (1 - pct))%Q, (inject_Z spot * (1 + pct))%Q).

(** Breakeven from the payoff sequence: the first pair of neighbouring
    points whose payoffs bracket zero, interpolated linearly; none when
    no pair does. *)
Definition bracket (y1 y2 : Q) : bool :=
  (Qle_bool y1 0 && Qle_bool 0 y2 || Qle_bool y2 0 && Qle_bool 0 y1)
  && negb (Qeq_bool y1 y2).

Definition interpolate (p1 p2 : Z) (y1 y2 : Q) : Q :=
  (inject_Z p1 + (0 - y1) * (inject_Z p2 - inject_Z p1) / (y2 - y1))%Q.

Fixpoint breakeven (l : list PayoffPoint) : option Q :=
  match l with
  | pt1 :: rest =>
      match rest with
      | pt2 :: _ =>
          match payoff pt1, payoff pt2 with
          | Fin y1, Fin y2 =>
              if bracket y1 y2
              then Some (interpolate (price pt1) (price pt2) y1 y2)
              else breakeven rest
          | _, _ => breakeven rest
          end
      | [] => None
      end
  | [] => None
  end.

End Spec.


(* ================================================================== *)
(** ** Quantities used in the statements

    Not part of the sources: the finite-number readings of [Math.max(x, 0)]
    and of the rounding, the integer part of a payoff and the premiums'
    part, which the lemmas below relate to [netPayoff]. *)

Module Derived.

Local Open Scope Q_scope.
Local Open Scope string_scope.

(** [Math.max(u - v, 0)] on integers seen as numbers. *)
Definition qpos (x : Q) : Q := if Qle_bool x (inject_Z 0) then inject_Z 0 else x.

(** [Math.round(x * 100) / 100] on a finite number. *)
Definition qround2 (x : Q) : Q :=
  inject_Z (Qfloor (x * inject_Z 100 + (1 # 2))) / inject_Z 100.

(** Value of the legs at expiry, premiums apart, at an integer price. *)
Definition intrinsic (st : State) (p : Z) : Z :=
  if strategy st =? "collar" then
    (p - currentPrice st + Z.max (putStrike st - p) 0
       - Z.max (p - callStrike st) 0)%Z
  else if strategy st =? "protective_put" then
    (p - currentPrice st + Z.max (putStrike st - p) 0)%Z
  else if strategy st =? "bear_put_spread" then
    (Z.max (putStrike st - p) 0 - Z.max (callStrike st - p) 0)%Z
  else 0%Z.

(** What the premiums contribute when they parse to [a] and [b]. *)
Definition premiumPart (st : State) (a b : Q) : Q :=
  if strategy st =? "collar" then - a + b
  else if strategy st =? "protective_put" then - a
  else if strategy st =? "bear_put_spread" then - a + b
  else 0.

Definition qnet (st : State) (a b : Q) (p : Z) : Q :=
  inject_Z (intrinsic st p) + premiumPart st a b.

(** No option of the strategy is in the money at the spot price. *)
Definition flatAtSpot (ty : Spec.StrategyType) (st : State) : Prop :=
  match ty with
  | Spec.ProtectivePut => (putStrike st <= currentPrice st)%Z
  | Spec.Collar =>
      (putStrike st <= currentPrice st <= callStrike st)%Z
  | Spec.BearPutSpread =>
      (putStrike st <= currentPrice st)%Z /\ (callStrike st <= currentPrice st)%Z
  end.

(** The ranges of the three sliders. *)
Definition inRange (st : State) : Prop :=
  (50 <= currentPrice st <= 150)%Z
  /\ (50 <= putStrike st <= 145)%Z
  /\ (55 <= callStrike st <= 150)%Z.

End Derived.
Export Derived.

(* ================================================================== *)
(** ** More of [Portfolio] and [StockSearch] *)

Module PortfolioView.

Local Open Scope string_scope.

(** [addHoldingByDollars]: as [addHoldingByShares], with the dollar amount
    in place of the quantity. *)
Definition addHoldingByDollars
    (sym name : string) (dollarAmount price : Num) : Outcome :=
  if (sym =? "") || (trim sym =? "") then InvalidSymbol
  else if nle dollarAmount (Nz 0) || nle price (Nz 0) then InvalidQuantityPrice
  else Requested (mkRequest (toUpperCase (trim sym)) "dollars"
                            None (Some dollarAmount)).

(** The [disabled] attribute of the "Add to Portfolio" button of the
    dialog. *)
Definition addButtonDisabled
    (addingToPortfolio : bool) (purchaseType qty dollarAmount : string)
  : bool :=
  addingToPortfolio
  || ((purchaseType =? "shares")
      && ((qty =? "") || nle (parseFloat qty) (Nz 0)))
  || ((purchaseType =? "dollars")
      && ((dollarAmount =? "") || nle (parseFloat dollarAmount) (Nz 0))).

(** [Math.abs(a)]. *)
Definition mathAbs (a : Num) : Num :=
  match a with
  | NaN => NaN
  | Fin x => Fin (Qabs x)
  | NegInf | PosInf => PosInf
  end.

(** [a || 0] on a number: zero and [NaN] are falsy. *)
Definition orZero (a : Num) : Num :=
  match a with
  | NaN => Nz 0
  | Fin x => if Qeq_bool x 0 then Nz 0 else a
  | other => other
  end.

(** [a === 0]. *)
Definition isZero (a : Num) : bool :=
  match a with
  | Fin x => Qeq_bool x 0
  | _ => false
  end.

(** The gain or loss of a holding's row, as text and as colour class;
    [formatPrice] is the currency formatter of [StockService]. *)
Definition gainLossText (formatPrice : Num -> string) (gainLoss : Num)
  : string :=
  if isZero (orZero gainLoss) then "$0.00"
  else (if nle (Nz 0) (orZero gainLoss) then "+" else "")
       ++ formatPrice (mathAbs (orZero gainLoss)).

Definition gainLossClass (gainLoss : Num) : string :=
  if isZero (orZero gainLoss) then "text-muted-foreground"
  else if nlt (Nz 0) (orZero gainLoss) then "text-green-600"
  else "text-red-600".

End PortfolioView.
Export PortfolioView.

(* ================================================================== *)
(** ** What the [HedgingStrategy] card shows *)

Module Shown.

(** The three figures under the chart: [Math.round(breakeven)],
    [Math.round(maxLoss)] and [Math.round(maxGain)]. *)
Definition shownBreakeven (st : State) : Num := mathRound (getBreakeven st).
Definition shownMaxLoss (st : State) : Num := mathRound (maxLoss st).
Definition shownMaxGain (st : State) : Num := mathRound (maxGain st).

End Shown.
Export Shown.

(* ================================================================== *)
(** ** Inputs on which the doubles of the source compute exactly

    The source computes in binary64.  Sums, differences and comparisons of
    whole numbers below [2 ^ 53], their products by 100 and the exact
    quotients of those by 100 are computed without rounding, so that on
    such inputs the exact arithmetic of [Num] and the doubles give the same
    values, as the section [Doubles] proves.  The statements about the
    values of payoffs, extrema and breakevens are made for these inputs:
    slider cells in their ranges ([inRange]) and premium texts that parse
    to whole numbers of at most nine digits.  With a fraction in a premium
    the doubles round (0.015 is not a double) and the stored values may
    differ from the exact ones by a hundredth. *)

Module Whole.

Local Open Scope string_scope.

(** The text parses to the whole number [n], of at most nine digits. *)
Definition parsesToWhole (s : string) (n : Z) : Prop :=
  exists a, parseFloat s = Fin a
            /\ (a == inject_Z n)%Q
            /\ (Z.abs n <= 999999999)%Z.

(** What whole premiums [n] (put) and [m] (second leg) contribute. *)
Definition wholePart (st : State) (n m : Z) : Z :=
  if strategy st =? "collar" then (- n + m)%Z
  else if strategy st =? "protective_put" then (- n)%Z
  else if strategy st =? "bear_put_spread" then (- n + m)%Z
  else 0%Z.

(** The premiums read by a strategy parse to whole numbers. *)
Definition wholePremiums (ty : Spec.StrategyType) (st : State) (n m : Z)
  : Prop :=
  match ty with
  | Spec.ProtectivePut => parsesToWhole (putPremium st) n
  | Spec.Collar | Spec.BearPutSpread =>
      parsesToWhole (putPremium st) n /\ parsesToWhole (callPremium st) m
  end.

(** Every character of the text is an ASCII character. *)
Fixpoint isAscii (s : string) : bool :=
  match s with
  | EmptyString => true
  | String c r => (nat_of_ascii c <? 128)%nat && isAscii r
  end.

(** The stored payoff at every integer price is the whole number [g p]. *)
Definition wholeCurveOf (st : State) (g : Z -> Z) : Prop :=
  forall p : Z,
    exists y, payoffAt st p = Fin y /\ (y == inject_Z (g p))%Q.

End Whole.
Export Whole.

(* ================================================================== *)
(** ** The loop body in binary64

    The same loop body evaluated in the doubles of the source, with the
    operations of the IEEE-754 specification of the Standard Library at
    precision 53.  It is used to run the component on premiums with a
    fraction, where the doubles round and the exact arithmetic of [Num]
    does not, and to check the two against each other on whole numbers. *)

Module Binary64.

Definition prec : Z := 53.
Definition emax : Z := 1024.

Definition fadd : spec_float -> spec_float -> spec_float := SFadd prec emax.
Definition fsub : spec_float -> spec_float -> spec_float := SFsub prec emax.
Definition fmul : spec_float -> spec_float -> spec_float := SFmul prec emax.
Definition fdiv : spec_float -> spec_float -> spec_float := SFdiv prec emax.

(** An integer as a double (rounded to the nearest, ties to even). *)
Definition ofZ (z : Z) : spec_float := binary_normalize prec emax z 0 false.

(** The double nearest to [N * 10 ^ E], for a natural number [N]. *)
Definition ofDecimal (neg : bool) (N E : Z) : spec_float :=
  match N with
  | Z0 => S754_zero neg
  | Zpos n =>
      if (0 <=? E)%Z
      then binary_round prec emax neg (n * Z.to_pos (10 ^ E)) 0
      else
        let '(q, e, l) := SFdiv_core_binary prec emax N 0 (10 ^ (- E)) 0 in
        binary_round_aux prec emax neg q e l
  | Zneg _ => S754_nan
  end.

(** [parseFloat], reading the text as [Parse.parseFloat] does and rounding
    the decimal value to the nearest double. *)
Definition parseFloat64 (s : string) : spec_float :=
  let s1 := skipWhite s in
  let '(neg, s2) :=
    match s1 with
    | String "+"%char r => (false, r)
    | String "-"%char r => (true, r)
    | _ => (false, s1)
    end in
  if String.prefix "Infinity" s2 then S754_infinity neg
  else
    let '(ip, ni, s3) := digits s2 0 0%nat in
    let '(fp, nf, s4) :=
      match s3 with
      | String "."%char r => digits r 0 0%nat
      | _ => (0, 0%nat, s3)
      end in
    if (ni + nf =? 0)%nat then S754_nan
    else ofDecimal neg (ip * 10 ^ Z.of_nat nf + fp)
                   (exponent s4 - Z.of_nat nf).

(** [Math.max(a, b)] and [Math.min(a, b)]; [+0] counts as above [-0]. *)
Definition mathMax64 (a b : spec_float) : spec_float :=
  match SFcompare a b with
  | None => S754_nan
  | Some Lt => b
  | Some Gt => a
  | Some Eq => match a with S754_zero true => b | _ => a end
  end.

Definition mathMin64 (a b : spec_float) : spec_float :=
  match SFcompare a b with
  | None => S754_nan
  | Some Lt => a
  | Some Gt => b
  | Some Eq => match a with S754_zero false => b | _ => a end
  end.

(** [Math.round(a)]: the nearest integer, ties towards [+Infinity],
    computed exactly; a result of zero keeps the sign of [a]. *)
Definition mathRound64 (a : spec_float) : spec_float :=
  match a with
  | S754_finite s m e =>
      if (0 <=? e)%Z then a
      else
        let M := if s then Z.neg m else Z.pos m in
        let r := ((2 * M + 2 ^ (- e)) / 2 ^ (- e + 1))%Z in
        match r with
        | Z0 => S754_zero s
        | _ => binary_normalize prec emax r 0 false
        end
  | other => other
  end.

Definition netPayoff64 (st : State) (p : spec_float) : spec_float :=
  let stockGain := fsub p (ofZ (currentPrice st)) in
  if (strategy st =? "collar")%string then
    let putPayoff :=
      fsub (mathMax64 (fsub (ofZ (putStrike st)) p) (ofZ 0))
           (parseFloat64 (putPremium st)) in
    let callPayoff :=
      fadd (SFopp (mathMax64 (fsub p (ofZ (callStrike st))) (ofZ 0)))
           (parseFloat64 (callPremium st)) in
    fadd (fadd stockGain putPayoff) callPayoff
  else if (strategy st =? "protective_put")%string then
    let putPayoff :=
      fsub (mathMax64 (fsub (ofZ (putStrike st)) p) (ofZ 0))
           (parseFloat64 (putPremium st)) in
    fadd stockGain putPayoff
  else if (strategy st =? "bear_put_spread")%string then
    let longPutPayoff :=
      fsub (mathMax64 (fsub (ofZ (putStrike st)) p) (ofZ 0))
           (parseFloat64 (putPremium st)) in
    let shortPutPayoff :=
      fadd (SFopp (mathMax64 (fsub (ofZ (callStrike st)) p) (ofZ 0)))
           (parseFloat64 (callPremium st)) in
    fadd longPutPayoff shortPutPayoff
  else ofZ 0.

(** [Math.round(x * 100) / 100] and the payoff stored for a grid price. *)
Definition round2_64 (x : spec_float) : spec_float :=
  fdiv (mathRound64 (fmul x (ofZ 100))) (ofZ 100).

Definition payoffAt64 (st : State) (p : Z) : spec_float :=
  round2_64 (netPayoff64 st (ofZ p)).

Definition maxLoss64 (st : State) : spec_float :=
  fold_right mathMin64 (S754_infinity false) (map (payoffAt64 st) priceGrid).

Definition maxGain64 (st : State) : spec_float :=
  fold_right mathMax64 (S754_infinity true) (map (payoffAt64 st) priceGrid).

(** [getBreakeven] in doubles. *)
Definition getBreakeven64 (st : State) : spec_float :=
  if (strategy st =? "collar")%string then
    fsub (fadd (ofZ (currentPrice st)) (parseFloat64 (callPremium st)))
         (parseFloat64 (putPremium st))
  else if (strategy st =? "protective_put")%string then
    fadd (ofZ (currentPrice st)) (parseFloat64 (putPremium st))
  else if (strategy st =? "bear_put_spread")%string then
    fadd (fsub (ofZ (putStrike st)) (parseFloat64 (putPremium st)))
         (parseFloat64 (callPremium st))
  else ofZ (currentPrice st).

(** The exact value of a double, as a number of the exact model. *)
Definition toNum (a : spec_float) : Num :=
  match a with
  | S754_zero _ => Nz 0
  | S754_infinity s => if s then NegInf else PosInf
  | S754_nan => NaN
  | S754_finite s m e =>
      Fin ((if s then inject_Z (Z.neg m) else inject_Z (Z.pos m))
           * Qpower (inject_Z 2) e)%Q
  end.

(** Same value in the two evaluations, as a test. *)
Definition sameValue (a : spec_float) (b : Num) : bool :=
  match toNum a, b with
  | Fin x, Fin y => Qeq_bool x y
  | NaN, NaN | PosInf, PosInf | NegInf, NegInf => true
  | _, _ => false
  end.

(** The normal double of sign [s] whose absolute value is the whole
    number [z], for [z] below [2 ^ 53]: the mantissa is [z] shifted to 53
    bits. *)
Definition canon (s : bool) (z : positive) : spec_float :=
  S754_finite s (Z.to_pos (Z.pos z * 2 ^ (53 - Z.pos (digits2_pos z))))
              (Z.pos (digits2_pos z) - 53).

(** The double of a whole number below [2 ^ 53]. *)
Definition canonZ (z : Z) : spec_float :=
  match z with
  | Z0 => S754_zero false
  | Z.pos p => canon false p
  | Z.neg p => canon true p
  end.

(** A double that is the whole number [z]: its double, or the negative
    zero (which [parseFloat] gives for [-0]). *)
Definition wholeDouble (f : spec_float) (z : Z) : Prop :=
  f = canonZ z \/ (z = 0 /\ f = S754_zero true).

End Binary64.
Export Binary64.

(* ================================================================== *)
(** ** The model on the default inputs *)

Example parseFloat_10 : Neq (parseFloat "10") (Nz 10).
Proof. reflexivity. Qed.

Example parseFloat_cents : Neq (parseFloat " 12.50abc") (Fin (25 # 2)).
Proof. reflexivity. Qed.

Example parseFloat_exp : Neq (parseFloat "-1.5e2") (Nz (-150)).
Proof. reflexivity. Qed.

Example parseFloat_text : parseFloat "abc" = NaN.
Proof. reflexivity. Qed.

Example parseFloat_empty : parseFloat "" = NaN.
Proof. reflexivity. Qed.

Example parseFloat_dot : parseFloat "." = NaN.
Proof. reflexivity. Qed.

Example parseFloat_dollar : parseFloat "$10" = NaN.
Proof. reflexivity. Qed.

Example default_payoff_85 : Neq (payoffAt initState 85) (Nz (-5)).
Proof. reflexivity. Qed.

Example default_payoff_120 : Neq (payoffAt initState 120) (Nz 10).
Proof. reflexivity. Qed.

Example default_breakeven : Neq (getBreakeven initState) (Nz 100).
Proof. reflexivity. Qed.

Example default_maxLoss : Neq (maxLoss initState) (Nz (-5)).
Proof. vm_compute. reflexivity. Qed.

Example default_maxGain : Neq (maxGain initState) (Nz 10).
Proof. vm_compute. reflexivity. Qed.

Example spec_breakeven_default_collar :
  option_map Qred (Spec.breakeven (generatePayoffData initState)) = Some 100%Q.
Proof. vm_compute. reflexivity. Qed.

Example spec_breakeven_default_protective_put :
  option_map Qred
    (Spec.breakeven
       (generatePayoffData (mkState "protective_put" 100 95 110 "10" "10")))
  = Some 110%Q.
Proof. vm_compute. reflexivity. Qed.


Example addHoldingByShares_ok :
  addHoldingByShares " aapl " "Apple" (Nz 3) (Nz 190)
  = Requested (mkRequest "AAPL" "shares" (Some (Nz 3)) None).
Proof. reflexivity. Qed.

Example addHoldingByShares_blank :
  addHoldingByShares "  " "Apple" (Nz 3) (Nz 190) = InvalidSymbol.
Proof. reflexivity. Qed.

(** A quantity that is not a number is neither [<= 0] nor stopped. *)
Example addHoldingByShares_NaN :
  addHoldingByShares "AAPL" "Apple" NaN (Nz 190)
  = Requested (mkRequest "AAPL" "shares" (Some NaN) None).
Proof. reflexivity. Qed.


(* ================================================================== *)
(** ** Facts about the number model *)

Section NumFacts.

Local Open Scope Q_scope.

Lemma Neq_refl (a : Num) : Neq a a.
Proof. destruct a; simpl; auto with qarith. Qed.

Lemma Neq_sym (a b : Num) : Neq a b -> Neq b a.
Proof. destruct a, b; simpl; auto with qarith. Qed.

Lemma Neq_trans (a b c : Num) : Neq a b -> Neq b c -> Neq a c.
Proof.
  destruct a, b, c; simpl; try tauto.
  intros H1 H2. now rewrite H1.
Qed.


Lemma nmax_zero (x : Q) : nmax (Fin x) (Nz 0) = Fin (qpos x).
Proof. reflexivity. Qed.

Lemma qpos_inject (u v : Z) :
  qpos (inject_Z u + - inject_Z v) == inject_Z (Z.max (u - v) 0).
Proof.
  unfold qpos.
  assert (E : inject_Z u + - inject_Z v == inject_Z (u - v)).
  { unfold Z.sub. now rewrite inject_Z_plus, inject_Z_opp. }
  destruct (Qle_bool _ _) eqn:B.
  - apply Qle_bool_iff in B. rewrite E, <- Zle_Qle in B.
    now rewrite Z.max_r by lia.
  - assert (N : ~ inject_Z u + - inject_Z v <= inject_Z 0).
    { intro L. apply Qle_bool_iff in L. congruence. }
    rewrite E, <- Zle_Qle in N. rewrite E.
    now rewrite Z.max_l by lia.
Qed.


Lemma round2_fin (x : Q) : round2 (Fin x) = Fin (qround2 x).
Proof. reflexivity. Qed.

Lemma qround2_comp (x y : Q) : x == y -> qround2 x == qround2 y.
Proof. intros E. unfold qround2. now rewrite E. Qed.

Lemma qround2_mono (x y : Q) : x <= y -> qround2 x <= qround2 y.
Proof.
  intros L. unfold qround2.
  assert (F : (Qfloor (x * inject_Z 100 + (1 # 2))
               <= Qfloor (y * inject_Z 100 + (1 # 2)))%Z).
  { apply Qfloor_resp_le. change (inject_Z 100) with 100. lra. }
  rewrite Zle_Qle in F.
  change (inject_Z 100) with 100.
  apply Qmult_le_compat_r; [exact F | now compute].
Qed.

(** Rounding leaves a whole number of hundredths alone. *)
Lemma qround2_cents (x : Q) (n : Z) :
  x * inject_Z 100 == inject_Z n -> qround2 x == x.
Proof.
  intros E. unfold qround2.
  assert (F : Qfloor (x * inject_Z 100 + (1 # 2)) = n).
  { rewrite E.
    assert (L := Qfloor_le (inject_Z n + (1 # 2))).
    assert (U := Qlt_floor (inject_Z n + (1 # 2))).
    set (k := Qfloor (inject_Z n + (1 # 2))) in *.
    assert (L' : inject_Z k < inject_Z (n + 1)).
    { rewrite inject_Z_plus. change (inject_Z 1) with 1. lra. }
    assert (U' : inject_Z n < inject_Z (k + 1)) by lra.
    rewrite <- Zlt_Qlt in L', U'. lia. }
  rewrite F, <- E. change (inject_Z 100) with 100. field.
Qed.

Lemma qround2_Z (z : Z) : qround2 (inject_Z z) == inject_Z z.
Proof.
  apply (qround2_cents _ (z * 100)). now rewrite inject_Z_mult.
Qed.

End NumFacts.

(* ================================================================== *)
(** ** The payoff with numeric premiums *)

Section FinitePremiums.

Local Open Scope Q_scope.
Local Open Scope string_scope.


Lemma nsub_fin (x y : Q) : nsub (Fin x) (Fin y) = Fin (x + - y).
Proof. reflexivity. Qed.

Lemma nadd_fin (x y : Q) : nadd (Fin x) (Fin y) = Fin (x + y).
Proof. reflexivity. Qed.

Lemma nneg_fin (x : Q) : nneg (Fin x) = Fin (- x).
Proof. reflexivity. Qed.

Ltac fin_steps :=
  unfold Nz;
  repeat (rewrite nsub_fin || rewrite nadd_fin || rewrite nneg_fin
          || rewrite (nmax_zero _)).

Ltac push_inject :=
  rewrite ?qpos_inject; unfold Z.sub;
  rewrite ?inject_Z_plus, ?inject_Z_opp;
  change (inject_Z 0) with 0; ring.

(** With a numeric put premium the protective put is a finite number at
    every integer price (the call premium is not read). *)
Lemma netPayoff_protective (st : State) (a : Q) (p : Z) :
  strategy st = "protective_put" ->
  parseFloat (putPremium st) = Fin a ->
  exists x, netPayoff st (Nz p) = Fin x /\ x == qnet st a 0 p.
Proof.
  intros Hs Ha. unfold netPayoff, qnet, intrinsic, premiumPart.
  rewrite Hs, Ha. cbn [String.eqb Ascii.eqb Bool.eqb].
  fin_steps. eexists. split; [reflexivity|]. push_inject.
Qed.

(** With two numeric premiums every strategy is a finite number at every
    integer price. *)
Lemma netPayoff_fin (st : State) (a b : Q) (p : Z) :
  parseFloat (putPremium st) = Fin a ->
  parseFloat (callPremium st) = Fin b ->
  exists x, netPayoff st (Nz p) = Fin x /\ x == qnet st a b p.
Proof.
  intros Ha Hb. unfold netPayoff, qnet, intrinsic, premiumPart.
  rewrite Ha, Hb.
  destruct (strategy st =? "collar").
  { fin_steps. eexists. split; [reflexivity|]. push_inject. }
  destruct (strategy st =? "protective_put").
  { fin_steps. eexists. split; [reflexivity|]. push_inject. }
  destruct (strategy st =? "bear_put_spread").
  { fin_steps. eexists. split; [reflexivity|]. push_inject. }
  eexists. split; [reflexivity|]. change (inject_Z 0) with 0. ring.
Qed.

Lemma payoffAt_fin (st : State) (a b : Q) (p : Z) :
  parseFloat (putPremium st) = Fin a ->
  parseFloat (callPremium st) = Fin b ->
  exists y, payoffAt st p = Fin y /\ y == qround2 (qnet st a b p).
Proof.
  intros Ha Hb. destruct (netPayoff_fin st a b p Ha Hb) as [x [E Q]].
  unfold payoffAt. rewrite E, round2_fin.
  eexists. split; [reflexivity|]. now apply qround2_comp.
Qed.

Lemma payoffAt_protective (st : State) (a : Q) (p : Z) :
  strategy st = "protective_put" ->
  parseFloat (putPremium st) = Fin a ->
  exists y, payoffAt st p = Fin y /\ y == qround2 (qnet st a 0 p).
Proof.
  intros Hs Ha. destruct (netPayoff_protective st a p Hs Ha) as [x [E Q]].
  unfold payoffAt. rewrite E, round2_fin.
  eexists. split; [reflexivity|]. now apply qround2_comp.
Qed.

End FinitePremiums.

(* ================================================================== *)
(** ** The grid, and extrema over it *)

Section Grid.

Local Open Scope Q_scope.

Lemma In_priceGrid (p : Z) : In p priceGrid <-> (85 <= p <= 120)%Z.
Proof.
  unfold priceGrid. rewrite in_map_iff. split.
  - intros [n [E H]]. apply in_seq in H. lia.
  - intros H. exists (Z.to_nat p). split; [lia|]. apply in_seq. lia.
Qed.

Lemma priceGrid_length : List.length priceGrid = 36%nat.
Proof. reflexivity. Qed.

Lemma generatePayoffData_length (st : State) :
  List.length (generatePayoffData st) = 36%nat.
Proof. unfold generatePayoffData. now rewrite length_map. Qed.

Lemma generatePayoffData_prices (st : State) :
  map price (generatePayoffData st) = priceGrid.
Proof.
  unfold generatePayoffData. rewrite map_map. apply map_id.
Qed.

Lemma generatePayoffData_payoffs (st : State) :
  map payoff (generatePayoffData st) = map (payoffAt st) priceGrid.
Proof. unfold generatePayoffData. now rewrite map_map. Qed.

Lemma In_generatePayoffData (st : State) (pt : PayoffPoint) :
  In pt (generatePayoffData st) <->
  (85 <= price pt <= 120)%Z /\ payoff pt = payoffAt st (price pt).
Proof.
  unfold generatePayoffData. rewrite in_map_iff. split.
  - intros [p [E H]]. subst pt. simpl. apply In_priceGrid in H. now split.
  - intros [H E]. exists (price pt). split.
    + destruct pt as [p y]. simpl in *. now subst.
    + now apply In_priceGrid.
Qed.

(** The least of finitely many finite numbers is one of them and lies
    below the others; likewise for the greatest. *)
Lemma mathMin_finite (l : list Num) (f : Z -> Q) (ps : list Z) :
  ps <> [] ->
  Forall2 (fun y p => exists x, y = Fin x /\ x == f p) l ps ->
  exists r, mathMin l = Fin r
            /\ (exists p, In p ps /\ r == f p)
            /\ (forall p, In p ps -> r <= f p).
Proof.
  intros NE H. induction H as [|y p l ps [x [-> Ex]] H IH]; [congruence|].
  destruct ps as [|p' ps'].
  - inversion H; subst. exists x. simpl. split; [reflexivity|]. split.
    + exists p. split; [now left|exact Ex].
    + intros q [<-|[]]. rewrite Ex. apply Qle_refl.
  - destruct IH as [r [E [[q [Iq Eq]] Lb]]]; [congruence|].
    cbn [mathMin fold_right]. fold (mathMin l). rewrite E. cbn [nmin].
    destruct (Qle_bool x r) eqn:B; eexists; (split; [reflexivity|]).
    + apply Qle_bool_iff in B. split.
      * exists p. split; [now left|exact Ex].
      * intros z [<-|Iz]; [rewrite Ex; apply Qle_refl|].
        eapply Qle_trans; [exact B|now apply Lb].
    + assert (N : ~ x <= r) by (intro L; apply Qle_bool_iff in L; congruence).
      split.
      * exists q. split; [now right|exact Eq].
      * intros z [<-|Iz]; [rewrite <- Ex; lra|now apply Lb].
Qed.

Lemma mathMax_finite (l : list Num) (f : Z -> Q) (ps : list Z) :
  ps <> [] ->
  Forall2 (fun y p => exists x, y = Fin x /\ x == f p) l ps ->
  exists r, mathMax l = Fin r
            /\ (exists p, In p ps /\ r == f p)
            /\ (forall p, In p ps -> f p <= r).
Proof.
  intros NE H. induction H as [|y p l ps [x [-> Ex]] H IH]; [congruence|].
  destruct ps as [|p' ps'].
  - inversion H; subst. exists x. simpl. split; [reflexivity|]. split.
    + exists p. split; [now left|exact Ex].
    + intros q [<-|[]]. rewrite Ex. apply Qle_refl.
  - destruct IH as [r [E [[q [Iq Eq]] Ub]]]; [congruence|].
    cbn [mathMax fold_right]. fold (mathMax l). rewrite E. cbn [nmax].
    destruct (Qle_bool x r) eqn:B; eexists; (split; [reflexivity|]).
    + apply Qle_bool_iff in B. split.
      * exists q. split; [now right|exact Eq].
      * intros z [<-|Iz]; [rewrite <- Ex; exact B|now apply Ub].
    + assert (N : ~ x <= r) by (intro L; apply Qle_bool_iff in L; congruence).
      split.
      * exists p. split; [now left|exact Ex].
      * intros z [<-|Iz]; [rewrite Ex; apply Qle_refl|].
        specialize (Ub z Iz). lra.
Qed.

Lemma priceGrid_nonempty : priceGrid <> [].
Proof. discriminate. Qed.

(** A bound that is met on the grid is the reported extremum. *)
Lemma maxLoss_is (st : State) (f : Z -> Q) (m : Q) (p0 : Z) :
  (forall p, exists y, payoffAt st p = Fin y /\ y == f p) ->
  (forall p, (85 <= p <= 120)%Z -> m <= f p) ->
  (85 <= p0 <= 120)%Z -> f p0 == m ->
  Neq (maxLoss st) (Fin m).
Proof.
  intros Hf Lb I0 E0.
  destruct (mathMin_finite (map (payoffAt st) priceGrid) f priceGrid
              priceGrid_nonempty) as [r [E [[q [Iq Eq]] Lr]]].
  { induction priceGrid; constructor; auto. }
  unfold maxLoss. rewrite generatePayoffData_payoffs, E. simpl.
  apply Qle_antisym.
  - rewrite <- E0. apply Lr. now apply In_priceGrid.
  - rewrite Eq. apply Lb. now apply In_priceGrid.
Qed.

Lemma maxGain_is (st : State) (f : Z -> Q) (m : Q) (p0 : Z) :
  (forall p, exists y, payoffAt st p = Fin y /\ y == f p) ->
  (forall p, (85 <= p <= 120)%Z -> f p <= m) ->
  (85 <= p0 <= 120)%Z -> f p0 == m ->
  Neq (maxGain st) (Fin m).
Proof.
  intros Hf Ub I0 E0.
  destruct (mathMax_finite (map (payoffAt st) priceGrid) f priceGrid
              priceGrid_nonempty) as [r [E [[q [Iq Eq]] Ur]]].
  { induction priceGrid; constructor; auto. }
  unfold maxGain. rewrite generatePayoffData_payoffs, E. simpl.
  apply Qle_antisym.
  - rewrite Eq. apply Ub. now apply In_priceGrid.
  - rewrite <- E0. apply Ur. now apply In_priceGrid.
Qed.



End Grid.

(* ================================================================== *)
(** ** Whole premiums: the curve in whole numbers *)

Section WholeCurve.

Local Open Scope string_scope.
Local Open Scope Q_scope.

Lemma premiumPart_whole (st : State) (a b : Q) (n m : Z) :
  a == inject_Z n -> b == inject_Z m ->
  premiumPart st a b == inject_Z (wholePart st n m).
Proof.
  intros Ea Eb. unfold premiumPart, wholePart.
  destruct (strategy st =? "collar");
    [rewrite Ea, Eb, inject_Z_plus, inject_Z_opp; reflexivity|].
  destruct (strategy st =? "protective_put");
    [rewrite Ea, inject_Z_opp; reflexivity|].
  destruct (strategy st =? "bear_put_spread");
    [rewrite Ea, Eb, inject_Z_plus, inject_Z_opp; reflexivity|].
  reflexivity.
Qed.

(** With whole premiums the stored payoff at an integer price is the whole
    number [intrinsic st p + wholePart st n m]: the rounding leaves it
    alone. *)
Lemma whole_curve (st : State) (n m : Z) :
  parsesToWhole (putPremium st) n -> parsesToWhole (callPremium st) m ->
  forall p : Z,
    exists y, payoffAt st p = Fin y
              /\ y == inject_Z (intrinsic st p + wholePart st n m).
Proof.
  intros [a [Ha [Ea _]]] [b [Hb [Eb _]]] p.
  destruct (payoffAt_fin st a b p Ha Hb) as [y [E Q]].
  exists y. split; [exact E|]. rewrite Q. unfold qnet.
  eapply Qeq_trans; [|apply qround2_Z]. apply qround2_comp.
  now rewrite (premiumPart_whole st a b n m Ea Eb), <- inject_Z_plus.
Qed.

Lemma whole_curve_protective (st : State) (n : Z) :
  strategy st = "protective_put" ->
  parsesToWhole (putPremium st) n ->
  forall p : Z,
    exists y, payoffAt st p = Fin y
              /\ y == inject_Z (intrinsic st p + wholePart st n 0).
Proof.
  intros Hs [a [Ha [Ea _]]] p.
  destruct (payoffAt_protective st a p Hs Ha) as [y [E Q]].
  exists y. split; [exact E|]. rewrite Q. unfold qnet.
  eapply Qeq_trans; [|apply qround2_Z]. apply qround2_comp.
  assert (E0 : 0 == inject_Z 0) by reflexivity.
  now rewrite (premiumPart_whole st a 0 n 0 Ea E0), <- inject_Z_plus.
Qed.

Lemma whole_value (st : State) (g : Z -> Z) (p : Z) :
  wholeCurveOf st g -> Neq (payoffAt st p) (Nz (g p)).
Proof. intros Hf. destruct (Hf p) as [y [-> Q]]. exact Q. Qed.

Lemma whole_nle (st : State) (g : Z -> Z) (p q : Z) :
  wholeCurveOf st g -> (g p <= g q)%Z ->
  nle (payoffAt st p) (payoffAt st q) = true.
Proof.
  intros Hf L. destruct (Hf p) as [y1 [-> Q1]]. destruct (Hf q) as [y2 [-> Q2]].
  simpl. apply Qle_bool_iff. rewrite Q1, Q2. now rewrite <- Zle_Qle.
Qed.

Lemma whole_maxLoss (st : State) (g : Z -> Z) (z p0 : Z) :
  wholeCurveOf st g ->
  (forall p, (85 <= p <= 120)%Z -> (z <= g p)%Z) ->
  (85 <= p0 <= 120)%Z -> g p0 = z ->
  Neq (maxLoss st) (Nz z).
Proof.
  intros Hf Lb I0 E0.
  apply (maxLoss_is st (fun p => inject_Z (g p)) (inject_Z z) p0 Hf); auto.
  - intros p Hp. rewrite <- Zle_Qle. now apply Lb.
  - now rewrite E0.
Qed.

Lemma whole_maxGain (st : State) (g : Z -> Z) (z p0 : Z) :
  wholeCurveOf st g ->
  (forall p, (85 <= p <= 120)%Z -> (g p <= z)%Z) ->
  (85 <= p0 <= 120)%Z -> g p0 = z ->
  Neq (maxGain st) (Nz z).
Proof.
  intros Hf Ub I0 E0.
  apply (maxGain_is st (fun p => inject_Z (g p)) (inject_Z z) p0 Hf); auto.
  - intros p Hp. rewrite <- Zle_Qle. now apply Ub.
  - now rewrite E0.
Qed.

End WholeCurve.

(* ================================================================== *)
(** ** Payoff per price (C1, C5, C10) *)

Section PayoffPerPrice.

Local Open Scope string_scope.

Lemma strategyType_inv (s : string) (ty : Spec.StrategyType) :
  Spec.strategyType s = Some ty ->
  match ty with
  | Spec.ProtectivePut => s = "protective_put"
  | Spec.Collar => s = "collar"
  | Spec.BearPutSpread => s = "bear_put_spread"
  end.
Proof.
  unfold Spec.strategyType.
  destruct (s =? "protective_put") eqn:E1.
  { intros [= <-]. now apply String.eqb_eq. }
  destruct (s =? "collar") eqn:E2.
  { intros [= <-]. now apply String.eqb_eq. }
  destruct (s =? "bear_put_spread") eqn:E3.
  { intros [= <-]. now apply String.eqb_eq. }
  discriminate.
Qed.

(** Before rounding, the loop body is the leg sum of the specification. *)
Lemma netPayoff_legSum (st : State) (ty : Spec.StrategyType) (p : Num) :
  Spec.strategyType (strategy st) = Some ty ->
  netPayoff st p = Spec.legSum ty st p.
Proof.
  intros H. apply strategyType_inv in H. unfold netPayoff.
  destruct ty; rewrite H; reflexivity.
Qed.

Lemma payoff_is_rounded (st : State) (ty : Spec.StrategyType) (pt : PayoffPoint) :
  Spec.strategyType (strategy st) = Some ty ->
  In pt (generatePayoffData st) ->
  payoff pt = round2 (Spec.legSum ty st (Nz (price pt))).
Proof.
  intros Hty Hin. apply In_generatePayoffData in Hin. destruct Hin as [_ E].
  rewrite E. unfold payoffAt. now rewrite (netPayoff_legSum st ty).
Qed.

(** Before rounding, with whole premiums, the loop body computes a whole
    number. *)
Lemma netPayoff_whole (st : State) (ty : Spec.StrategyType) (n m p : Z) :
  Spec.strategyType (strategy st) = Some ty ->
  wholePremiums ty st n m ->
  exists x, netPayoff st (Nz p) = Fin x
            /\ (x == inject_Z (intrinsic st p + wholePart st n m))%Q.
Proof.
  intros Hty W. assert (Hs := strategyType_inv _ _ Hty).
  assert (K : exists a b, (a == inject_Z n)%Q /\ (b == inject_Z m)%Q
              /\ exists x, netPayoff st (Nz p) = Fin x /\ (x == qnet st a b p)%Q).
  { destruct ty; simpl in W.
    - destruct W as [a [Ha [Ea _]]].
      assert (wholePart st n m = wholePart st n 0) as E0.
      { unfold wholePart. now rewrite Hs. }
      exists a, (inject_Z m). split; [exact Ea|]. split; [reflexivity|].
      destruct (netPayoff_protective st a p Hs Ha) as [x [E Q]].
      exists x. split; [exact E|]. rewrite Q. unfold qnet, premiumPart.
      rewrite Hs. reflexivity.
    - destruct W as [[a [Ha [Ea _]]] [b [Hb [Eb _]]]].
      exists a, b. split; [exact Ea|]. split; [exact Eb|].
      apply netPayoff_fin; assumption.
    - destruct W as [[a [Ha [Ea _]]] [b [Hb [Eb _]]]].
      exists a, b. split; [exact Ea|]. split; [exact Eb|].
      apply netPayoff_fin; assumption. }
  destruct K as [a [b [Ea [Eb [x [E Q]]]]]].
  exists x. split; [exact E|]. rewrite Q. unfold qnet.
  now rewrite (premiumPart_whole st a b n m Ea Eb), <- inject_Z_plus.
Qed.

(** C1 (as amended).  For each of the three strategies and each point of
    the generated curve, the stored payoff is the leg sum of the
    specification rounded to two decimals by [Math.round(x * 100) / 100].
    When the slider cells are in their ranges and the premiums the
    strategy reads parse to whole numbers of at most nine digits, the leg
    sum is a whole number and the stored payoff is the leg sum itself.  The
    long-put leg is taken on [putStrike] and the second leg on
    [callStrike], whichever of the two strikes is the higher. *)
Theorem C1_payoff_is_rounded_leg_sum
    (st : State) (ty : Spec.StrategyType) (pt : PayoffPoint) :
  Spec.strategyType (strategy st) = Some ty ->
  In pt (generatePayoffData st) ->
  payoff pt = round2 (Spec.legSum ty st (Nz (price pt)))
  /\ (forall n m : Z,
        inRange st ->
        wholePremiums ty st n m ->
        Neq (Spec.legSum ty st (Nz (price pt)))
            (Nz (intrinsic st (price pt) + wholePart st n m))
        /\ Neq (payoff pt) (Spec.legSum ty st (Nz (price pt)))).
Proof.
  intros Hty Hin.
  assert (R := payoff_is_rounded st ty pt Hty Hin).
  split; [exact R|].
  intros n m _ W.
  destruct (netPayoff_whole st ty n m (price pt) Hty W) as [x [E Q]].
  rewrite (netPayoff_legSum st ty) in E by exact Hty.
  rewrite R, E, round2_fin. simpl. split; [exact Q|].
  apply (qround2_cents x ((intrinsic st (price pt) + wholePart st n m) * 100)).
  now rewrite Q, inject_Z_mult.
Qed.

Lemma C1_payoff_is_rounded_leg_sum_witness :
  let pt := mkPoint 90 (payoffAt initState 90) in
  payoff pt = round2 (Spec.legSum Spec.Collar initState (Nz 90))
  /\ Neq (Spec.legSum Spec.Collar initState (Nz 90)) (Nz (-5))
  /\ Neq (payoff pt) (Spec.legSum Spec.Collar initState (Nz 90)).
Proof.
  intros pt.
  destruct (C1_payoff_is_rounded_leg_sum initState Spec.Collar pt) as [R C].
  - reflexivity.
  - apply In_generatePayoffData. simpl. split; [lia | reflexivity].
  - split; [exact R|].
    apply (C 10%Z 10%Z).
    + unfold inRange. simpl. lia.
    + split; exists (inject_Z 10);
        (split; [vm_compute; reflexivity|split; [reflexivity|simpl; lia]]).
Defined.

(** C1, as stated, fails on the rounding: with the put premium typed as
    0.004 the protective put stores 20 at price 120, whereas the leg sum
    is 19.996. *)
Lemma C1_counterexample :
  let st := mkState "protective_put" 100 95 110 "0.004" "10" in
  exists pt,
    In pt (generatePayoffData st)
    /\ price pt = 120%Z
    /\ Spec.strategyType (strategy st) = Some Spec.ProtectivePut
    /\ Neq (payoff pt) (Nz 20)
    /\ Neq (Spec.legSum Spec.ProtectivePut st (Nz 120)) (Fin (4999 # 250))
    /\ ~ Neq (payoff pt) (Spec.legSum Spec.ProtectivePut st (Nz (price pt))).
Proof.
  intros st. exists (mkPoint 120 (payoffAt st 120)).
  split. { apply In_generatePayoffData. simpl. split; [lia|reflexivity]. }
  repeat split; try (vm_compute; reflexivity).
  vm_compute. intros H. discriminate H.
Qed.

Lemma round2_Neq (a b : Num) : Neq a b -> Neq (round2 a) (round2 b).
Proof.
  destruct a, b; try (cbn [Neq]; tauto); try (intros _; vm_compute; exact I).
  cbn [Neq]. intros E. rewrite !round2_fin. cbn [Neq]. now apply qround2_comp.
Qed.

Lemma offered_false (s : string) :
  offered s = false ->
  (s =? "collar") = false /\ (s =? "protective_put") = false
  /\ (s =? "bear_put_spread") = false.
Proof.
  unfold offered. intros H.
  apply orb_false_iff in H. destruct H as [H H3].
  apply orb_false_iff in H. tauto.
Qed.

(** C10.  For a strategy value other than the three names, the generator
    still returns its 36 points, one for each grid price from 85 to 120 in
    order, each with payoff 0, and the breakeven is the current stock
    price. *)
Theorem C10_unknown_strategy (st : State) :
  offered (strategy st) = false ->
  List.length (generatePayoffData st) = 36%nat
  /\ map price (generatePayoffData st) = map Z.of_nat (seq 85 36)
  /\ (forall p, (85 <= p <= 120)%Z ->
        exists pt, In pt (generatePayoffData st)
                   /\ price pt = p /\ Neq (payoff pt) (Nz 0))
  /\ (forall pt, In pt (generatePayoffData st) ->
        (85 <= price pt <= 120)%Z /\ Neq (payoff pt) (Nz 0))
  /\ getBreakeven st = Nz (currentPrice st).
Proof.
  intros H. apply offered_false in H. destruct H as [H1 [H2 H3]].
  assert (Z0 : forall p, Neq (payoffAt st p) (Nz 0)).
  { intros p. unfold payoffAt, netPayoff. rewrite H1, H2, H3.
    vm_compute. reflexivity. }
  split; [apply generatePayoffData_length|].
  split; [apply generatePayoffData_prices|]. split; [|split].
  - intros p Hp. exists (mkPoint p (payoffAt st p)). split; [|split].
    + apply In_generatePayoffData. simpl. now split.
    + reflexivity.
    + apply Z0.
  - intros pt Hin. apply In_generatePayoffData in Hin. destruct Hin as [I E].
    split; [exact I|]. rewrite E. apply Z0.
  - unfold getBreakeven. now rewrite H1, H2, H3.
Qed.

Lemma C10_unknown_strategy_witness :
  let st := mkState "straddle" 100 95 110 "10" "abc" in
  map price (generatePayoffData st) = map Z.of_nat (seq 85 36)
  /\ (forall pt, In pt (generatePayoffData st) ->
        (85 <= price pt <= 120)%Z /\ Neq (payoff pt) (Nz 0))
  /\ getBreakeven st = Nz 100.
Proof.
  intros st.
  destruct (C10_unknown_strategy st) as [_ [P [_ [Z0 B]]]].
  - reflexivity.
  - split; [exact P|]. split; [exact Z0|exact B].
Defined.

Lemma qpos_nonpos (u v : Z) :
  (u <= v)%Z -> (qpos (inject_Z u + - inject_Z v) == 0)%Q.
Proof.
  intros L. rewrite qpos_inject. now rewrite Z.max_r by lia.
Qed.

Lemma legSum_at_spot (st : State) (ty : Spec.StrategyType) :
  flatAtSpot ty st ->
  Neq (Spec.legSum ty st (Nz (currentPrice st))) (Spec.costBasis ty st).
Proof.
  intros F.
  assert (Z0 : (inject_Z (currentPrice st) + - inject_Z (currentPrice st) == 0)%Q)
    by ring.
  unfold Spec.legSum, Spec.costBasis, Spec.stockLeg, Spec.longPut,
    Spec.shortCall, Spec.shortPut.
  destruct ty; simpl in F; unfold Nz;
    rewrite ?nsub_fin, ?nmax_zero.
  - assert (P := qpos_nonpos _ _ F).
    destruct (parseFloat (putPremium st)); simpl; try exact I.
    rewrite P, Z0. ring.
  - destruct F as [F1 F2].
    assert (P := qpos_nonpos _ _ F1). assert (C := qpos_nonpos _ _ F2).
    destruct (parseFloat (putPremium st)), (parseFloat (callPremium st));
      simpl; try exact I.
    rewrite P, C, Z0. ring.
  - destruct F as [F1 F2].
    assert (P := qpos_nonpos _ _ F1). assert (C := qpos_nonpos _ _ F2).
    destruct (parseFloat (putPremium st)), (parseFloat (callPremium st));
      simpl; try exact I.
    rewrite P, C. ring.
Qed.

(** C5 (as amended).  For each of the three strategies, when the spot
    price is on the grid and no option is in the money there (put strike
    at most the spot; for the collar the call strike at least the spot;
    for the bear put spread the second strike at most the spot too), the
    payoff stored at the spot price is
    [-(premium paid) + (premium received)], rounded to two decimals, and
    so does not depend on the strikes.  A strike equal to the spot price is
    allowed. *)
Theorem C5_payoff_at_spot
    (st : State) (ty : Spec.StrategyType) (pt : PayoffPoint) :
  Spec.strategyType (strategy st) = Some ty ->
  In pt (generatePayoffData st) ->
  price pt = currentPrice st ->
  flatAtSpot ty st ->
  Neq (payoff pt) (round2 (Spec.costBasis ty st)).
Proof.
  intros Hty Hin Hp F.
  rewrite (payoff_is_rounded st ty pt Hty Hin), Hp. apply round2_Neq. now apply legSum_at_spot.
Qed.

Lemma C5_payoff_at_spot_witness :
  let pt := mkPoint 100 (payoffAt initState 100) in
  Neq (payoff pt) (round2 (Spec.costBasis Spec.Collar initState)).
Proof.
  intros pt. apply (C5_payoff_at_spot initState Spec.Collar pt).
  - reflexivity.
  - apply In_generatePayoffData. simpl. split; [lia | reflexivity].
  - reflexivity.
  - simpl. lia.
Defined.

(** C5, as stated, fails for a bear put spread whose long put is struck
    above the spot: with spot 100, long put 105, short put 95 and both
    premiums 10 the specification's invariant holds, the cost basis is 0,
    and the payoff stored at price 100 is 5.  The state is one the controls
    lead to. *)
Lemma C5_counterexample :
  let st := mkState "bear_put_spread" 100 105 95 "10" "10" in
  run initState
      [SetCurrentPrice 150; SetPutStrike 105; SetCurrentPrice 50;
       SetCallStrike 95; SetCurrentPrice 100; SetStrategy "bear_put_spread"]
    = Some st
  /\ Spec.strategyType (strategy st) = Some Spec.BearPutSpread
  /\ Spec.valid Spec.BearPutSpread st
  /\ In (mkPoint 100 (payoffAt st 100)) (generatePayoffData st)
  /\ Neq (payoffAt st 100) (Nz 5)
  /\ Neq (Spec.costBasis Spec.BearPutSpread st) (Nz 0)
  /\ ~ Neq (payoffAt st 100) (Spec.costBasis Spec.BearPutSpread st).
Proof.
  intros st. split; [reflexivity|]. split; [reflexivity|].
  split; [simpl; lia|].
  split. { apply In_generatePayoffData. simpl. split; [lia|reflexivity]. }
  split; [vm_compute; reflexivity|]. split; [vm_compute; reflexivity|].
  vm_compute. intros H. discriminate H.
Qed.

(** The same happens in the state the select leads to from the initial
    one: the second strike, 110, is above the spot. *)
Example bear_put_spread_default_at_spot :
  let st := mkState "bear_put_spread" 100 95 110 "10" "10" in
  run initState [SetStrategy "bear_put_spread"] = Some st
  /\ Neq (payoffAt st 100) (Nz (-10))
  /\ Neq (Spec.costBasis Spec.BearPutSpread st) (Nz 0).
Proof. repeat split; vm_compute; reflexivity. Qed.

End PayoffPerPrice.

(* ================================================================== *)
(** ** The price grid and the accepted parameters (C6, C4) *)

Section GridAndControls.

Local Open Scope string_scope.

(** C6 (as amended).  Whatever the state, the generated prices are the
    36 integers from 85 to 120 in increasing order with step 1: the bounds
    are the two constants of the loop and do not depend on the current
    price. *)
Theorem C6_grid_is_fixed (st : State) :
  List.length (generatePayoffData st) = 36%nat
  /\ (forall p, In p (map price (generatePayoffData st)) <-> (85 <= p <= 120)%Z)
  /\ (forall i, (i < 36)%nat ->
        nth i (map price (generatePayoffData st)) 0%Z = (85 + Z.of_nat i)%Z).
Proof.
  split; [apply generatePayoffData_length|].
  rewrite generatePayoffData_prices. split; [apply In_priceGrid|].
  intros i Hi. unfold priceGrid.
  change 0%Z with (Z.of_nat 0). rewrite map_nth, seq_nth by exact Hi. lia.
Qed.

Lemma C6_grid_is_fixed_witness :
  nth 35 (map price (generatePayoffData (mkState "collar" 50 95 110 "10" "10")))
      0%Z = 120%Z.
Proof.
  destruct (C6_grid_is_fixed (mkState "collar" 50 95 110 "10" "10"))
    as [_ [_ H]].
  apply (H 35%nat). lia.
Defined.

(** C6, as stated, fails: with the current price moved to 50 the grid is
    still the one of the initial state, and none of its prices lies in the
    30 per cent band around 50, which is from 35 to 65. *)
Lemma C6_counterexample :
  let st := mkState "collar" 50 95 110 "10" "10" in
  run initState [SetCurrentPrice 50] = Some st
  /\ map price (generatePayoffData st)
     = map price (generatePayoffData initState)
  /\ (Qred (fst (Spec.band 50 (3 # 10))) = 35
      /\ Qred (snd (Spec.band 50 (3 # 10))) = 65)%Q
  /\ forall p, In p (map price (generatePayoffData st)) ->
       ~ (fst (Spec.band (currentPrice st) (3 # 10)) <= inject_Z p
          <= snd (Spec.band (currentPrice st) (3 # 10)))%Q.
Proof.
  intros st. split; [reflexivity|]. split; [reflexivity|].
  split; [split; reflexivity|].
  intros p Hp. rewrite generatePayoffData_prices in Hp.
  apply In_priceGrid in Hp. intros [_ U].
  assert (E : (snd (Spec.band (currentPrice st) (3 # 10)) == inject_Z 65)%Q)
    by reflexivity.
  rewrite E, <- Zle_Qle in U. lia.
Qed.

Lemma handle_inRange (st st' : State) (ev : Event) :
  inRange st -> handle st ev = Some st' -> inRange st'.
Proof.
  unfold inRange. intros [Hc [Hp Hk]] H. destruct ev; simpl in H.
  - destruct (offered s); [|discriminate]. injection H as <-. simpl. lia.
  - destruct (50 <=? v)%Z eqn:L; [|discriminate].
    destruct (v <=? 150)%Z eqn:U; [|discriminate].
    injection H as <-. simpl. apply Z.leb_le in L, U. lia.
  - destruct (50 <=? v)%Z eqn:L; [|discriminate].
    destruct (v <=? currentPrice st - 5)%Z eqn:U; [|discriminate].
    injection H as <-. simpl. apply Z.leb_le in L, U. lia.
  - destruct (hasSecondLeg st); [|discriminate].
    destruct (callStrikeMin st <=? v)%Z eqn:L; [|discriminate].
    destruct (v <=? 150)%Z eqn:U; [|discriminate].
    injection H as <-. simpl. apply Z.leb_le in L, U.
    unfold callStrikeMin in L.
    destruct (strategy st =? "bear_put_spread"); lia.
  - injection H as <-. simpl. lia.
  - destruct (hasSecondLeg st); [|discriminate].
    injection H as <-. simpl. lia.
Qed.

Lemma run_inRange (evs : list Event) (st st' : State) :
  inRange st -> run st evs = Some st' -> inRange st'.
Proof.
  revert st. induction evs as [|ev evs IH]; intros st Hst H; simpl in H.
  - now injection H as <-.
  - destruct (handle st ev) as [st1|] eqn:E; [|discriminate].
    apply (IH st1); [|exact H]. now apply (handle_inRange st st1 ev).
Qed.

(** C4 (as amended).  No combination of parameters is rejected: the 36
    points are computed in every state.  What the controls keep in every
    state they lead to is the three slider ranges: current price from 50 to
    150, put strike from 50 to 145, second strike from 55 to 150.  The put
    strike slider only admits values from 50 to the current price less 5,
    so the put strike is below the current price at the moment it is set;
    moving the current price leaves both strikes as they were. *)
Theorem C4_sliders_bound_nothing_rejected (st : State) :
  reachable st ->
  inRange st
  /\ List.length (generatePayoffData st) = 36%nat
  /\ (forall v st', handle st (SetPutStrike v) = Some st' ->
        putStrike st' = v
        /\ (50 <= putStrike st' <= currentPrice st' - 5)%Z
        /\ currentPrice st' = currentPrice st)
  /\ (forall v st', handle st (SetCurrentPrice v) = Some st' ->
        currentPrice st' = v
        /\ putStrike st' = putStrike st
        /\ callStrike st' = callStrike st).
Proof.
  intros [evs Hr]. split.
  { apply (run_inRange evs initState st); [|exact Hr].
    unfold inRange. simpl. lia. }
  split; [apply generatePayoffData_length|]. split.
  - intros v st'. simpl.
    destruct (50 <=? v)%Z eqn:L; [|discriminate].
    destruct (v <=? currentPrice st - 5)%Z eqn:U; [|discriminate].
    intros [= <-]. simpl. apply Z.leb_le in L, U. lia.
  - intros v st'. simpl.
    destruct ((50 <=? v)%Z && (v <=? 150)%Z); [|discriminate].
    intros [= <-]. simpl. tauto.
Qed.

Lemma C4_sliders_bound_nothing_rejected_witness :
  let st' := mkState "collar" 100 80 110 "10" "10" in
  reachable initState
  /\ inRange initState
  /\ putStrike st' = 80%Z
  /\ (50 <= putStrike st' <= currentPrice st' - 5)%Z
  /\ currentPrice st' = currentPrice initState.
Proof.
  intros st'.
  assert (R : reachable initState) by (exists []; reflexivity).
  destruct (C4_sliders_bound_nothing_rejected initState R) as [I [_ [H _]]].
  split; [exact R|]. split; [exact I|].
  apply (H 80%Z st'). reflexivity.
Defined.

(** C4, as stated, fails: moving the current price to 60 leaves the put
    strike at 95, above the spot, and the collar's curve is computed all
    the same. *)
Lemma C4_counterexample :
  let st := mkState "collar" 60 95 110 "10" "10" in
  run initState [SetCurrentPrice 60] = Some st
  /\ Spec.strategyType (strategy st) = Some Spec.Collar
  /\ ~ Spec.valid Spec.Collar st
  /\ List.length (generatePayoffData st) = 36%nat
  /\ In (mkPoint 85 (payoffAt st 85)) (generatePayoffData st)
  /\ Neq (payoffAt st 85) (Nz 35).
Proof.
  intros st. split; [reflexivity|]. split; [reflexivity|].
  split; [simpl; lia|]. split; [reflexivity|].
  split. { apply In_generatePayoffData. simpl. split; [lia|reflexivity]. }
  vm_compute. reflexivity.
Qed.

End GridAndControls.

(* ================================================================== *)
(** ** Shape of the curve and its extrema (C9, C2) *)

Section CurveShape.

Local Open Scope string_scope.

Lemma intrinsic_collar (st : State) (p : Z) :
  strategy st = "collar" ->
  intrinsic st p
  = (p - currentPrice st + Z.max (putStrike st - p) 0
       - Z.max (p - callStrike st) 0)%Z.
Proof. intros H. unfold intrinsic. now rewrite H. Qed.

Lemma intrinsic_protective (st : State) (p : Z) :
  strategy st = "protective_put" ->
  intrinsic st p = (p - currentPrice st + Z.max (putStrike st - p) 0)%Z.
Proof. intros H. unfold intrinsic. now rewrite H. Qed.

Lemma intrinsic_bear (st : State) (p : Z) :
  strategy st = "bear_put_spread" ->
  intrinsic st p
  = (Z.max (putStrike st - p) 0 - Z.max (callStrike st - p) 0)%Z.
Proof. intros H. unfold intrinsic. now rewrite H. Qed.

(** Order between rounded payoffs follows the order between the integer
    parts, the premiums being the same at both prices. *)
Lemma qround2_qnet_le (st : State) (a b : Q) (p q : Z) :
  (intrinsic st p <= intrinsic st q)%Z ->
  (qround2 (qnet st a b p) <= qround2 (qnet st a b q))%Q.
Proof.
  intros L. apply qround2_mono. unfold qnet.
  rewrite Zle_Qle in L. lra.
Qed.

Lemma qround2_qnet_eq (st : State) (a b : Q) (p : Z) (z : Z) :
  intrinsic st p = z ->
  (qround2 (qnet st a b p) == qround2 (inject_Z z + premiumPart st a b))%Q.
Proof. intros <-. reflexivity. Qed.


Lemma parsesToWhole_10 : parsesToWhole "10" 10.
Proof.
  exists (inject_Z 10).
  split; [vm_compute; reflexivity|]. split; [reflexivity|simpl; lia].
Defined.



Lemma qround2_lower (st : State) (a b : Q) (z p : Z) :
  (z <= intrinsic st p)%Z ->
  (qround2 (inject_Z z + premiumPart st a b) <= qround2 (qnet st a b p))%Q.
Proof.
  intros L. apply qround2_mono. unfold qnet. rewrite Zle_Qle in L. lra.
Qed.

Lemma qround2_upper (st : State) (a b : Q) (z p : Z) :
  (intrinsic st p <= z)%Z ->
  (qround2 (qnet st a b p) <= qround2 (inject_Z z + premiumPart st a b))%Q.
Proof.
  intros L. apply qround2_mono. unfold qnet. rewrite Zle_Qle in L. lra.
Qed.

(** Extrema over the grid from bounds on the integer part. *)
Lemma maxLoss_from_intrinsic (st : State) (a b : Q) (z p0 : Z) :
  (forall p, exists y, payoffAt st p = Fin y /\ (y == qround2 (qnet st a b p))%Q) ->
  (forall p, (85 <= p <= 120)%Z -> (z <= intrinsic st p)%Z) ->
  (85 <= p0 <= 120)%Z -> intrinsic st p0 = z ->
  Neq (maxLoss st) (Fin (qround2 (inject_Z z + premiumPart st a b))).
Proof.
  intros Hf Lb I0 E0.
  apply (maxLoss_is st (fun p => qround2 (qnet st a b p)) _ p0); auto.
  - intros p Hp. apply qround2_lower. now apply Lb.
  - now apply qround2_qnet_eq.
Qed.

Lemma maxGain_from_intrinsic (st : State) (a b : Q) (z p0 : Z) :
  (forall p, exists y, payoffAt st p = Fin y /\ (y == qround2 (qnet st a b p))%Q) ->
  (forall p, (85 <= p <= 120)%Z -> (intrinsic st p <= z)%Z) ->
  (85 <= p0 <= 120)%Z -> intrinsic st p0 = z ->
  Neq (maxGain st) (Fin (qround2 (inject_Z z + premiumPart st a b))).
Proof.
  intros Hf Ub I0 E0.
  apply (maxGain_is st (fun p => qround2 (qnet st a b p)) _ p0); auto.
  - intros p Hp. apply qround2_upper. now apply Ub.
  - now apply qround2_qnet_eq.
Qed.

(** The premiums' contribution, per strategy. *)
Lemma premiumPart_collar (st : State) (a b : Q) :
  strategy st = "collar" -> premiumPart st a b = (- a + b)%Q.
Proof. intros H. unfold premiumPart. now rewrite H. Qed.

Lemma premiumPart_protective (st : State) (a b : Q) :
  strategy st = "protective_put" -> premiumPart st a b = (- a)%Q.
Proof. intros H. unfold premiumPart. now rewrite H. Qed.

Lemma premiumPart_bear (st : State) (a b : Q) :
  strategy st = "bear_put_spread" -> premiumPart st a b = (- a + b)%Q.
Proof. intros H. unfold premiumPart. now rewrite H. Qed.




End CurveShape.

(* ================================================================== *)
(** ** Breakeven (C3) *)

Section Breakeven.

Local Open Scope string_scope.
Local Open Scope Q_scope.

Lemma qpos_le0 (y : Q) : y <= 0 -> qpos y == 0.
Proof.
  intros L. unfold qpos. change (inject_Z 0) with 0.
  destruct (Qle_bool y 0) eqn:B; [reflexivity|].
  apply Qle_bool_iff in L. congruence.
Qed.

Lemma qpos_ge0 (y : Q) : 0 <= y -> qpos y == y.
Proof.
  intros L. unfold qpos. change (inject_Z 0) with 0.
  destruct (Qle_bool y 0) eqn:B; [|reflexivity].
  apply Qle_bool_iff in B. lra.
Qed.

Ltac fin_eval :=
  unfold Nz;
  repeat (rewrite nsub_fin || rewrite nadd_fin || rewrite nneg_fin
          || rewrite (nmax_zero _)).

(** In the exact arithmetic of [Num], for premiums that parse to finite
    numbers [a] and [b]: the closed forms of [getBreakeven], and where they
    are zeros of the loop body. *)
Lemma breakeven_exact (st : State) (a : Q) :
  parseFloat (putPremium st) = Fin a ->
  (strategy st = "protective_put" ->
     Neq (getBreakeven st) (Fin (inject_Z (currentPrice st) + a))
     /\ (inject_Z (putStrike st) <= inject_Z (currentPrice st) + a ->
         Neq (netPayoff st (getBreakeven st)) (Nz 0)))
  /\ (forall b : Q,
        parseFloat (callPremium st) = Fin b ->
        (strategy st = "bear_put_spread" ->
           Neq (getBreakeven st) (Fin (inject_Z (putStrike st) - a + b))
           /\ (inject_Z (callStrike st) <= inject_Z (putStrike st) - a + b ->
               inject_Z (putStrike st) - a + b <= inject_Z (putStrike st) ->
               Neq (netPayoff st (getBreakeven st)) (Nz 0)))
        /\ (strategy st = "collar" ->
              isFinite (getBreakeven st) = true
              /\ (a == b ->
                  (putStrike st <= currentPrice st <= callStrike st)%Z ->
                  Neq (getBreakeven st) (Nz (currentPrice st))
                  /\ Neq (netPayoff st (getBreakeven st)) (Nz 0)))).
Proof.
  intros Ha. split.
  - intros Hs. unfold getBreakeven, netPayoff. rewrite Hs, Ha.
    cbn [String.eqb Ascii.eqb Bool.eqb]. fin_eval. split.
    + simpl. reflexivity.
    + intros L. simpl. change (inject_Z 0) with 0.
      rewrite qpos_le0 by lra. ring.
  - intros b Hb. split.
    + intros Hs. unfold getBreakeven, netPayoff. rewrite Hs, Ha, Hb.
      cbn [String.eqb Ascii.eqb Bool.eqb]. fin_eval. split.
      * simpl. ring.
      * intros L U. simpl. change (inject_Z 0) with 0.
        rewrite (qpos_ge0 (inject_Z (putStrike st)
                           + - (inject_Z (putStrike st) + - a + b))) by lra.
        rewrite (qpos_le0 (inject_Z (callStrike st)
                           + - (inject_Z (putStrike st) + - a + b))) by lra.
        ring.
    + intros Hs. unfold getBreakeven, netPayoff. rewrite Hs, Ha, Hb.
      cbn [String.eqb Ascii.eqb Bool.eqb]. fin_eval. split; [reflexivity|].
      intros E [L U]. rewrite Zle_Qle in L, U. split.
      * simpl. rewrite E. ring.
      * simpl. change (inject_Z 0) with 0.
        rewrite (qpos_le0 (inject_Z (putStrike st)
                           + - (inject_Z (currentPrice st) + b + - a))) by lra.
        rewrite (qpos_le0 (inject_Z (currentPrice st) + b + - a
                           + - inject_Z (callStrike st))) by lra.
        rewrite E. ring.
Qed.

(** C3 (as amended).  The breakeven is not read off the payoff sequence:
    [getBreakeven] is a closed form of the current parameters and always
    returns a number, never null.  With the slider cells in their ranges
    and premium fields that parse to whole numbers [n] and [m] of at most
    nine digits:
    - protective put: it is [currentPrice + n], and the payoff before
      rounding is zero there when that price is not below the put strike;
    - bear put spread: it is [putStrike - n + m], and the payoff before
      rounding is zero there when that price lies between the second
      strike and the put strike;
    - collar: it is a finite number; with equal premiums and
      [putStrike <= currentPrice <= callStrike] it is the current price,
      where the payoff before rounding is zero. *)
Theorem C3_breakeven_closed_form (st : State) (n : Z) :
  inRange st ->
  parsesToWhole (putPremium st) n ->
  (strategy st = "protective_put" ->
     Neq (getBreakeven st) (Nz (currentPrice st + n))
     /\ ((putStrike st <= currentPrice st + n)%Z ->
         Neq (netPayoff st (getBreakeven st)) (Nz 0)))
  /\ (forall m : Z,
        parsesToWhole (callPremium st) m ->
        (strategy st = "bear_put_spread" ->
           Neq (getBreakeven st) (Nz (putStrike st - n + m))
           /\ ((callStrike st <= putStrike st - n + m)%Z ->
               (putStrike st - n + m <= putStrike st)%Z ->
               Neq (netPayoff st (getBreakeven st)) (Nz 0)))
        /\ (strategy st = "collar" ->
              isFinite (getBreakeven st) = true
              /\ (n = m ->
                  (putStrike st <= currentPrice st <= callStrike st)%Z ->
                  Neq (getBreakeven st) (Nz (currentPrice st))
                  /\ Neq (netPayoff st (getBreakeven st)) (Nz 0)))).
Proof.
  intros _ [a [Ha [Ea _]]].
  destruct (breakeven_exact st a Ha) as [P R]. split.
  - intros Hs. destruct (P Hs) as [B Z0]. split.
    + eapply Neq_trans; [exact B|]. simpl. now rewrite Ea, inject_Z_plus.
    + intros L. apply Z0. rewrite Ea, <- inject_Z_plus, <- Zle_Qle. exact L.
  - intros m [b [Hb [Eb _]]]. destruct (R b Hb) as [RB RC]. split.
    + intros Hs. destruct (RB Hs) as [B Z0]. split.
      * eapply Neq_trans; [exact B|]. simpl. rewrite Ea, Eb.
        unfold Z.sub. rewrite !inject_Z_plus, inject_Z_opp. ring.
      * intros L U.
        assert (E : inject_Z (putStrike st) - a + b
                    == inject_Z (putStrike st - n + m)).
        { rewrite Ea, Eb. unfold Z.sub.
          rewrite !inject_Z_plus, inject_Z_opp. ring. }
        apply Z0; rewrite E, <- Zle_Qle; assumption.
    + intros Hs. destruct (RC Hs) as [F C]. split; [exact F|].
      intros -> K. apply C; [|exact K]. now rewrite Ea, Eb.
Qed.

Lemma C3_breakeven_closed_form_witness :
  let st := mkState "protective_put" 100 95 110 "10" "10" in
  Neq (getBreakeven st) (Nz (100 + 10))
  /\ Neq (netPayoff st (getBreakeven st)) (Nz 0).
Proof.
  intros st.
  destruct (C3_breakeven_closed_form st 10) as [H _].
  { unfold inRange. simpl. lia. }
  { exact parsesToWhole_10. }
  destruct H as [B Z0].
  { reflexivity. }
  split; [exact B|]. apply Z0. simpl. lia.
Defined.

(** C3, as stated, fails.  With the call premium set to 20 every payoff of
    the collar's curve is positive, so the sequence has no sign change and
    the interpolated breakeven of the specification is undefined; the
    component reports 110. *)
Lemma C3_counterexample :
  let st := mkState "collar" 100 95 110 "10" "20" in
  run initState [SetCallPremium "20"] = Some st
  /\ forallb (fun pt => nlt (Nz 0) (payoff pt)) (generatePayoffData st) = true
  /\ Spec.breakeven (generatePayoffData st) = None
  /\ Neq (getBreakeven st) (Nz 110).
Proof.
  intros st. split; [reflexivity|].
  split; [vm_compute; reflexivity|].
  split; vm_compute; reflexivity.
Qed.

End Breakeven.

(* ================================================================== *)
(** ** Validation of what the user enters (C7) *)

Section Validation.

Local Open Scope string_scope.

Lemma nadd_NaN_r (x : Num) : nadd x NaN = NaN.
Proof. now destruct x. Qed.

Lemma nsub_NaN_r (x : Num) : nsub x NaN = NaN.
Proof. now destruct x. Qed.

Lemma offered_true (s : string) :
  offered s = true ->
  s = "collar" \/ s = "protective_put" \/ s = "bear_put_spread".
Proof.
  unfold offered. intros H.
  apply orb_true_iff in H. destruct H as [H|H].
  - apply orb_true_iff in H. destruct H as [H|H]; apply String.eqb_eq in H; tauto.
  - apply String.eqb_eq in H. tauto.
Qed.

(** With a put premium that does not parse, the three strategies compute
    [NaN] at every price. *)
Lemma netPayoff_NaN (st : State) (p : Num) :
  offered (strategy st) = true ->
  parseFloat (putPremium st) = NaN ->
  netPayoff st p = NaN.
Proof.
  intros Ho Hn. unfold netPayoff. rewrite Hn, !nsub_NaN_r.
  destruct (offered_true _ Ho) as [H|[H|H]]; rewrite H;
    cbn [String.eqb Ascii.eqb Bool.eqb].
  - now rewrite nadd_NaN_r.
  - now rewrite nadd_NaN_r.
  - reflexivity.
Qed.

(** C7 (as amended).  The premium fields of the strategy are not
    validated: the generator applies [parseFloat] to their text in every
    state, and for any of the three strategies a put premium that is not
    numeric makes the payoff [NaN] at each of the 36 prices.  For a
    holding, a quantity or a price that is a number not above zero is
    stopped by [addHoldingByShares] before any request is made, and so is,
    in [confirmAddToPortfolio], a shares or dollars field that is empty or
    parses to a number not above zero. *)
Theorem C7_validation_as_implemented :
  (forall st pt,
      offered (strategy st) = true ->
      parseFloat (putPremium st) = NaN ->
      List.length (generatePayoffData st) = 36%nat
      /\ (In pt (generatePayoffData st) -> payoff pt = NaN))
  /\ (forall sym name qty price,
        nle qty (Nz 0) = true \/ nle price (Nz 0) = true ->
        forall req, addHoldingByShares sym name qty price <> Requested req)
  /\ (forall stock purchaseType qty dollarAmount,
        (purchaseType = "shares" ->
         qty = "" \/ nle (parseFloat qty) (Nz 0) = true ->
         forall req,
           confirmAddToPortfolio stock purchaseType qty dollarAmount <> inr req)
        /\ (purchaseType <> "shares" ->
            dollarAmount = "" \/ nle (parseFloat dollarAmount) (Nz 0) = true ->
            forall req,
              confirmAddToPortfolio stock purchaseType qty dollarAmount
              <> inr req)).
Proof.
  split; [|split].
  - intros st pt Ho Hn. split; [apply generatePayoffData_length|].
    intros Hin. apply In_generatePayoffData in Hin. destruct Hin as [_ E].
    rewrite E. unfold payoffAt. now rewrite netPayoff_NaN.
  - intros sym name qty price H req. unfold addHoldingByShares.
    destruct ((sym =? "") || (trim sym =? "")); [discriminate|].
    assert (B : nle qty (Nz 0) || nle price (Nz 0) = true)
      by (apply orb_true_iff; exact H).
    rewrite B. discriminate.
  - intros stock purchaseType qty dollarAmount. split.
    + intros -> H req. unfold confirmAddToPortfolio.
      destruct stock; [|discriminate]. cbn [String.eqb Ascii.eqb Bool.eqb].
      assert (B : (qty =? "") || nle (parseFloat qty) (Nz 0) = true).
      { apply orb_true_iff. destruct H as [-> | H]; [now left | now right]. }
      rewrite B. discriminate.
    + intros Hp H req. unfold confirmAddToPortfolio.
      destruct stock; [|discriminate].
      apply String.eqb_neq in Hp. rewrite Hp.
      assert (B : (dollarAmount =? "")
                  || nle (parseFloat dollarAmount) (Nz 0) = true).
      { apply orb_true_iff. destruct H as [-> | H]; [now left | now right]. }
      rewrite B. discriminate.
Qed.

Lemma C7_validation_as_implemented_witness :
  let st := mkState "collar" 100 95 110 "abc" "10" in
  (In (mkPoint 100 NaN) (generatePayoffData st) -> payoff (mkPoint 100 NaN) = NaN)
  /\ addHoldingByShares "AAPL" "Apple" (Nz 0) (Nz 190)
     <> Requested (mkRequest "AAPL" "shares" (Some (Nz 0)) None)
  /\ confirmAddToPortfolio (Some "AAPL") "shares" "-2" ""
     <> inr (mkRequest "AAPL" "shares" (Some (Nz (-2))) None).
Proof.
  intros st.
  destruct C7_validation_as_implemented as [H1 [H2 H3]].
  split; [|split].
  - apply (H1 st (mkPoint 100 NaN)); reflexivity.
  - apply (H2 "AAPL" "Apple" (Nz 0) (Nz 190)). left. reflexivity.
  - destruct (H3 (Some "AAPL") "shares" "-2" "") as [H _].
    apply H; [reflexivity | right; reflexivity].
Defined.

(** C7, as stated, fails for the strategy form: the placeholder's text
    typed as the put premium is not numeric, nothing stops it, and the
    curve is computed on [NaN]; a negative premium is taken as it is. *)
Lemma C7_counterexample :
  let st := mkState "collar" 100 95 110 "$10" "10" in
  let neg := mkState "collar" 100 95 110 "-5" "10" in
  run initState [SetPutPremium "$10"] = Some st
  /\ parseFloat (putPremium st) = NaN
  /\ map payoff (generatePayoffData st) = repeat NaN 36
  /\ maxLoss st = NaN
  /\ run initState [SetPutPremium "-5"] = Some neg
  /\ Neq (parseFloat (putPremium neg)) (Nz (-5))
  /\ Neq (payoffAt neg 100) (Nz 15).
Proof.
  intros st neg. repeat split; vm_compute; reflexivity.
Qed.

End Validation.

(* ================================================================== *)
(** ** Undefined metrics (C8) *)

Section UndefinedMetrics.

Import RiskMetrics.
Local Open Scope Q_scope.

Example beta_flat_benchmark :
  beta [1 # 100; - (2 # 100); 3 # 100] (Some [1 # 100; 1 # 100; 1 # 100])
  = Undefined.
Proof. reflexivity. Qed.

Example beta_defined :
  beta [2 # 100; 4 # 100; 6 # 100] (Some [1 # 100; 2 # 100; 3 # 100])
  <> Undefined.
Proof. vm_compute. discriminate. Qed.

(** C8.  In the metrics bundle the Sharpe ratio is the explicit null
    exactly when the per-period volatility is 0, and beta is the explicit
    null exactly when the benchmark series is absent or has variance 0; in
    those cases neither is reported as the number 0, and the bundle is
    still produced with the other metric untouched. *)
Theorem C8_undefined_metrics
    (portfolioReturns : list Q) (benchmarkReturns : option (list Q))
    (rf vol : Q) :
  let m := computeMetrics portfolioReturns benchmarkReturns rf vol in
  (bundleSharpe m = Undefined <-> vol == 0)
  /\ (bundleBeta m = Undefined <->
      (benchmarkReturns = None
       \/ exists bench, benchmarkReturns = Some bench /\ variance bench == 0))
  /\ (vol == 0 -> bundleSharpe m <> Value 0)
  /\ (forall bench, benchmarkReturns = Some bench -> variance bench == 0 ->
        bundleBeta m <> Value 0)
  /\ bundleBeta m = beta portfolioReturns benchmarkReturns
  /\ bundleSharpe m = sharpeRatio (mean portfolioReturns) rf vol.
Proof.
  simpl. unfold sharpeRatio, beta. repeat split.
  - destruct (Qeq_bool vol 0) eqn:E; [|discriminate].
    intros _. now apply Qeq_bool_eq.
  - intros E. apply Qeq_eq_bool in E. now rewrite E.
  - destruct benchmarkReturns as [bench|]; [|now left].
    destruct (Qeq_bool (variance bench) 0) eqn:E; [|discriminate].
    intros _. right. exists bench. split; [reflexivity|now apply Qeq_bool_eq].
  - intros [->|[bench [-> E]]]; [reflexivity|].
    apply Qeq_eq_bool in E. now rewrite E.
  - intros E. apply Qeq_eq_bool in E. rewrite E. discriminate.
  - intros bench -> E. apply Qeq_eq_bool in E. rewrite E. discriminate.
Qed.

Lemma C8_undefined_metrics_witness :
  let m := computeMetrics [1 # 100; 1 # 100] (Some [2 # 100; 2 # 100]) 0 0 in
  bundleSharpe m <> Value 0 /\ bundleBeta m <> Value 0.
Proof.
  intros m.
  destruct (C8_undefined_metrics [1 # 100; 1 # 100] (Some [2 # 100; 2 # 100]) 0 0)
    as [_ [_ [S [B _]]]].
  split.
  - apply S. reflexivity.
  - apply (B [2 # 100; 2 # 100]); reflexivity.
Defined.

End UndefinedMetrics.

(* ================================================================== *)
(** ** Beyond the claims: the states of the component *)

Section ReachableStates.

Local Open Scope string_scope.

Lemma handle_offered (st st' : State) (ev : Event) :
  offered (strategy st) = true -> handle st ev = Some st' ->
  offered (strategy st') = true.
Proof.
  intros Ho H. destruct ev; simpl in H.
  - destruct (offered s) eqn:E; [|discriminate]. now injection H as <-.
  - destruct ((50 <=? v)%Z && (v <=? 150)%Z); [|discriminate].
    now injection H as <-.
  - destruct ((50 <=? v)%Z && (v <=? currentPrice st - 5)%Z); [|discriminate].
    now injection H as <-.
  - destruct (hasSecondLeg st && (callStrikeMin st <=? v)%Z && (v <=? 150)%Z);
      [|discriminate].
    now injection H as <-.
  - now injection H as <-.
  - destruct (hasSecondLeg st); [|discriminate]. now injection H as <-.
Qed.

Lemma run_offered (evs : list Event) (st st' : State) :
  offered (strategy st) = true -> run st evs = Some st' ->
  offered (strategy st') = true.
Proof.
  revert st. induction evs as [|ev evs IH]; intros st Ho H; simpl in H.
  - now injection H as <-.
  - destruct (handle st ev) as [st1|] eqn:E; [|discriminate].
    apply (IH st1); [|exact H]. now apply (handle_offered st st1 ev).
Qed.

Lemma leb_true (x y : Z) : (x <= y)%Z -> (x <=? y)%Z = true.
Proof. apply Z.leb_le. Qed.

Lemma run_step (st st1 st' : State) (ev : Event) (evs : list Event) :
  handle st ev = Some st1 -> run st1 evs = Some st' ->
  run st (ev :: evs) = Some st'.
Proof. intros H1 H2. simpl. now rewrite H1. Qed.

(** The states the controls lead to are exactly those with one of the
    three strategy names and each slider value in its own range, the
    premium texts being arbitrary: no relation between the strikes and the
    current price survives, and the branch for an unknown strategy is never
    taken. *)
Theorem reachable_iff_in_range (st : State) :
  reachable st <-> offered (strategy st) = true /\ inRange st.
Proof.
  split.
  - intros [evs H]. split.
    + apply (run_offered evs initState st); [reflexivity|exact H].
    + apply (run_inRange evs initState st); [|exact H].
      unfold inRange. simpl. lia.
  - intros [Ho [Hc [Hp Hk]]].
    destruct st as [s S Kp Kc pp cp]. simpl in *.
    exists [SetCurrentPrice 150; SetPutStrike Kp; SetCurrentPrice 50;
            SetCallStrike Kc; SetCallPremium cp; SetPutPremium pp;
            SetCurrentPrice S; SetStrategy s].
    repeat (eapply run_step;
            [ unfold initState;
              cbn [handle hasSecondLeg callStrikeMin strategy currentPrice
                   putStrike callStrike putPremium callPremium
                   String.eqb Ascii.eqb Bool.eqb orb andb];
              change (50 + 5)%Z with 55%Z; change (150 - 5)%Z with 145%Z;
              rewrite ?leb_true by lia; rewrite ?Ho; reflexivity | ]).
    reflexivity.
Qed.

End ReachableStates.

(* ================================================================== *)
(** ** Beyond the claims: the doubles of the source on whole inputs

    The loop body, the extrema and the breakeven evaluated with the
    IEEE-754 operations of the Standard Library agree with the exact
    arithmetic of [Num] on slider values in their ranges and premiums that
    parse to whole numbers: every intermediate value is then a whole number
    below [2 ^ 53], which the operations compute without rounding. *)

Section Doubles.

(** *** Binary digits *)

Lemma digits2_size (p : positive) : digits2_pos p = Pos.size p.
Proof. induction p; simpl; congruence. Qed.

Lemma iter_pos_iter {A : Type} (f : A -> A) (n : positive) (x : A) :
  iter_pos f n x = Pos.iter f x n.
Proof.
  revert x. induction n; intros x; simpl.
  - rewrite !IHn, !Pos.iter_swap. reflexivity.
  - rewrite !IHn. reflexivity.
  - reflexivity.
Qed.

Lemma iter_xO (m k : positive) :
  Z.pos (Pos.iter xO m k) = Z.pos m * 2 ^ Z.pos k.
Proof.
  induction k using Pos.peano_ind.
  - simpl. lia.
  - rewrite Pos.iter_succ, Pos2Z.inj_xO, IHk, Pos2Z.inj_succ, Z.pow_succ_r by lia.
    ring.
Qed.

(** The number of binary digits of a positive integer. *)
Lemma dig_spec (p : positive) :
  2 ^ (Z.pos (digits2_pos p) - 1) <= Z.pos p < 2 ^ Z.pos (digits2_pos p).
Proof.
  rewrite digits2_size.
  assert (G := Pos.size_gt p). assert (L := Pos.size_le p).
  apply Pos2Z.pos_lt_pos in G. apply Pos2Z.pos_le_pos in L.
  rewrite Pos2Z.inj_pow in G, L.
  assert (E : 2 ^ Z.pos (Pos.size p) = 2 * 2 ^ (Z.pos (Pos.size p) - 1)).
  { rewrite <- Z.pow_succ_r by lia. f_equal. lia. }
  lia.
Qed.

Lemma dig_unique (z a b : Z) :
  2 ^ (a - 1) <= z < 2 ^ a -> 2 ^ (b - 1) <= z < 2 ^ b -> 0 < a -> 0 < b -> a = b.
Proof.
  intros [A1 A2] [B1 B2] Pa Pb.
  destruct (Z.lt_trichotomy a b) as [L | [E | L]]; [|exact E|].
  - assert (2 ^ a <= 2 ^ (b - 1)) by (apply Z.pow_le_mono_r; lia). lia.
  - assert (2 ^ b <= 2 ^ (a - 1)) by (apply Z.pow_le_mono_r; lia). lia.
Qed.

Lemma dig_eq (p : positive) (d : Z) :
  2 ^ (d - 1) <= Z.pos p < 2 ^ d -> Z.pos (digits2_pos p) = d.
Proof.
  intros H.
  assert (0 < d).
  { destruct (Z_lt_le_dec 0 d) as [L | L]; [exact L|].
    destruct H as [_ H].
    destruct d as [|d|d];
      [simpl in H; lia | lia | rewrite Z.pow_neg_r in H by lia; lia]. }
  apply (dig_unique (Z.pos p)); try lia. apply dig_spec.
Qed.

Lemma dig_shift (p q : positive) (k : Z) :
  0 <= k -> Z.pos q = Z.pos p * 2 ^ k ->
  Z.pos (digits2_pos q) = Z.pos (digits2_pos p) + k.
Proof.
  intros K E. apply dig_eq. rewrite E.
  destruct (dig_spec p) as [A B].
  replace (Z.pos (digits2_pos p) + k - 1) with (Z.pos (digits2_pos p) - 1 + k) by lia.
  rewrite !Z.pow_add_r by lia.
  assert (0 < 2 ^ k) by (apply Z.pow_pos_nonneg; lia).
  split; nia.
Qed.

Lemma dig_le (p : positive) (d : Z) :
  Z.pos p < 2 ^ d -> Z.pos (digits2_pos p) <= d.
Proof.
  intros H. destruct (dig_spec p) as [A _].
  destruct (Z_le_gt_dec (Z.pos (digits2_pos p)) d) as [L | G]; [exact L|].
  assert (0 <= d).
  { destruct d as [|d|d]; [lia | lia | rewrite Z.pow_neg_r in H by lia; lia]. }
  assert (2 ^ d <= 2 ^ (Z.pos (digits2_pos p) - 1)) by (apply Z.pow_le_mono_r; lia).
  lia.
Qed.

Lemma dig_ge (p : positive) (d : Z) :
  2 ^ (d - 1) <= Z.pos p -> d <= Z.pos (digits2_pos p).
Proof.
  intros H. destruct (dig_spec p) as [_ B].
  destruct (Z_le_gt_dec d (Z.pos (digits2_pos p))) as [L | G]; [exact L|].
  assert (2 ^ Z.pos (digits2_pos p) <= 2 ^ (d - 1)) by (apply Z.pow_le_mono_r; lia).
  lia.
Qed.


(** *** Rounding a value that needs no rounding *)

(** Shifting right the bits that a shift to the left put in loses nothing. *)
Lemma shr_exact (p m : positive) :
  iter_pos shr_1 p (Build_shr_record (Z.pos (Pos.iter xO m p)) false false)
  = Build_shr_record (Z.pos m) false false.
Proof.
  rewrite iter_pos_iter. induction p using Pos.peano_ind.
  - reflexivity.
  - rewrite Pos.iter_succ_r. rewrite Pos.iter_succ. simpl. exact IHp.
Qed.

Lemma fexp_small (d : Z) : 0 <= d -> fexp prec emax d = d - 53.
Proof. intros H. unfold fexp, SpecFloat.emin, prec, emax. lia. Qed.

(** A mantissa [M] with exponent [e] whose value is the whole number [z]
    of at most 53 bits rounds to the double of [z]. *)
Lemma round_aux_exact (s : bool) (M z : positive) (e : Z) :
  Z.pos M = Z.pos z * 2 ^ (- e) -> e <= 0 ->
  Z.pos (digits2_pos z) <= 53 ->
  53 <= Z.pos (digits2_pos z) - e ->
  binary_round_aux prec emax s (Z.pos M) e loc_Exact = canon s z.
Proof.
  intros EM He Hd Hn.
  set (d := Z.pos (digits2_pos z)) in *.
  assert (dM : Z.pos (digits2_pos M) = d - e).
  { unfold d. rewrite (dig_shift z M (- e)); lia. }
  assert (P : 0 < Z.pos z * 2 ^ (53 - d)).
  { assert (0 < 2 ^ (53 - d)) by (apply Z.pow_pos_nonneg; lia). lia. }
  set (m := Z.to_pos (Z.pos z * 2 ^ (53 - d))).
  assert (Em : Z.pos m = Z.pos z * 2 ^ (53 - d)).
  { unfold m. rewrite Z2Pos.id; lia. }
  assert (dm : Z.pos (digits2_pos m) = 53).
  { rewrite (dig_shift z m (53 - d)); fold d; lia. }
  assert (Second :
    forall e', e' = d - 53 ->
    (let '(mrs'', e'') := shr_fexp prec emax (Z.pos m) e' loc_Exact in
     match shr_m mrs'' with
     | Z0 => S754_zero s
     | Z.pos m0 =>
         if e'' <=? emax - prec then S754_finite s m0 e'' else S754_infinity s
     | Z.neg _ => S754_nan
     end) = canon s z).
  { intros e' ->. unfold shr_fexp. cbn [Zdigits2]. rewrite dm.
    rewrite fexp_small by lia.
    replace (53 + (d - 53) - 53 - (d - 53)) with 0 by lia.
    cbn [shr shr_record_of_loc shr_m].
    replace (d - 53 <=? emax - prec) with true
      by (symmetry; apply Z.leb_le; unfold emax, prec; lia).
    reflexivity. }
  unfold binary_round_aux, shr_fexp. cbn [Zdigits2]. rewrite dM.
  rewrite fexp_small by lia.
  destruct (d - e + e - 53 - e) as [|p|p] eqn:En; [| |lia].
  - cbn [shr shr_record_of_loc shr_m loc_of_shr_record round_nearest_even].
    assert (M = m) as ->.
    { apply Pos2Z.inj. rewrite EM, Em. f_equal. f_equal. lia. }
    apply (Second e). lia.
  - cbn [shr shr_record_of_loc].
    assert (M = Pos.iter xO m p) as ->.
    { apply Pos2Z.inj. rewrite iter_xO, EM, Em, <- Z.mul_assoc.
      rewrite <- Z.pow_add_r by lia. f_equal. f_equal. lia. }
    rewrite shr_exact.
    cbn [shr_m loc_of_shr_record round_nearest_even].
    apply (Second (e + Z.pos p)). lia.
Qed.

(** The same after the alignment done by [binary_round]. *)
Lemma round_exact (s : bool) (M z : positive) (e : Z) :
  Z.pos M = Z.pos z * 2 ^ (- e) -> e <= 0 ->
  Z.pos (digits2_pos z) <= 53 ->
  binary_round prec emax s M e = canon s z.
Proof.
  intros EM He Hd.
  set (d := Z.pos (digits2_pos z)) in *.
  assert (dM : Z.pos (digits2_pos M) = d - e).
  { unfold d. rewrite (dig_shift z M (- e)); lia. }
  unfold binary_round, shl_align. rewrite dM, fexp_small by lia.
  destruct (d - e + e - 53 - e) as [|p|p] eqn:En.
  - apply round_aux_exact; fold d; lia.
  - apply round_aux_exact; fold d; lia.
  - apply round_aux_exact; fold d; try lia.
    rewrite iter_xO, EM, <- Z.mul_assoc, <- Z.pow_add_r by lia.
    f_equal. f_equal. lia.
Qed.

Lemma normalize_exact (M z e : Z) :
  M = z * 2 ^ (- e) -> e <= 0 -> Z.abs z < 2 ^ 53 ->
  binary_normalize prec emax M e false = canonZ z.
Proof.
  intros EM He Hz.
  assert (0 < 2 ^ (- e)) by (apply Z.pow_pos_nonneg; lia).
  destruct z as [|z|z].
  - subst M. reflexivity.
  - destruct M as [|M|M]; [lia| |lia].
    apply round_exact; [lia | lia | apply dig_le; lia].
  - destruct M as [|M|M]; [lia|lia|].
    apply round_exact; [lia | lia | apply dig_le; lia].
Qed.

(** A whole number below [2 ^ 53] is a double. *)
Lemma ofZ_canon (z : Z) : Z.abs z < 2 ^ 53 -> ofZ z = canonZ z.
Proof.
  intros Hz. apply normalize_exact; lia.
Qed.


(** *** Sums, differences, products and quotients of whole numbers *)

Lemma canon_mant (z : positive) :
  Z.pos (digits2_pos z) <= 53 ->
  Z.pos (Z.to_pos (Z.pos z * 2 ^ (53 - Z.pos (digits2_pos z))))
  = Z.pos z * 2 ^ (53 - Z.pos (digits2_pos z)).
Proof.
  intros H. rewrite Z2Pos.id; [reflexivity|].
  assert (0 < 2 ^ (53 - Z.pos (digits2_pos z))) by (apply Z.pow_pos_nonneg; lia).
  lia.
Qed.

Lemma shl_align_fst (mx : positive) (ex ez : Z) :
  ez <= ex ->
  Z.pos (fst (shl_align mx ex ez)) = Z.pos mx * 2 ^ (ex - ez).
Proof.
  intros H. unfold shl_align.
  destruct (ez - ex) as [|p|p] eqn:E; cbn [fst].
  - replace (ex - ez) with 0 by lia. simpl. lia.
  - lia.
  - rewrite iter_xO. f_equal. f_equal. lia.
Qed.

(** What is known of the double of a whole number other than zero. *)
Lemma canonZ_finite (x : Z) :
  x <> 0 -> Z.abs x < 2 ^ 53 ->
  exists s m e,
    canonZ x = S754_finite s m e
    /\ s = (x <? 0)
    /\ e = Z.pos (digits2_pos (Z.to_pos (Z.abs x))) - 53
    /\ -52 <= e <= 0
    /\ Z.pos m = Z.abs x * 2 ^ (- e)
    /\ cond_Zopp s (Z.pos m) = x * 2 ^ (- e).
Proof.
  intros Hx Hb.
  destruct x as [|p|p]; [lia| |].
  - assert (D := dig_le p 53 Hb). assert (D' := dig_spec p).
    exists false, (Z.to_pos (Z.pos p * 2 ^ (53 - Z.pos (digits2_pos p)))),
      (Z.pos (digits2_pos p) - 53).
    split; [reflexivity|]. split; [reflexivity|]. split; [reflexivity|].
    split; [lia|].
    replace (- (Z.pos (digits2_pos p) - 53)) with (53 - Z.pos (digits2_pos p)) by lia.
    rewrite canon_mant by lia. split; reflexivity.
  - assert (D := dig_le p 53 Hb). assert (D' := dig_spec p).
    exists true, (Z.to_pos (Z.pos p * 2 ^ (53 - Z.pos (digits2_pos p)))),
      (Z.pos (digits2_pos p) - 53).
    split; [reflexivity|]. split; [reflexivity|]. split; [reflexivity|].
    split; [lia|].
    replace (- (Z.pos (digits2_pos p) - 53)) with (53 - Z.pos (digits2_pos p)) by lia.
    rewrite canon_mant by lia. split; [reflexivity|].
    cbn [cond_Zopp]. lia.
Qed.

Lemma aligned (s : bool) (m : positive) (x e ez : Z) :
  cond_Zopp s (Z.pos m) = x * 2 ^ (- e) -> ez <= e -> e <= 0 ->
  cond_Zopp s (Z.pos (fst (shl_align m e ez))) = x * 2 ^ (- ez).
Proof.
  intros V L H0. rewrite shl_align_fst by exact L.
  replace (- ez) with (- e + (e - ez)) by lia.
  rewrite Z.pow_add_r by lia.
  destruct s; cbn [cond_Zopp] in *; lia.
Qed.

(** The sum and the difference of two whole numbers are computed exactly. *)
Lemma fadd_canon (x y : Z) :
  Z.abs x < 2 ^ 53 -> Z.abs y < 2 ^ 53 -> Z.abs (x + y) < 2 ^ 53 ->
  fadd (canonZ x) (canonZ y) = canonZ (x + y).
Proof.
  intros Hx Hy Hxy.
  destruct (Z.eq_dec x 0) as [-> | Nx].
  { destruct (Z.eq_dec y 0) as [-> | Ny]; [reflexivity|].
    destruct (canonZ_finite y Ny Hy) as [s [m [e [E _]]]].
    rewrite Z.add_0_l, E. reflexivity. }
  destruct (canonZ_finite x Nx Hx) as [sx [mx [ex [Ex [_ [_ [Bx [_ Vx]]]]]]]].
  destruct (Z.eq_dec y 0) as [-> | Ny].
  { rewrite Z.add_0_r, Ex. reflexivity. }
  destruct (canonZ_finite y Ny Hy) as [sy [my [ey [Ey [_ [_ [By [_ Vy]]]]]]]].
  rewrite Ex, Ey. unfold fadd, SFadd.
  apply normalize_exact; [|lia|exact Hxy].
  rewrite (aligned sx mx x ex) by (try exact Vx; lia).
  rewrite (aligned sy my y ey) by (try exact Vy; lia).
  ring.
Qed.

Lemma fsub_canon (x y : Z) :
  Z.abs x < 2 ^ 53 -> Z.abs y < 2 ^ 53 -> Z.abs (x - y) < 2 ^ 53 ->
  fsub (canonZ x) (canonZ y) = canonZ (x - y).
Proof.
  intros Hx Hy Hxy.
  destruct (Z.eq_dec y 0) as [-> | Ny].
  { rewrite Z.sub_0_r. destruct (Z.eq_dec x 0) as [-> | Nx]; [reflexivity|].
    destruct (canonZ_finite x Nx Hx) as [s [m [e [E _]]]].
    rewrite E. reflexivity. }
  destruct (canonZ_finite y Ny Hy) as [sy [my [ey [Ey [Sy [_ [By [_ Vy]]]]]]]].
  destruct (Z.eq_dec x 0) as [-> | Nx].
  { rewrite Ey. cbn [canonZ fsub SFsub]. unfold fsub, SFsub.
    destruct y as [|p|p]; [lia| |]; cbn [canonZ canon Z.sub Z.add Z.opp] in *;
      injection Ey as <- <- <-; reflexivity. }
  destruct (canonZ_finite x Nx Hx) as [sx [mx [ex [Ex [_ [_ [Bx [_ Vx]]]]]]]].
  rewrite Ex, Ey. unfold fsub, SFsub.
  apply normalize_exact; [|lia|exact Hxy].
  rewrite (aligned sx mx x ex) by (try exact Vx; lia).
  rewrite (aligned sy my y ey) by (try exact Vy; lia).
  ring.
Qed.

Lemma opp_canon (x : Z) : x <> 0 -> SFopp (canonZ x) = canonZ (- x).
Proof. destruct x; [lia| |]; reflexivity. Qed.


Lemma canonZ_signed (s : bool) (p : positive) :
  canon s p = canonZ (cond_Zopp s (Z.pos p)).
Proof. destruct s; reflexivity. Qed.

(** So are the product, and the quotient when it is whole. *)
Lemma fmul_canon (x y : Z) :
  Z.abs x < 2 ^ 53 -> 0 < y < 2 ^ 53 -> Z.abs (x * y) < 2 ^ 53 ->
  fmul (canonZ x) (canonZ y) = canonZ (x * y).
Proof.
  intros Hx Hy Hxy.
  assert (Ny : y <> 0) by lia.
  destruct (canonZ_finite y Ny) as [sy [my [ey [Ey [Sy [Dy [By [My Vy]]]]]]]];
    [lia|].
  assert (sy = false) as -> by (rewrite Sy; apply Z.ltb_ge; lia).
  destruct (Z.eq_dec x 0) as [-> | Nx].
  { rewrite Ey. reflexivity. }
  destruct (canonZ_finite x Nx Hx) as [sx [mx [ex [Ex [Sx [Dx [Bx [Mx Vx]]]]]]]].
  rewrite Ex, Ey. unfold fmul, SFmul. rewrite xorb_false_r.
  assert (P : 0 < Z.abs (x * y)) by lia.
  set (z := Z.to_pos (Z.abs (x * y))).
  assert (Ez : Z.pos z = Z.abs (x * y)) by (unfold z; rewrite Z2Pos.id; lia).
  assert (EM : Z.pos (mx * my) = Z.pos z * 2 ^ (- (ex + ey))).
  { rewrite Pos2Z.inj_mul, Mx, My, Ez, Z.abs_mul.
    replace (- (ex + ey)) with (- ex + - ey) by lia.
    rewrite Z.pow_add_r by lia. ring. }
  assert (Dz : Z.pos (digits2_pos z) <= 53) by (apply dig_le; lia).
  rewrite (round_aux_exact sx (mx * my) z (ex + ey) EM); [| lia | exact Dz |].
  - rewrite canonZ_signed. f_equal. rewrite Ez, Sx.
    destruct (x <? 0) eqn:L; cbn [cond_Zopp];
      [apply Z.ltb_lt in L | apply Z.ltb_ge in L]; nia.
  - assert (S : Z.pos (digits2_pos (mx * my))
               = Z.pos (digits2_pos z) + - (ex + ey))
      by (apply dig_shift; [lia | exact EM]).
    assert (G : 105 <= Z.pos (digits2_pos (mx * my))).
    { apply dig_ge. rewrite Pos2Z.inj_mul.
      assert (A : 2 ^ 52 <= Z.pos mx).
      { assert (G := dig_spec mx).
        assert (Z.pos (digits2_pos mx) = 53).
        { rewrite (dig_shift (Z.to_pos (Z.abs x)) mx (- ex)); try lia.
          rewrite Z2Pos.id by lia. exact Mx. }
        replace (Z.pos (digits2_pos mx) - 1) with 52 in G by lia. lia. }
      assert (B : 2 ^ 52 <= Z.pos my).
      { assert (G := dig_spec my).
        assert (Z.pos (digits2_pos my) = 53).
        { rewrite (dig_shift (Z.to_pos (Z.abs y)) my (- ey)); try lia.
          rewrite Z2Pos.id by lia. exact My. }
        replace (Z.pos (digits2_pos my) - 1) with 52 in G by lia. lia. }
      replace (105 - 1) with (52 + 52) by lia.
      rewrite Z.pow_add_r by lia.
      apply Z.mul_le_mono_nonneg; lia. }
    lia.
Qed.

Lemma new_location_zero (n : Z) : new_location n 0 = loc_Exact.
Proof.
  unfold new_location, new_location_even, new_location_odd.
  destruct (Z.even n); reflexivity.
Qed.

Lemma fdiv_canon (w y : Z) :
  0 < y < 2 ^ 53 -> Z.abs (w * y) < 2 ^ 53 ->
  fdiv (canonZ (w * y)) (canonZ y) = canonZ w.
Proof.
  intros Hy Hwy.
  assert (Ny : y <> 0) by lia.
  destruct (canonZ_finite y Ny) as [sy [my [ey [Ey [Sy [Dy [By [My Vy]]]]]]]];
    [lia|].
  assert (sy = false) as -> by (rewrite Sy; apply Z.ltb_ge; lia).
  destruct (Z.eq_dec w 0) as [-> | Nw].
  { rewrite Ey. reflexivity. }
  assert (Nx : w * y <> 0) by nia.
  destruct (canonZ_finite (w * y) Nx Hwy)
    as [sx [mx [ex [Ex [Sx [Dx [Bx [Mx Vx]]]]]]]].
  rewrite Ex, Ey. unfold fdiv, SFdiv, SFdiv_core_binary. rewrite xorb_false_r.
  cbn [Zdigits2].
  assert (D1 : Z.pos (digits2_pos mx) = 53).
  { rewrite (dig_shift (Z.to_pos (Z.abs (w * y))) mx (- ex)); try lia.
    rewrite Z2Pos.id by lia. exact Mx. }
  assert (D2 : Z.pos (digits2_pos my) = 53).
  { rewrite (dig_shift (Z.to_pos (Z.abs y)) my (- ey)); try lia.
    rewrite Z2Pos.id by lia. exact My. }
  rewrite D1, D2.
  assert (F : fexp prec emax (53 + ex - (53 + ey)) = ex - ey - 53).
  { unfold fexp, SpecFloat.emin, prec, emax. lia. }
  rewrite F.
  replace (Z.min (ex - ey - 53) (ex - ey)) with (ex - ey - 53) by lia.
  replace (ex - ey - (ex - ey - 53)) with 53 by lia.
  rewrite Z.shiftl_mul_pow2 by lia.
  set (Q := Z.abs w * 2 ^ (53 - ex + ey)).
  assert (EQ : Z.pos mx * 2 ^ 53 = Q * Z.pos my).
  { unfold Q. rewrite Mx, My, Z.abs_mul.
    replace (53 - ex + ey) with (- ex + (53 + ey)) by lia.
    rewrite (Z.pow_add_r 2 (- ex)) by lia.
    replace (Z.abs w * Z.abs y * 2 ^ (- ex) * 2 ^ 53)
      with (Z.abs w * 2 ^ (- ex) * (2 ^ 53 * Z.abs y)) by ring.
    replace (Z.abs w * (2 ^ (- ex) * 2 ^ (53 + ey)) * (Z.abs y * 2 ^ (- ey)))
      with (Z.abs w * 2 ^ (- ex) * (2 ^ (53 + ey) * 2 ^ (- ey) * Z.abs y)) by ring.
    rewrite <- Z.pow_add_r by lia.
    replace (53 + ey + - ey) with 53 by lia. reflexivity. }
  destruct (Z.div_eucl (Z.pos mx * 2 ^ 53) (Z.pos my)) as [q r] eqn:E.
  assert (Eq : q = Q).
  { change q with (fst (q, r)). rewrite <- E.
    change (fst (Z.div_eucl (Z.pos mx * 2 ^ 53) (Z.pos my)))
      with ((Z.pos mx * 2 ^ 53) / Z.pos my).
    rewrite EQ. apply Z.div_mul. lia. }
  assert (Er : r = 0).
  { change r with (snd (q, r)). rewrite <- E.
    change (snd (Z.div_eucl (Z.pos mx * 2 ^ 53) (Z.pos my)))
      with ((Z.pos mx * 2 ^ 53) mod Z.pos my).
    rewrite EQ. apply Z.mod_mul. lia. }
  subst q r. rewrite new_location_zero.
  assert (PQ : 0 < Q).
  { unfold Q. assert (0 < 2 ^ (53 - ex + ey)) by (apply Z.pow_pos_nonneg; lia).
    nia. }
  destruct Q as [|Qp|Qp] eqn:EQp; [lia| |lia].
  set (z := Z.to_pos (Z.abs w)).
  assert (Ez : Z.pos z = Z.abs w) by (unfold z; rewrite Z2Pos.id; lia).
  assert (Dw : Z.pos (digits2_pos z) <= 53).
  { apply dig_le. rewrite Ez. nia. }
  rewrite (round_aux_exact sx Qp z (ex - ey - 53)).
  - rewrite canonZ_signed. f_equal. rewrite Ez, Sx.
    destruct (w * y <? 0) eqn:L; cbn [cond_Zopp];
      [apply Z.ltb_lt in L | apply Z.ltb_ge in L]; nia.
  - rewrite Ez. unfold Q in EQp. rewrite <- EQp. f_equal. f_equal. lia.
  - lia.
  - exact Dw.
  - (* digits of the product *)
    assert (Z.pos (digits2_pos (Z.to_pos (Z.abs (w * y))))
            <= Z.pos (digits2_pos z) + Z.pos (digits2_pos (Z.to_pos (Z.abs y)))).
    { apply dig_le. rewrite Z2Pos.id by lia.
      assert (A := dig_spec z). assert (B := dig_spec (Z.to_pos (Z.abs y))).
      rewrite Z2Pos.id in B by lia. rewrite Ez in A.
      rewrite Z.pow_add_r by lia. rewrite Z.abs_mul. nia. }
    lia.
Qed.

(** [Math.round] leaves a whole number alone. *)
Lemma mathRound64_canon (z : Z) :
  Z.abs z < 2 ^ 53 -> mathRound64 (canonZ z) = canonZ z.
Proof.
  intros Hz.
  destruct (Z.eq_dec z 0) as [-> | Nz]; [reflexivity|].
  destruct (canonZ_finite z Nz Hz) as [s [m [e [E [S [D [B [M V]]]]]]]].
  rewrite E. unfold mathRound64.
  destruct (0 <=? e) eqn:L; [reflexivity|].
  apply Z.leb_gt in L.
  change (if s then Z.neg m else Z.pos m) with (cond_Zopp s (Z.pos m)).
  rewrite V.
  assert (P : 0 < 2 ^ (- e)) by (apply Z.pow_pos_nonneg; lia).
  assert (R : (2 * (z * 2 ^ (- e)) + 2 ^ (- e)) / 2 ^ (- e + 1) = z).
  { symmetry. apply (Z.div_unique_pos _ _ z (2 ^ (- e))).
    - rewrite Z.pow_add_r by lia. change (2 ^ 1) with 2. lia.
    - rewrite Z.pow_add_r by lia. change (2 ^ 1) with 2. ring. }
  rewrite R.
  destruct z as [|p|p]; [lia| |].
  - change (binary_normalize prec emax (Z.pos p) 0 false) with (ofZ (Z.pos p)).
    rewrite ofZ_canon by exact Hz. exact E.
  - change (binary_normalize prec emax (Z.neg p) 0 false) with (ofZ (Z.neg p)).
    rewrite ofZ_canon by exact Hz. exact E.
Qed.

(** Doubles of whole numbers compare as the whole numbers do. *)
Lemma SFcompare_canon (x y : Z) :
  Z.abs x < 2 ^ 53 -> Z.abs y < 2 ^ 53 ->
  SFcompare (canonZ x) (canonZ y) = Some (x ?= y).
Proof.
  intros Hx Hy.
  assert (K : forall p q : positive,
             Z.pos p < 2 ^ 53 -> Z.pos q < 2 ^ 53 ->
             match Z.pos (digits2_pos p) - 53 ?= Z.pos (digits2_pos q) - 53 with
             | Eq => Pos.compare_cont Eq
                       (Z.to_pos (Z.pos p * 2 ^ (53 - Z.pos (digits2_pos p))))
                       (Z.to_pos (Z.pos q * 2 ^ (53 - Z.pos (digits2_pos q))))
             | Lt => Lt
             | Gt => Gt
             end = (p ?= q)%positive).
  { intros p q Hp Hq.
    assert (Dp := dig_spec p). assert (Dq := dig_spec q).
    assert (Lp := dig_le p 53 Hp). assert (Lq := dig_le q 53 Hq).
    destruct (Z.compare_spec (Z.pos (digits2_pos p) - 53)
                             (Z.pos (digits2_pos q) - 53)) as [E | L | G].
    - assert (E' : Z.pos (digits2_pos p) = Z.pos (digits2_pos q)) by lia.
      change (Pos.compare_cont Eq) with Pos.compare.
      rewrite !Pos2Z.inj_compare, !canon_mant by lia.
      rewrite E'. symmetry. apply Zmult_compare_compat_r.
      apply Z.lt_gt, Z.pow_pos_nonneg; lia.
    - symmetry. apply Pos.compare_lt_iff. apply Pos2Z.pos_lt_pos.
      assert (2 ^ Z.pos (digits2_pos p) <= 2 ^ (Z.pos (digits2_pos q) - 1))
        by (apply Z.pow_le_mono_r; lia).
      lia.
    - symmetry. apply Pos.compare_gt_iff. apply Pos2Z.pos_lt_pos.
      assert (2 ^ Z.pos (digits2_pos q) <= 2 ^ (Z.pos (digits2_pos p) - 1))
        by (apply Z.pow_le_mono_r; lia).
      lia. }
  destruct x as [|p|p], y as [|q|q]; try reflexivity.
  - cbn [canonZ canon SFcompare Z.compare]. f_equal. apply K; lia.
  - cbn [canonZ canon SFcompare Z.compare]. f_equal.
    rewrite <- (K p q) by lia.
    destruct (Z.pos (digits2_pos p) - 53 ?= Z.pos (digits2_pos q) - 53);
      reflexivity.
Qed.

Lemma mathMax64_canon (x y : Z) :
  Z.abs x < 2 ^ 53 -> Z.abs y < 2 ^ 53 ->
  mathMax64 (canonZ x) (canonZ y) = canonZ (Z.max x y).
Proof.
  intros Hx Hy. unfold mathMax64. rewrite SFcompare_canon by assumption.
  destruct (Z.compare_spec x y) as [E | L | G].
  - subst y. rewrite Z.max_id. destruct (canonZ x) as [[|]| | |]; reflexivity.
  - now rewrite Z.max_r by lia.
  - now rewrite Z.max_l by lia.
Qed.

Lemma mathMin64_canon (x y : Z) :
  Z.abs x < 2 ^ 53 -> Z.abs y < 2 ^ 53 ->
  mathMin64 (canonZ x) (canonZ y) = canonZ (Z.min x y).
Proof.
  intros Hx Hy. unfold mathMin64. rewrite SFcompare_canon by assumption.
  destruct (Z.compare_spec x y) as [E | L | G].
  - subst y. rewrite Z.min_id. destruct (canonZ x) as [[|]| | |]; reflexivity.
  - now rewrite Z.min_l by lia.
  - now rewrite Z.min_r by lia.
Qed.


(** *** Whole numbers read by [parseFloat] *)

Lemma digits_nonneg (s : string) (acc : Z) (k : nat) :
  0 <= acc -> 0 <= fst (fst (digits s acc k)).
Proof.
  revert acc k. induction s as [|c r IH]; intros acc k H; cbn [digits].
  - exact H.
  - destruct (isDigit c) eqn:D; [|exact H].
    apply IH. unfold isDigit in D. unfold digitVal.
    apply andb_prop in D. destruct D as [D _]. apply Nat.leb_le in D. lia.
Qed.

Lemma pow10_Q (k : Z) : 0 <= k -> inject_Z (10 ^ k) == Qpower (inject_Z 10) k.
Proof. intros H. apply Zpower_Qpower. exact H. Qed.

Lemma pow10_pos (k : Z) : 0 <= k -> 0 < 10 ^ k.
Proof. intros H. apply Z.pow_pos_nonneg; lia. Qed.

Lemma inject_Z_nonzero (z : Z) : z <> 0 -> ~ inject_Z z == 0.
Proof.
  intros H E. apply H. apply inject_Z_injective. exact E.
Qed.

(** The decimal value read by [parseFloat], as a fraction of integers. *)
Lemma decimal_value (ip fp : Z) (nf : nat) (ex : Z) :
  ((inject_Z ip + inject_Z fp / inject_Z (10 ^ Z.of_nat nf))
   * Qpower (inject_Z 10) ex
   == inject_Z (ip * 10 ^ Z.of_nat nf + fp)
      * Qpower (inject_Z 10) (ex - Z.of_nat nf))%Q.
Proof.
  assert (T : ~ inject_Z 10 == 0) by discriminate.
  assert (E10 := pow10_Q (Z.of_nat nf) (Nat2Z.is_nonneg nf)).
  unfold Z.sub. rewrite Qpower_plus by exact T.
  rewrite Qpower_opp, <- E10.
  rewrite inject_Z_plus, inject_Z_mult.
  assert (P := pow10_pos (Z.of_nat nf) (Nat2Z.is_nonneg nf)).
  assert (~ inject_Z (10 ^ Z.of_nat nf) == 0) by (apply inject_Z_nonzero; lia).
  field. assumption.
Qed.

Lemma scaled_whole (N E n : Z) :
  0 <= N ->
  (inject_Z N * Qpower (inject_Z 10) E == inject_Z n)%Q ->
  (0 <= E -> n = N * 10 ^ E) /\ (E < 0 -> N = n * 10 ^ (- E)).
Proof.
  intros HN H. split; intros HE.
  - assert (E10 := pow10_Q E HE).
    rewrite <- E10, <- inject_Z_mult in H.
    apply (proj1 (inject_Z_injective _ _)) in H. lia.
  - replace E with (- - E) in H by lia.
    assert (E10 : inject_Z (10 ^ (- E)) == Qpower (inject_Z 10) (- E))
      by (apply pow10_Q; lia).
    rewrite Qpower_opp, <- E10 in H.
    assert (P : 0 < 10 ^ (- E)) by (apply pow10_pos; lia).
    assert (NZ : ~ inject_Z (10 ^ (- E)) == 0) by (apply inject_Z_nonzero; lia).
    apply inject_Z_injective. rewrite inject_Z_mult, <- H. field. exact NZ.
Qed.


(** A decimal literal whose value is a whole number below [2 ^ 52] is read
    as the double of that number. *)
Lemma ofDecimal_whole (neg : bool) (N E n : Z) :
  0 <= N ->
  (0 <= E -> n = N * 10 ^ E) -> (E < 0 -> N = n * 10 ^ (- E)) ->
  0 <= n < 2 ^ 52 ->
  wholeDouble (ofDecimal neg N E) (cond_Zopp neg n).
Proof.
  intros HN Hp Hm Hn.
  assert (B : 2 ^ 52 < 2 ^ 53) by (apply Z.pow_lt_mono_r; lia).
  destruct N as [|Np|Np]; [| |lia].
  - assert (n = 0).
    { destruct (Z_lt_le_dec E 0) as [L | L].
      - assert (P := pow10_pos (- E)). specialize (Hm L). nia.
      - rewrite (Hp L). lia. }
    subst n. destruct neg; [right; split; reflexivity | left; reflexivity].
  - left. unfold ofDecimal. destruct (0 <=? E) eqn:LE.
    + apply Z.leb_le in LE. specialize (Hp LE).
      assert (P := pow10_pos E LE).
      set (z := (Np * Z.to_pos (10 ^ E))%positive).
      assert (Ez : Z.pos z = n).
      { unfold z. rewrite Pos2Z.inj_mul, Z2Pos.id by lia. lia. }
      rewrite (round_exact neg z z 0).
      * rewrite canonZ_signed, Ez. reflexivity.
      * simpl. lia.
      * lia.
      * apply dig_le. lia.
    + apply Z.leb_gt in LE. specialize (Hm LE).
      assert (P : 0 < 10 ^ (- E)) by (apply pow10_pos; lia).
      assert (Pn : 0 < n) by nia.
      destruct (10 ^ (- E)) as [|Tp|Tp] eqn:ET; [lia| |lia].
      set (z := Z.to_pos n).
      assert (Ez : Z.pos z = n) by (unfold z; rewrite Z2Pos.id; lia).
      assert (Dz : Z.pos (digits2_pos z) <= 52) by (apply dig_le; lia).
      assert (Dz0 := dig_spec z). assert (DT := dig_spec Tp).
      assert (DN := dig_spec Np).
      assert (D1 : Z.pos (digits2_pos Tp) <= Z.pos (digits2_pos Np)).
      { apply dig_ge. nia. }
      assert (D2 : Z.pos (digits2_pos Np)
                   <= Z.pos (digits2_pos z) + Z.pos (digits2_pos Tp)).
      { apply dig_le. rewrite Z.pow_add_r by lia. nia. }
      unfold SFdiv_core_binary. cbn [Zdigits2].
      rewrite !Z.add_0_r. change (0 - 0) with 0.
      rewrite fexp_small by lia.
      remember (Z.pos (digits2_pos Np) - Z.pos (digits2_pos Tp)) as d eqn:Hd.
      replace (Z.min (d - 53) 0) with (d - 53) by lia.
      destruct (0 - (d - 53)) as [|sp|sp] eqn:Es; [lia| |lia].
      rewrite Z.shiftl_mul_pow2 by lia.
      assert (EQ : Z.pos Np * 2 ^ Z.pos sp = (n * 2 ^ Z.pos sp) * Z.pos Tp).
      { rewrite Hm. ring. }
      destruct (Z.div_eucl (Z.pos Np * 2 ^ Z.pos sp) (Z.pos Tp)) as [q r] eqn:Ed.
      assert (Eq : q = n * 2 ^ Z.pos sp).
      { change q with (fst (q, r)). rewrite <- Ed.
        change (fst (Z.div_eucl (Z.pos Np * 2 ^ Z.pos sp) (Z.pos Tp)))
          with ((Z.pos Np * 2 ^ Z.pos sp) / Z.pos Tp).
        rewrite EQ. apply Z.div_mul. lia. }
      assert (Er : r = 0).
      { change r with (snd (q, r)). rewrite <- Ed.
        change (snd (Z.div_eucl (Z.pos Np * 2 ^ Z.pos sp) (Z.pos Tp)))
          with ((Z.pos Np * 2 ^ Z.pos sp) mod Z.pos Tp).
        rewrite EQ. apply Z.mod_mul. lia. }
      subst r. rewrite new_location_zero.
      assert (Pq : 0 < q).
      { rewrite Eq. assert (0 < 2 ^ Z.pos sp) by (apply Z.pow_pos_nonneg; lia).
        nia. }
      destruct q as [|qp|qp]; [lia| |lia].
      rewrite (round_aux_exact neg qp z (d - 53)).
      * rewrite canonZ_signed, Ez. reflexivity.
      * rewrite Eq, Ez. f_equal. f_equal. lia.
      * lia.
      * lia.
      * lia.
Qed.

(** A text that parses to a whole number in exact arithmetic parses to its
    double. *)
Lemma parseFloat64_whole (s : string) (n : Z) :
  parsesToWhole s n -> wholeDouble (parseFloat64 s) n.
Proof.
  intros [a [Ha [Ea Hn]]]. revert Ha.
  unfold parseFloat, parseFloat64.
  destruct (match skipWhite s with
            | String "+"%char r => (false, r)
            | String "-"%char r => (true, r)
            | _ => (false, skipWhite s)
            end) as [neg s2].
  destruct (String.prefix "Infinity" s2); [destruct neg; discriminate|].
  assert (P1 := digits_nonneg s2 0 0%nat (Z.le_refl 0)).
  destruct (digits s2 0 0%nat) as [[ip ni] s3]. cbn [fst] in P1.
  assert (P2 : 0 <= fst (fst (match s3 with
                              | String "."%char r => digits r 0 0%nat
                              | _ => (0, 0%nat, s3)
                              end))).
  { destruct s3 as [|c r]; [simpl; lia|].
    destruct (Ascii.eqb c "."%char) eqn:Ec.
    - apply Ascii.eqb_eq in Ec. subst c. apply digits_nonneg. lia.
    - destruct c as [[] [] [] [] [] [] [] []]; try (simpl; lia);
        discriminate Ec. }
  destruct (match s3 with
            | String "."%char r => digits r 0 0%nat
            | _ => (0, 0%nat, s3)
            end) as [[fp nf] s4]. cbn [fst] in P2.
  destruct (ni + nf =? 0)%nat; [discriminate|].
  intros Ha. injection Ha as Ha.
  set (N := ip * 10 ^ Z.of_nat nf + fp).
  set (E := exponent s4 - Z.of_nat nf).
  assert (PN : 0 <= N).
  { unfold N. assert (0 < 10 ^ Z.of_nat nf) by (apply pow10_pos; lia). nia. }
  assert (V : (inject_Z N * Qpower (inject_Z 10) E
               == inject_Z (cond_Zopp neg n))%Q).
  { unfold N, E. rewrite <- decimal_value.
    destruct neg; cbn [cond_Zopp].
    - rewrite inject_Z_opp, <- Ea, <- Ha. ring.
    - rewrite <- Ea, <- Ha. reflexivity. }
  destruct (scaled_whole N E (cond_Zopp neg n) PN V) as [Sp Sm].
  assert (Pos : 0 <= cond_Zopp neg n).
  { destruct (Z_lt_le_dec E 0) as [L | L].
    - assert (0 < 10 ^ (- E)) by (apply pow10_pos; lia).
      specialize (Sm L). nia.
    - assert (0 < 10 ^ E) by (apply pow10_pos; lia).
      specialize (Sp L). nia. }
  replace n with (cond_Zopp neg (cond_Zopp neg n))
    by (destruct neg; cbn [cond_Zopp]; lia).
  apply ofDecimal_whole; try assumption.
  split; [exact Pos|].
  assert (Z.abs n < 2 ^ 52).
  { change (2 ^ 52) with 4503599627370496. lia. }
  destruct neg; cbn [cond_Zopp] in *; lia.
Qed.


(** *** The component on whole inputs *)

Ltac bnd := change (2 ^ 53) with 9007199254740992 in *; lia.

Lemma fsub_whole_r (x : Z) (f : spec_float) (y : Z) :
  wholeDouble f y ->
  Z.abs x < 2 ^ 53 -> Z.abs y < 2 ^ 53 -> Z.abs (x - y) < 2 ^ 53 ->
  fsub (canonZ x) f = canonZ (x - y).
Proof.
  intros [-> | [-> ->]] Hx Hy Hxy; [now apply fsub_canon|].
  rewrite Z.sub_0_r. destruct (Z.eq_dec x 0) as [-> | Nx]; [reflexivity|].
  destruct (canonZ_finite x Nx Hx) as [s [m [e [E _]]]]. rewrite E. reflexivity.
Qed.

Lemma fadd_whole_r (x : Z) (f : spec_float) (y : Z) :
  wholeDouble f y ->
  Z.abs x < 2 ^ 53 -> Z.abs y < 2 ^ 53 -> Z.abs (x + y) < 2 ^ 53 ->
  fadd (canonZ x) f = canonZ (x + y).
Proof.
  intros [-> | [-> ->]] Hx Hy Hxy; [now apply fadd_canon|].
  rewrite Z.add_0_r. destruct (Z.eq_dec x 0) as [-> | Nx]; [reflexivity|].
  destruct (canonZ_finite x Nx Hx) as [s [m [e [E _]]]]. rewrite E. reflexivity.
Qed.

Lemma fadd_opp_whole (b : Z) (f : spec_float) (y : Z) :
  wholeDouble f y ->
  0 <= b < 2 ^ 53 -> Z.abs y < 2 ^ 53 -> Z.abs (- b + y) < 2 ^ 53 ->
  wholeDouble (fadd (SFopp (canonZ b)) f) (- b + y).
Proof.
  intros W Hb Hy Hby.
  destruct (Z.eq_dec b 0) as [-> | Nb].
  - cbn [canonZ SFopp negb Z.opp Z.add].
    destruct W as [-> | [-> ->]].
    + left. destruct (Z.eq_dec y 0) as [-> | Ny]; [reflexivity|].
      destruct (canonZ_finite y Ny Hy) as [s [m [e [E _]]]]. rewrite E.
      reflexivity.
    + right. split; reflexivity.
  - rewrite opp_canon by exact Nb. left.
    apply fadd_whole_r; try assumption. lia.
Qed.

(** [Math.round(x * 100) / 100] leaves a whole number alone. *)
Lemma round2_64_canon (t : Z) :
  Z.abs t <= 10000000000 -> round2_64 (canonZ t) = canonZ t.
Proof.
  intros H. unfold round2_64. rewrite (ofZ_canon 100) by bnd.
  rewrite fmul_canon by bnd. rewrite mathRound64_canon by bnd.
  apply fdiv_canon; bnd.
Qed.

(** The value of the double of a whole number. *)
Lemma toNum_canon (z : Z) :
  Z.abs z < 2 ^ 53 -> Neq (toNum (canonZ z)) (Nz z).
Proof.
  intros Hz. destruct (Z.eq_dec z 0) as [-> | Nz0]; [reflexivity|].
  destruct (canonZ_finite z Nz0 Hz) as [s [m [e [E [_ [_ [B [_ V]]]]]]]].
  rewrite E. cbn [toNum Neq Nz].
  assert (E2 : inject_Z (2 ^ (- e)) == Qpower (inject_Z 2) (- e))
    by (apply Zpower_Qpower; lia).
  assert (N2 : ~ inject_Z (2 ^ (- e)) == 0).
  { apply inject_Z_nonzero. assert (0 < 2 ^ (- e)) by (apply Z.pow_pos_nonneg; lia).
    lia. }
  replace e with (- - e) at 1 by lia.
  rewrite Qpower_opp, <- E2.
  assert (V' : (if s then inject_Z (Z.neg m) else inject_Z (Z.pos m))
               = inject_Z (z * 2 ^ (- e))).
  { rewrite <- V. destruct s; reflexivity. }
  rewrite V', inject_Z_mult. field. exact N2.
Qed.


Local Open Scope string_scope.

Lemma whole_abs (s : string) (n : Z) :
  parsesToWhole s n -> Z.abs n <= 999999999.
Proof. intros [a [_ [_ H]]]. exact H. Qed.

(** The loop body in doubles, on whole inputs. *)
Lemma netPayoff64_whole
    (st : State) (ty : Spec.StrategyType) (n m p : Z) :
  Spec.strategyType (strategy st) = Some ty ->
  inRange st ->
  wholePremiums ty st n m ->
  Z.abs p <= 3000000000 ->
  netPayoff64 st (ofZ p) = canonZ (intrinsic st p + wholePart st n m).
Proof.
  intros Hty [[S1 S2] [[P1 P2] [C1 C2]]] W Hp.
  assert (Hs := strategyType_inv _ _ Hty).
  unfold netPayoff64, intrinsic, wholePart.
  destruct ty; simpl in W; rewrite Hs;
    cbn [String.eqb Ascii.eqb Bool.eqb].
  - assert (Bn := whole_abs _ _ W).
    apply parseFloat64_whole in W.
    rewrite !ofZ_canon by bnd.
    rewrite !fsub_canon by bnd.
    rewrite !mathMax64_canon by bnd.
    rewrite (fsub_whole_r _ _ n W) by bnd.
    rewrite fadd_canon by bnd. f_equal. lia.
  - destruct W as [Wn Wm].
    assert (Bn := whole_abs _ _ Wn). assert (Bm := whole_abs _ _ Wm).
    apply parseFloat64_whole in Wn, Wm.
    rewrite !ofZ_canon by bnd.
    rewrite !fsub_canon by bnd.
    rewrite !mathMax64_canon by bnd.
    rewrite (fsub_whole_r _ _ n Wn) by bnd.
    rewrite fadd_canon by bnd.
    rewrite (fadd_whole_r _ _ (- Z.max (p - callStrike st) 0 + m)).
    + f_equal. lia.
    + apply fadd_opp_whole; [exact Wm | bnd | bnd | bnd].
    + bnd.
    + bnd.
    + bnd.
  - destruct W as [Wn Wm].
    assert (Bn := whole_abs _ _ Wn). assert (Bm := whole_abs _ _ Wm).
    apply parseFloat64_whole in Wn, Wm.
    rewrite !ofZ_canon by bnd.
    rewrite !fsub_canon by bnd.
    rewrite !mathMax64_canon by bnd.
    rewrite (fsub_whole_r _ _ n Wn) by bnd.
    rewrite (fadd_whole_r _ _ (- Z.max (callStrike st - p) 0 + m)).
    + f_equal. lia.
    + apply fadd_opp_whole; [exact Wm | bnd | bnd | bnd].
    + bnd.
    + bnd.
    + bnd.
Qed.

Lemma whole_payoff_small
    (st : State) (ty : Spec.StrategyType) (n m p : Z) :
  Spec.strategyType (strategy st) = Some ty ->
  inRange st ->
  wholePremiums ty st n m ->
  Z.abs p <= 3000000000 ->
  Z.abs (intrinsic st p + wholePart st n m) <= 10000000000.
Proof.
  intros Hty [[S1 S2] [[P1 P2] [C1 C2]]] W Hp.
  assert (Hs := strategyType_inv _ _ Hty).
  unfold intrinsic, wholePart.
  destruct ty; simpl in W; rewrite Hs; cbn [String.eqb Ascii.eqb Bool.eqb].
  - assert (Bn := whole_abs _ _ W). lia.
  - destruct W as [Wn Wm].
    assert (Bn := whole_abs _ _ Wn). assert (Bm := whole_abs _ _ Wm). lia.
  - destruct W as [Wn Wm].
    assert (Bn := whole_abs _ _ Wn). assert (Bm := whole_abs _ _ Wm). lia.
Qed.

Lemma payoffAt64_whole
    (st : State) (ty : Spec.StrategyType) (n m p : Z) :
  Spec.strategyType (strategy st) = Some ty ->
  inRange st ->
  wholePremiums ty st n m ->
  85 <= p <= 120 ->
  payoffAt64 st p = canonZ (intrinsic st p + wholePart st n m).
Proof.
  intros Hty R W Hp. assert (Hp' : Z.abs p <= 3000000000) by lia.
  unfold payoffAt64.
  rewrite (netPayoff64_whole st ty n m p Hty R W Hp').
  apply round2_64_canon. now apply (whole_payoff_small st ty).
Qed.

Lemma whole_curve_ty
    (st : State) (ty : Spec.StrategyType) (n m : Z) :
  Spec.strategyType (strategy st) = Some ty ->
  wholePremiums ty st n m ->
  wholeCurveOf st (fun p => intrinsic st p + wholePart st n m).
Proof.
  intros Hty W p.
  destruct (netPayoff_whole st ty n m p Hty W) as [x [E Q]].
  exists (qround2 x). unfold payoffAt. rewrite E, round2_fin.
  split; [reflexivity|].
  rewrite <- Q.
  apply (qround2_cents x ((intrinsic st p + wholePart st n m) * 100)).
  now rewrite Q, inject_Z_mult.
Qed.

Lemma mathMin64_inf (z : Z) :
  Z.abs z < 2 ^ 53 -> mathMin64 (canonZ z) (S754_infinity false) = canonZ z.
Proof.
  intros Hz. destruct (Z.eq_dec z 0) as [-> | N]; [reflexivity|].
  destruct (canonZ_finite z N Hz) as [s [m [e [E _]]]]. rewrite E. reflexivity.
Qed.

Lemma mathMax64_inf (z : Z) :
  Z.abs z < 2 ^ 53 -> mathMax64 (canonZ z) (S754_infinity true) = canonZ z.
Proof.
  intros Hz. destruct (Z.eq_dec z 0) as [-> | N]; [reflexivity|].
  destruct (canonZ_finite z N Hz) as [s [m [e [E _]]]]. rewrite E. reflexivity.
Qed.

(** [Math.min] and [Math.max] over doubles of whole numbers. *)
Lemma fold_min64 (f : Z -> spec_float) (g : Z -> Z) (l : list Z) :
  l <> [] ->
  (forall p, In p l -> f p = canonZ (g p) /\ Z.abs (g p) < 2 ^ 53) ->
  exists z,
    fold_right mathMin64 (S754_infinity false) (map f l) = canonZ z
    /\ (forall p, In p l -> z <= g p)
    /\ (exists p0, In p0 l /\ g p0 = z).
Proof.
  induction l as [|p [|q r] IH]; intros NE H.
  - contradiction.
  - destruct (H p (or_introl eq_refl)) as [E B].
    exists (g p). cbn [map fold_right]. rewrite E, mathMin64_inf by exact B.
    split; [reflexivity|]. split.
    + intros p' [<- | []]. lia.
    + exists p. split; [now left | reflexivity].
  - destruct IH as [z [E [L [p0 [I0 E0]]]]]; [discriminate | |].
    { intros p' I. apply H. now right. }
    destruct (H p (or_introl eq_refl)) as [Ep Bp].
    assert (Bz : Z.abs z < 2 ^ 53).
    { rewrite <- E0. apply H. now right. }
    exists (Z.min (g p) z).
    change (fold_right mathMin64 (S754_infinity false) (map f (p :: q :: r)))
      with (mathMin64 (f p)
              (fold_right mathMin64 (S754_infinity false) (map f (q :: r)))).
    rewrite E, Ep, mathMin64_canon by assumption.
    split; [reflexivity|]. split.
    + intros p' [<- | I]; [lia|]. specialize (L p' I). lia.
    + destruct (Z.le_ge_cases (g p) z) as [C | C].
      * exists p. split; [now left | lia].
      * exists p0. split; [now right | lia].
Qed.

Lemma fold_max64 (f : Z -> spec_float) (g : Z -> Z) (l : list Z) :
  l <> [] ->
  (forall p, In p l -> f p = canonZ (g p) /\ Z.abs (g p) < 2 ^ 53) ->
  exists z,
    fold_right mathMax64 (S754_infinity true) (map f l) = canonZ z
    /\ (forall p, In p l -> g p <= z)
    /\ (exists p0, In p0 l /\ g p0 = z).
Proof.
  induction l as [|p [|q r] IH]; intros NE H.
  - contradiction.
  - destruct (H p (or_introl eq_refl)) as [E B].
    exists (g p). cbn [map fold_right]. rewrite E, mathMax64_inf by exact B.
    split; [reflexivity|]. split.
    + intros p' [<- | []]. lia.
    + exists p. split; [now left | reflexivity].
  - destruct IH as [z [E [L [p0 [I0 E0]]]]]; [discriminate | |].
    { intros p' I. apply H. now right. }
    destruct (H p (or_introl eq_refl)) as [Ep Bp].
    assert (Bz : Z.abs z < 2 ^ 53).
    { rewrite <- E0. apply H. now right. }
    exists (Z.max (g p) z).
    change (fold_right mathMax64 (S754_infinity true) (map f (p :: q :: r)))
      with (mathMax64 (f p)
              (fold_right mathMax64 (S754_infinity true) (map f (q :: r)))).
    rewrite E, Ep, mathMax64_canon by assumption.
    split; [reflexivity|]. split.
    + intros p' [<- | I]; [lia|]. specialize (L p' I). lia.
    + destruct (Z.le_ge_cases (g p) z) as [C | C].
      * exists p0. split; [now right | lia].
      * exists p. split; [now left | lia].
Qed.

Lemma nneg_Neq (a b : Num) : Neq a b -> Neq (nneg a) (nneg b).
Proof. destruct a, b; simpl; try tauto. intros E. now rewrite E. Qed.

Lemma nadd_Neq (a b c d : Num) :
  Neq a b -> Neq c d -> Neq (nadd a c) (nadd b d).
Proof.
  destruct a, b; simpl; try tauto; destruct c, d; simpl; try tauto.
  intros E1 E2. now rewrite E1, E2.
Qed.

Lemma nsub_Neq (a b c d : Num) :
  Neq a b -> Neq c d -> Neq (nsub a c) (nsub b d).
Proof. intros E1 E2. apply nadd_Neq; [exact E1 | now apply nneg_Neq]. Qed.

Lemma nmax_Neq (a b c d : Num) :
  Neq a b -> Neq c d -> Neq (nmax a c) (nmax b d).
Proof.
  destruct a, b; simpl; try tauto; destruct c, d; simpl; try tauto.
  intros E1 E2. rewrite E1, E2. destruct (Qle_bool q0 q2); assumption.
Qed.

(** The loop body of the exact model respects equality of values. *)
Lemma netPayoff_Neq (st : State) (x y : Num) :
  Neq x y -> Neq (netPayoff st x) (netPayoff st y).
Proof.
  intros E. unfold netPayoff.
  repeat match goal with
         | |- Neq (if ?c then _ else _) _ => destruct c
         end;
    repeat (apply nadd_Neq || apply nsub_Neq || apply nneg_Neq
            || apply nmax_Neq || exact E || apply Neq_refl).
Qed.

Lemma Qle_bool_inject (a b : Z) :
  Qle_bool (inject_Z a) (inject_Z b) = (a <=? b)%Z.
Proof.
  destruct (Z.leb_spec a b) as [L | L].
  - apply Qle_bool_iff. now rewrite <- Zle_Qle.
  - destruct (Qle_bool (inject_Z a) (inject_Z b)) eqn:B; [|reflexivity].
    apply Qle_bool_iff in B. rewrite <- Zle_Qle in B. lia.
Qed.

Lemma SFleb_canon (x y : Z) :
  Z.abs x < 2 ^ 53 -> Z.abs y < 2 ^ 53 ->
  SFleb (canonZ x) (canonZ y) = (x <=? y)%Z.
Proof.
  intros Hx Hy. unfold SFleb. rewrite SFcompare_canon by assumption.
  unfold Z.leb. destruct (x ?= y)%Z; reflexivity.
Qed.

(** [getBreakeven] in doubles, on whole inputs. *)
Lemma getBreakeven64_whole
    (st : State) (ty : Spec.StrategyType) (n m : Z) :
  Spec.strategyType (strategy st) = Some ty ->
  inRange st ->
  wholePremiums ty st n m ->
  exists b, getBreakeven64 st = canonZ b
            /\ Z.abs b <= 3000000000
            /\ Neq (getBreakeven st) (Nz b).
Proof.
  intros Hty [[S1 S2] [[P1 P2] [C1 C2]]] W.
  assert (Hs := strategyType_inv _ _ Hty).
  unfold getBreakeven64, getBreakeven.
  destruct ty; simpl in W; rewrite Hs; cbn [String.eqb Ascii.eqb Bool.eqb].
  - assert (Bn := whole_abs _ _ W). assert (W64 := parseFloat64_whole _ _ W).
    destruct W as [a [Ha [Ea _]]].
    exists (currentPrice st + n). rewrite ofZ_canon by bnd.
    rewrite (fadd_whole_r _ _ n W64) by bnd.
    split; [reflexivity|]. split; [lia|].
    rewrite Ha. cbn [nadd Nz Neq]. now rewrite Ea, inject_Z_plus.
  - destruct W as [Wn Wm].
    assert (Bn := whole_abs _ _ Wn). assert (Bm := whole_abs _ _ Wm).
    assert (Wn64 := parseFloat64_whole _ _ Wn).
    assert (Wm64 := parseFloat64_whole _ _ Wm).
    destruct Wn as [a [Ha [Ea _]]]. destruct Wm as [b [Hb [Eb _]]].
    exists (currentPrice st + m - n). rewrite ofZ_canon by bnd.
    rewrite (fadd_whole_r _ _ m Wm64) by bnd.
    rewrite (fsub_whole_r _ _ n Wn64) by bnd.
    split; [reflexivity|]. split; [lia|].
    rewrite Ha, Hb. cbn [nadd nsub nneg Nz Neq].
    rewrite Ea, Eb. unfold Z.sub.
    rewrite !inject_Z_plus, inject_Z_opp. ring.
  - destruct W as [Wn Wm].
    assert (Bn := whole_abs _ _ Wn). assert (Bm := whole_abs _ _ Wm).
    assert (Wn64 := parseFloat64_whole _ _ Wn).
    assert (Wm64 := parseFloat64_whole _ _ Wm).
    destruct Wn as [a [Ha [Ea _]]]. destruct Wm as [b [Hb [Eb _]]].
    exists (putStrike st - n + m). rewrite ofZ_canon by bnd.
    rewrite (fsub_whole_r _ _ n Wn64) by bnd.
    rewrite (fadd_whole_r _ _ m Wm64) by bnd.
    split; [reflexivity|]. split; [lia|].
    rewrite Ha, Hb. cbn [nadd nsub nneg Nz Neq].
    rewrite Ea, Eb. unfold Z.sub.
    rewrite !inject_Z_plus, inject_Z_opp. ring.
Qed.

(** With the slider cells in their ranges and the premiums the strategy
    reads parsing to whole numbers of at most nine digits, the component
    evaluated in binary64 (round to nearest, ties to even, precision 53)
    computes without rounding: at every grid price the payoff before
    rounding is the whole number [intrinsic + premiums], and
    [Math.round(x * 100) / 100] stores that payoff itself; the stored
    payoffs, their order, the reported maximum loss and gain, the
    breakeven and the payoff at the breakeven have the values they have in
    the exact arithmetic of [Num]. *)
Theorem doubles_agree_on_whole_inputs
    (st : State) (ty : Spec.StrategyType) (n m : Z) :
  Spec.strategyType (strategy st) = Some ty ->
  inRange st ->
  wholePremiums ty st n m ->
  (forall p, 85 <= p <= 120 ->
     netPayoff64 st (ofZ p) = ofZ (intrinsic st p + wholePart st n m)
     /\ payoffAt64 st p = netPayoff64 st (ofZ p)
     /\ Neq (toNum (payoffAt64 st p)) (payoffAt st p))
  /\ (forall p q, 85 <= p <= 120 -> 85 <= q <= 120 ->
        SFleb (payoffAt64 st p) (payoffAt64 st q)
        = nle (payoffAt st p) (payoffAt st q))
  /\ Neq (toNum (maxLoss64 st)) (maxLoss st)
  /\ Neq (toNum (maxGain64 st)) (maxGain st)
  /\ Neq (toNum (getBreakeven64 st)) (getBreakeven st)
  /\ Neq (toNum (netPayoff64 st (getBreakeven64 st)))
         (netPayoff st (getBreakeven st)).
Proof.
  intros Hty R W.
  assert (Hf := whole_curve_ty st ty n m Hty W).
  assert (S : forall p, 85 <= p <= 120 ->
              Z.abs (intrinsic st p + wholePart st n m) < 2 ^ 53).
  { intros p Hp. assert (Hp' : Z.abs p <= 3000000000) by lia.
    assert (B := whole_payoff_small st ty n m p Hty R W Hp'). bnd. }
  assert (G : forall p, In p priceGrid ->
              payoffAt64 st p = canonZ (intrinsic st p + wholePart st n m)
              /\ Z.abs (intrinsic st p + wholePart st n m) < 2 ^ 53).
  { intros p I. apply In_priceGrid in I. split; [|now apply S].
    now apply (payoffAt64_whole st ty). }
  split; [|split; [|split; [|split; [|split]]]].
  - intros p Hp. assert (Hp' : Z.abs p <= 3000000000) by lia.
    rewrite (ofZ_canon (intrinsic st p + wholePart st n m)) by now apply S.
    rewrite (payoffAt64_whole st ty n m p Hty R W Hp).
    rewrite (netPayoff64_whole st ty n m p Hty R W Hp').
    split; [reflexivity|]. split; [reflexivity|].
    eapply Neq_trans; [apply toNum_canon; now apply S|].
    apply Neq_sym. apply (whole_value st _ p Hf).
  - intros p q Hp Hq.
    rewrite (payoffAt64_whole st ty n m p Hty R W Hp).
    rewrite (payoffAt64_whole st ty n m q Hty R W Hq).
    rewrite SFleb_canon by now apply S.
    destruct (Hf p) as [y1 [-> Q1]]. destruct (Hf q) as [y2 [-> Q2]].
    cbn [nle]. rewrite Q1, Q2. symmetry. apply Qle_bool_inject.
  - destruct (fold_min64 (payoffAt64 st) _ priceGrid priceGrid_nonempty G)
      as [z [E [L [p0 [I0 E0]]]]].
    unfold maxLoss64. rewrite E.
    eapply Neq_trans; [apply toNum_canon; rewrite <- E0; now apply G|].
    apply Neq_sym. apply (whole_maxLoss st _ z p0 Hf).
    + intros p Hp. apply L. now apply In_priceGrid.
    + now apply In_priceGrid.
    + exact E0.
  - destruct (fold_max64 (payoffAt64 st) _ priceGrid priceGrid_nonempty G)
      as [z [E [L [p0 [I0 E0]]]]].
    unfold maxGain64. rewrite E.
    eapply Neq_trans; [apply toNum_canon; rewrite <- E0; now apply G|].
    apply Neq_sym. apply (whole_maxGain st _ z p0 Hf).
    + intros p Hp. apply L. now apply In_priceGrid.
    + now apply In_priceGrid.
    + exact E0.
  - destruct (getBreakeven64_whole st ty n m Hty R W) as [b [E [B N]]].
    rewrite E. eapply Neq_trans; [apply toNum_canon; bnd|].
    apply Neq_sym. exact N.
  - destruct (getBreakeven64_whole st ty n m Hty R W) as [b [E [B N]]].
    rewrite E, <- (ofZ_canon b) by bnd.
    rewrite (netPayoff64_whole st ty n m b Hty R W B).
    assert (B' := whole_payoff_small st ty n m b Hty R W B).
    eapply Neq_trans; [apply toNum_canon; bnd|].
    destruct (netPayoff_whole st ty n m b Hty W) as [x [Ex Qx]].
    eapply Neq_trans; [|apply (netPayoff_Neq st (Nz b)); now apply Neq_sym].
    rewrite Ex. cbn [Neq Nz]. now rewrite Qx.
Qed.

Lemma doubles_agree_on_whole_inputs_witness :
  netPayoff64 initState (ofZ 90) = ofZ (-5)
  /\ payoffAt64 initState 90 = netPayoff64 initState (ofZ 90)
  /\ Neq (toNum (maxLoss64 initState)) (maxLoss initState)
  /\ Neq (toNum (getBreakeven64 initState)) (getBreakeven initState).
Proof.
  destruct (doubles_agree_on_whole_inputs initState Spec.Collar 10 10)
    as [P [_ [L [_ [B _]]]]].
  - reflexivity.
  - unfold inRange. simpl. lia.
  - split; exact parsesToWhole_10.
  - destruct (P 90%Z) as [N [R _]]; [lia|].
    split; [exact N|]. split; [exact R|]. split; [exact L|exact B].
Defined.

(** With a fraction in a premium the doubles round.  The bear put spread
    with strikes 95 and 110 and premiums 0.015 and 10 stores -5.01 at price
    90 and -5.02 at price 91, so that the stored curve goes down there,
    whereas both payoffs are -5.015 before rounding and -5.01 after it in
    exact arithmetic. *)
Example doubles_round_a_fraction :
  let st := mkState "bear_put_spread" 100 95 110 "0.015" "10" in
  payoffAt64 st 90 = parseFloat64 "-5.01"
  /\ payoffAt64 st 91 = parseFloat64 "-5.02"
  /\ SFleb (payoffAt64 st 90) (payoffAt64 st 91) = false
  /\ Neq (payoffAt st 90) (Fin (-501 # 100))
  /\ Neq (payoffAt st 91) (Fin (-501 # 100))
  /\ sameValue (payoffAt64 st 91) (payoffAt st 91) = false.
Proof. vm_compute. repeat split; reflexivity. Qed.

(** The collar with strikes 95 and 110 and premiums 10.005 and 10 reports
    -5.01 and 9.99 in doubles. *)
Example doubles_round_the_extrema :
  let st := mkState "collar" 100 95 110 "10.005" "10" in
  maxLoss64 st = parseFloat64 "-5.01" /\ maxGain64 st = parseFloat64 "9.99".
Proof. vm_compute. split; reflexivity. Qed.

(** Doubles overflow: with premiums -1e308 and 1e308 the collar's breakeven
    is [Infinity], and the text 1e400 parses to [Infinity]. *)
Example doubles_overflow :
  let st := mkState "collar" 100 95 110 "-1e308" "1e308" in
  getBreakeven64 st = S754_infinity false
  /\ isFinite (getBreakeven st) = true
  /\ parseFloat64 "1e400" = S754_infinity false.
Proof. vm_compute. repeat split; reflexivity. Qed.

End Doubles.

(* ================================================================== *)
(** ** Beyond the claims: the shape of the three curves *)

Section Shapes.

Local Open Scope string_scope.

Lemma whole_step (st : State) (g : Z -> Z) (p q k : Z) :
  wholeCurveOf st g -> g q = (g p + k)%Z ->
  Neq (payoffAt st q) (nadd (payoffAt st p) (Nz k)).
Proof.
  intros Hf E. destruct (Hf p) as [y0 [-> Q0]]. destruct (Hf q) as [y1 [-> Q1]].
  simpl. now rewrite Q1, Q0, E, inject_Z_plus.
Qed.

Lemma whole_eq (st : State) (g : Z -> Z) (p q : Z) :
  wholeCurveOf st g -> g p = g q -> Neq (payoffAt st p) (payoffAt st q).
Proof.
  intros Hf E. destruct (Hf p) as [y0 [-> Q0]]. destruct (Hf q) as [y1 [-> Q1]].
  simpl. now rewrite Q0, Q1, E.
Qed.

(** A collar whose put strike is not above its call strike, with the
    slider cells in their ranges and premiums that parse to whole numbers
    [n] and [m]: at every grid price the stored payoff lies between the
    floor [putStrike - currentPrice - n + m] and the cap
    [callStrike - currentPrice - n + m]; the reported maximum loss and gain
    are whole numbers between these two, so they are never further apart
    than the two strikes. *)
Theorem collar_between_floor_and_cap (st : State) (n m : Z) :
  strategy st = "collar" ->
  inRange st ->
  parsesToWhole (putPremium st) n ->
  parsesToWhole (callPremium st) m ->
  (putStrike st <= callStrike st)%Z ->
  let lo := (putStrike st - currentPrice st - n + m)%Z in
  let hi := (callStrike st - currentPrice st - n + m)%Z in
  (forall p : Z, (85 <= p <= 120)%Z ->
      nle (Nz lo) (payoffAt st p) = true /\ nle (payoffAt st p) (Nz hi) = true)
  /\ exists l g : Z,
      Neq (maxLoss st) (Nz l) /\ Neq (maxGain st) (Nz g)
      /\ (lo <= l)%Z /\ (l <= g)%Z /\ (g <= hi)%Z
      /\ (g - l <= callStrike st - putStrike st)%Z.
Proof.
  intros Hs _ Hn Hm Hk lo hi.
  assert (Hf : wholeCurveOf st (fun p => intrinsic st p + wholePart st n m)%Z)
    by (intros p; now apply whole_curve).
  assert (W : wholePart st n m = (- n + m)%Z)
    by (unfold wholePart; now rewrite Hs).
  assert (I : forall p, intrinsic st p
              = (p - currentPrice st + Z.max (putStrike st - p) 0
                 - Z.max (p - callStrike st) 0)%Z)
    by (intros p; now apply intrinsic_collar).
  split.
  - intros p Hp. destruct (Hf p) as [y [-> Q]]. simpl.
    split; apply Qle_bool_iff; rewrite Q, <- Zle_Qle, W, I; subst lo hi; lia.
  - exists (intrinsic st 85 + wholePart st n m)%Z,
           (intrinsic st 120 + wholePart st n m)%Z.
    split; [|split].
    + apply (whole_maxLoss st _ _ 85 Hf); [|lia|reflexivity].
      intros p Hp. rewrite !I. lia.
    + apply (whole_maxGain st _ _ 120 Hf); [|lia|reflexivity].
      intros p Hp. rewrite !I. lia.
    + rewrite W, !I. subst lo hi. lia.
Qed.

Lemma collar_between_floor_and_cap_witness :
  let st := mkState "collar" 100 95 150 "10" "10" in
  exists l g : Z,
    Neq (maxLoss st) (Nz l) /\ Neq (maxGain st) (Nz g)
    /\ (95 - 100 - 10 + 10 <= l)%Z /\ (l <= g)%Z
    /\ (g <= 150 - 100 - 10 + 10)%Z /\ (g - l <= 150 - 95)%Z.
Proof.
  intros st.
  destruct (collar_between_floor_and_cap st 10 10) as [_ H].
  - reflexivity.
  - unfold inRange. simpl. lia.
  - exact parsesToWhole_10.
  - exact parsesToWhole_10.
  - simpl. lia.
  - exact H.
Defined.

(** The same collar never decreases along the grid: it is flat up to the
    put strike, rises by exactly 1 per unit of price between the strikes
    and is flat from the call strike on; the reported maximum loss is the
    payoff at the first grid price, 85, and the reported maximum gain the
    payoff at the last, 120, wherever the strikes are. *)
Theorem collar_shape (st : State) (n m : Z) :
  strategy st = "collar" ->
  inRange st ->
  parsesToWhole (putPremium st) n ->
  parsesToWhole (callPremium st) m ->
  (putStrike st <= callStrike st)%Z ->
  (forall p q, (85 <= p)%Z -> (p <= q)%Z -> (q <= 120)%Z ->
      nle (payoffAt st p) (payoffAt st q) = true)
  /\ (forall p q, (85 <= p <= 120)%Z -> (85 <= q <= 120)%Z ->
        (p <= putStrike st)%Z -> (q <= putStrike st)%Z ->
        Neq (payoffAt st p) (payoffAt st q))
  /\ (forall p, (85 <= p)%Z -> (p + 1 <= 120)%Z ->
        (putStrike st <= p)%Z -> (p + 1 <= callStrike st)%Z ->
        Neq (payoffAt st (p + 1)) (nadd (payoffAt st p) (Nz 1)))
  /\ (forall p q, (85 <= p <= 120)%Z -> (85 <= q <= 120)%Z ->
        (callStrike st <= p)%Z -> (callStrike st <= q)%Z ->
        Neq (payoffAt st p) (payoffAt st q))
  /\ Neq (maxLoss st) (payoffAt st 85)
  /\ Neq (maxGain st) (payoffAt st 120).
Proof.
  intros Hs _ Hn Hm Hk.
  assert (Hf : wholeCurveOf st (fun p => intrinsic st p + wholePart st n m)%Z)
    by (intros p; now apply whole_curve).
  assert (I : forall p, intrinsic st p
              = (p - currentPrice st + Z.max (putStrike st - p) 0
                 - Z.max (p - callStrike st) 0)%Z)
    by (intros p; now apply intrinsic_collar).
  split; [|split; [|split; [|split; [|split]]]].
  - intros p q _ L _. apply (whole_nle st _ _ _ Hf). rewrite !I. lia.
  - intros p q _ _ Hp Hq. apply (whole_eq st _ _ _ Hf). rewrite !I. lia.
  - intros p _ _ Hp Hq. apply (whole_step st _ p (p + 1) 1 Hf). rewrite !I. lia.
  - intros p q _ _ Hp Hq. apply (whole_eq st _ _ _ Hf). rewrite !I. lia.
  - eapply Neq_trans; [|apply Neq_sym, (whole_value st _ 85 Hf)].
    apply (whole_maxLoss st _ _ 85 Hf); [|lia|reflexivity].
    intros p Hp. rewrite !I. lia.
  - eapply Neq_trans; [|apply Neq_sym, (whole_value st _ 120 Hf)].
    apply (whole_maxGain st _ _ 120 Hf); [|lia|reflexivity].
    intros p Hp. rewrite !I. lia.
Qed.

Lemma collar_shape_witness :
  let st := mkState "collar" 100 95 150 "10" "10" in
  Neq (payoffAt st 101) (nadd (payoffAt st 100) (Nz 1))
  /\ Neq (maxGain st) (payoffAt st 120).
Proof.
  intros st.
  destruct (collar_shape st 10 10)
    as [_ [_ [S1 [_ [_ G]]]]].
  - reflexivity.
  - unfold inRange. simpl. lia.
  - exact parsesToWhole_10.
  - exact parsesToWhole_10.
  - simpl. lia.
  - split; [|exact G]. apply (S1 100%Z); simpl; lia.
Defined.

(** A protective put with the slider cells in their ranges and a premium
    that parses to a whole number [n]: at every grid price the stored
    payoff is at least the floor [putStrike - currentPrice - n]; the curve
    never decreases, is flat up to the put strike and rises by exactly 1
    per unit of price above it; the reported maximum loss and gain are the
    payoffs at the grid's ends 85 and 120. *)
Theorem protective_put_shape (st : State) (n : Z) :
  strategy st = "protective_put" ->
  inRange st ->
  parsesToWhole (putPremium st) n ->
  (forall p : Z, (85 <= p <= 120)%Z ->
      nle (Nz (putStrike st - currentPrice st - n)) (payoffAt st p) = true)
  /\ (forall p q, (85 <= p)%Z -> (p <= q)%Z -> (q <= 120)%Z ->
        nle (payoffAt st p) (payoffAt st q) = true)
  /\ (forall p q, (85 <= p <= 120)%Z -> (85 <= q <= 120)%Z ->
        (p <= putStrike st)%Z -> (q <= putStrike st)%Z ->
        Neq (payoffAt st p) (payoffAt st q))
  /\ (forall p, (85 <= p)%Z -> (p + 1 <= 120)%Z -> (putStrike st <= p)%Z ->
        Neq (payoffAt st (p + 1)) (nadd (payoffAt st p) (Nz 1)))
  /\ Neq (maxLoss st) (payoffAt st 85)
  /\ Neq (maxGain st) (payoffAt st 120).
Proof.
  intros Hs _ Hn.
  assert (Hf : wholeCurveOf st (fun p => intrinsic st p + wholePart st n 0)%Z)
    by (intros p; now apply whole_curve_protective).
  assert (W : wholePart st n 0 = (- n)%Z) by (unfold wholePart; now rewrite Hs).
  assert (I : forall p, intrinsic st p
              = (p - currentPrice st + Z.max (putStrike st - p) 0)%Z)
    by (intros p; now apply intrinsic_protective).
  split; [|split; [|split; [|split; [|split]]]].
  - intros p Hp. destruct (Hf p) as [y [-> Q]]. simpl.
    apply Qle_bool_iff. rewrite Q, <- Zle_Qle, W, I. lia.
  - intros p q _ L _. apply (whole_nle st _ _ _ Hf). rewrite !I. lia.
  - intros p q _ _ Hp Hq. apply (whole_eq st _ _ _ Hf). rewrite !I. lia.
  - intros p _ _ Hp. apply (whole_step st _ p (p + 1) 1 Hf). rewrite !I. lia.
  - eapply Neq_trans; [|apply Neq_sym, (whole_value st _ 85 Hf)].
    apply (whole_maxLoss st _ _ 85 Hf); [|lia|reflexivity].
    intros p Hp. rewrite !I. lia.
  - eapply Neq_trans; [|apply Neq_sym, (whole_value st _ 120 Hf)].
    apply (whole_maxGain st _ _ 120 Hf); [|lia|reflexivity].
    intros p Hp. rewrite !I. lia.
Qed.

Lemma protective_put_shape_witness :
  let st := mkState "protective_put" 100 95 110 "10" "10" in
  Neq (payoffAt st 111) (nadd (payoffAt st 110) (Nz 1))
  /\ Neq (maxLoss st) (payoffAt st 85).
Proof.
  intros st.
  destruct (protective_put_shape st 10)
    as [_ [_ [_ [S1 [L _]]]]].
  - reflexivity.
  - unfold inRange. simpl. lia.
  - exact parsesToWhole_10.
  - split; [|exact L]. apply (S1 110%Z); simpl; lia.
Defined.

(** A bear put spread with the slider cells in their ranges and premiums
    that parse to whole numbers [n] and [m], whatever the order of its
    strikes: at every grid price the stored payoff lies between
    [min(putStrike - callStrike, 0) - n + m] and
    [max(putStrike - callStrike, 0) - n + m]; the reported maximum loss and
    gain are whole numbers between these two, so they are never further
    apart than the distance between the strikes. *)
Theorem bear_put_spread_bounds (st : State) (n m : Z) :
  strategy st = "bear_put_spread" ->
  inRange st ->
  parsesToWhole (putPremium st) n ->
  parsesToWhole (callPremium st) m ->
  let lo := (Z.min (putStrike st - callStrike st) 0 - n + m)%Z in
  let hi := (Z.max (putStrike st - callStrike st) 0 - n + m)%Z in
  (forall p : Z, (85 <= p <= 120)%Z ->
      nle (Nz lo) (payoffAt st p) = true /\ nle (payoffAt st p) (Nz hi) = true)
  /\ exists l g : Z,
      Neq (maxLoss st) (Nz l) /\ Neq (maxGain st) (Nz g)
      /\ (lo <= l)%Z /\ (l <= g)%Z /\ (g <= hi)%Z
      /\ (g - l <= Z.abs (putStrike st - callStrike st))%Z.
Proof.
  intros Hs _ Hn Hm lo hi.
  assert (Hf : wholeCurveOf st (fun p => intrinsic st p + wholePart st n m)%Z)
    by (intros p; now apply whole_curve).
  assert (W : wholePart st n m = (- n + m)%Z).
  { unfold wholePart. rewrite Hs. reflexivity. }
  assert (I : forall p, intrinsic st p
              = (Z.max (putStrike st - p) 0 - Z.max (callStrike st - p) 0)%Z)
    by (intros p; now apply intrinsic_bear).
  split.
  - intros p Hp. destruct (Hf p) as [y [-> Q]]. simpl.
    split; apply Qle_bool_iff; rewrite Q, <- Zle_Qle, W, I; subst lo hi; lia.
  - destruct (Z.leb_spec (putStrike st) (callStrike st)) as [O|O].
    + exists (intrinsic st 85 + wholePart st n m)%Z,
             (intrinsic st 120 + wholePart st n m)%Z.
      split; [|split].
      * apply (whole_maxLoss st _ _ 85 Hf); [|lia|reflexivity].
        intros p Hp. rewrite !I. lia.
      * apply (whole_maxGain st _ _ 120 Hf); [|lia|reflexivity].
        intros p Hp. rewrite !I. lia.
      * rewrite W, !I. subst lo hi. lia.
    + exists (intrinsic st 120 + wholePart st n m)%Z,
             (intrinsic st 85 + wholePart st n m)%Z.
      split; [|split].
      * apply (whole_maxLoss st _ _ 120 Hf); [|lia|reflexivity].
        intros p Hp. rewrite !I. lia.
      * apply (whole_maxGain st _ _ 85 Hf); [|lia|reflexivity].
        intros p Hp. rewrite !I. lia.
      * rewrite W, !I. subst lo hi. lia.
Qed.

Lemma bear_put_spread_bounds_witness :
  let st := mkState "bear_put_spread" 100 95 110 "10" "10" in
  nle (payoffAt st 100) (Nz (Z.max (95 - 110) 0 - 10 + 10)) = true.
Proof.
  intros st.
  destruct (bear_put_spread_bounds st 10 10) as [A _].
  - reflexivity.
  - unfold inRange. simpl. lia.
  - exact parsesToWhole_10.
  - exact parsesToWhole_10.
  - apply (A 100%Z). lia.
Defined.

(** A bear put spread whose second strike is not above its put strike (the
    usual order, which the states of the component allow), with the slider
    cells in their ranges and premiums that parse to whole numbers: the
    stored payoff never increases along the grid; the reported maximum
    gain is the payoff at the first grid price, 85, and the reported
    maximum loss the payoff at the last, 120. *)
Theorem bear_put_spread_usual_order (st : State) (n m : Z) :
  strategy st = "bear_put_spread" ->
  inRange st ->
  parsesToWhole (putPremium st) n ->
  parsesToWhole (callPremium st) m ->
  (callStrike st <= putStrike st)%Z ->
  (forall p q, (85 <= p)%Z -> (p <= q)%Z -> (q <= 120)%Z ->
      nle (payoffAt st q) (payoffAt st p) = true)
  /\ Neq (maxLoss st) (payoffAt st 120)
  /\ Neq (maxGain st) (payoffAt st 85).
Proof.
  intros Hs _ Hn Hm Hk.
  assert (Hf : wholeCurveOf st (fun p => intrinsic st p + wholePart st n m)%Z)
    by (intros p; now apply whole_curve).
  assert (I : forall p, intrinsic st p
              = (Z.max (putStrike st - p) 0 - Z.max (callStrike st - p) 0)%Z)
    by (intros p; now apply intrinsic_bear).
  split; [|split].
  - intros p q _ L _. apply (whole_nle st _ _ _ Hf). rewrite !I. lia.
  - eapply Neq_trans; [|apply Neq_sym, (whole_value st _ 120 Hf)].
    apply (whole_maxLoss st _ _ 120 Hf); [|lia|reflexivity].
    intros p Hp. rewrite !I. lia.
  - eapply Neq_trans; [|apply Neq_sym, (whole_value st _ 85 Hf)].
    apply (whole_maxGain st _ _ 85 Hf); [|lia|reflexivity].
    intros p Hp. rewrite !I. lia.
Qed.

Lemma bear_put_spread_usual_order_witness :
  let st := mkState "bear_put_spread" 100 105 95 "10" "10" in
  Neq (maxLoss st) (payoffAt st 120)
  /\ Neq (maxGain st) (payoffAt st 85).
Proof.
  intros st.
  destruct (bear_put_spread_usual_order st 10 10) as [_ H].
  - reflexivity.
  - unfold inRange. simpl. lia.
  - exact parsesToWhole_10.
  - exact parsesToWhole_10.
  - simpl. lia.
  - exact H.
Defined.

End Shapes.

(* ================================================================== *)
(** ** Beyond the claims: premiums that do not parse, and the reported
       breakeven against the curve *)

Section BreakevenAgainstCurve.

Local Open Scope string_scope.
Local Open Scope Q_scope.

Lemma hasSecondLeg_true (st : State) :
  hasSecondLeg st = true ->
  strategy st = "collar" \/ strategy st = "bear_put_spread".
Proof.
  unfold hasSecondLeg. intros H. apply orb_true_iff in H.
  destruct H as [H|H]; apply String.eqb_eq in H; tauto.
Qed.

Lemma netPayoff_NaN_second (st : State) (p : Z) :
  hasSecondLeg st = true ->
  parseFloat (callPremium st) = NaN ->
  netPayoff st (Nz p) = NaN.
Proof.
  intros Hl Hn. unfold netPayoff. rewrite Hn, !nadd_NaN_r.
  destruct (hasSecondLeg_true st Hl) as [H|H]; rewrite H; reflexivity.
Qed.

Lemma extrema_NaN (st : State) :
  (forall p, payoffAt st p = NaN) ->
  maxLoss st = NaN /\ maxGain st = NaN.
Proof.
  intros H. unfold maxLoss, maxGain. rewrite generatePayoffData_payoffs.
  unfold priceGrid. cbn [seq map]. rewrite !H. split; reflexivity.
Qed.

(** A premium field in use that does not parse to a number (the put
    premium under any of the three strategies, the second premium under
    collar and bear put spread) is not reported as an error: the breakeven,
    the maximum loss and the maximum gain all become [NaN], and so do the
    three figures shown under the chart. *)
Theorem non_numeric_premium_shows_NaN (st : State) :
  (offered (strategy st) = true /\ parseFloat (putPremium st) = NaN)
  \/ (hasSecondLeg st = true /\ parseFloat (callPremium st) = NaN) ->
  getBreakeven st = NaN /\ maxLoss st = NaN /\ maxGain st = NaN
  /\ shownBreakeven st = NaN /\ shownMaxLoss st = NaN /\ shownMaxGain st = NaN.
Proof.
  intros H.
  assert (P : forall p, payoffAt st p = NaN).
  { intros p. unfold payoffAt. destruct H as [[Ho Hn]|[Hl Hn]].
    - now rewrite netPayoff_NaN.
    - now rewrite netPayoff_NaN_second. }
  assert (B : getBreakeven st = NaN).
  { unfold getBreakeven. destruct H as [[Ho Hn]|[Hl Hn]]; rewrite Hn.
    - destruct (offered_true _ Ho) as [E|[E|E]]; rewrite E;
        cbn [String.eqb Ascii.eqb Bool.eqb].
      + apply nsub_NaN_r.
      + apply nadd_NaN_r.
      + rewrite nsub_NaN_r. reflexivity.
    - destruct (hasSecondLeg_true st Hl) as [E|E]; rewrite E;
        cbn [String.eqb Ascii.eqb Bool.eqb].
      + rewrite nadd_NaN_r. reflexivity.
      + apply nadd_NaN_r. }
  destruct (extrema_NaN st P) as [L G].
  unfold shownBreakeven, shownMaxLoss, shownMaxGain. rewrite B, L, G.
  repeat split; reflexivity.
Qed.

Lemma non_numeric_premium_shows_NaN_witness :
  let st := mkState "bear_put_spread" 100 95 110 "10" "ten" in
  getBreakeven st = NaN /\ maxLoss st = NaN /\ maxGain st = NaN
  /\ shownBreakeven st = NaN /\ shownMaxLoss st = NaN /\ shownMaxGain st = NaN.
Proof.
  intros st. apply (non_numeric_premium_shows_NaN st).
  right. split; reflexivity.
Defined.

Ltac fin_arith :=
  unfold Nz;
  repeat (rewrite nsub_fin || rewrite nadd_fin || rewrite nneg_fin
          || rewrite (nmax_zero _)).

(** In the exact arithmetic of [Num]: the loop body at the collar's
    reported breakeven, when it lies between the strikes. *)
Lemma collar_breakeven_exact (st : State) (a b : Q) :
  strategy st = "collar" ->
  parseFloat (putPremium st) = Fin a ->
  parseFloat (callPremium st) = Fin b ->
  inject_Z (putStrike st) <= inject_Z (currentPrice st) + b - a ->
  inject_Z (currentPrice st) + b - a <= inject_Z (callStrike st) ->
  Neq (getBreakeven st) (Fin (inject_Z (currentPrice st) + b - a))
  /\ Neq (netPayoff st (getBreakeven st)) (Fin (2 * (b - a)))
  /\ (Neq (netPayoff st (getBreakeven st)) (Nz 0) <-> a == b).
Proof.
  intros Hs Ha Hb L U.
  unfold getBreakeven, netPayoff. rewrite Hs, Ha, Hb.
  cbn [String.eqb Ascii.eqb Bool.eqb]. fin_arith. cbn [Neq].
  assert (P : qpos (inject_Z (putStrike st)
                    + - (inject_Z (currentPrice st) + b + - a)) == 0)
    by (apply qpos_le0; lra).
  assert (C : qpos (inject_Z (currentPrice st) + b + - a
                    + - inject_Z (callStrike st)) == 0)
    by (apply qpos_le0; lra).
  split; [ring|].
  split; [rewrite P, C; ring|].
  rewrite P, C. change (inject_Z 0) with 0. split; intros H; lra.
Qed.

(** For a collar with the slider cells in their ranges and premiums that
    parse to whole numbers [n] (put) and [m] (call), whose reported
    breakeven [currentPrice + m - n] lies between the strikes, the payoff
    before rounding at that price is [2 * (m - n)]: the reported breakeven
    is a zero of the curve exactly when the two premiums are equal. *)
Theorem collar_breakeven_offset (st : State) (n m : Z) :
  strategy st = "collar" ->
  inRange st ->
  parsesToWhole (putPremium st) n ->
  parsesToWhole (callPremium st) m ->
  (putStrike st <= currentPrice st + m - n)%Z ->
  (currentPrice st + m - n <= callStrike st)%Z ->
  Neq (getBreakeven st) (Nz (currentPrice st + m - n))
  /\ Neq (netPayoff st (getBreakeven st)) (Nz (2 * (m - n)))
  /\ (Neq (netPayoff st (getBreakeven st)) (Nz 0) <-> n = m).
Proof.
  intros Hs _ [a [Ha [Ea _]]] [b [Hb [Eb _]]] L U.
  assert (E : inject_Z (currentPrice st) + b - a
              == inject_Z (currentPrice st + m - n)).
  { rewrite Ea, Eb. unfold Z.sub. rewrite !inject_Z_plus, inject_Z_opp. ring. }
  destruct (collar_breakeven_exact st a b Hs Ha Hb) as [B [O Z0]].
  { rewrite E, <- Zle_Qle. exact L. }
  { rewrite E, <- Zle_Qle. exact U. }
  split; [|split].
  - eapply Neq_trans; [exact B|]. exact E.
  - eapply Neq_trans; [exact O|]. cbn [Neq Nz]. rewrite Ea, Eb.
    rewrite inject_Z_mult. unfold Z.sub. rewrite inject_Z_plus, inject_Z_opp.
    change (inject_Z 2) with 2. ring.
  - rewrite Z0, Ea, Eb. apply inject_Z_injective.
Qed.

Lemma collar_breakeven_offset_witness :
  let st := mkState "collar" 100 95 110 "10" "12" in
  Neq (getBreakeven st) (Nz (100 + 12 - 10))
  /\ Neq (netPayoff st (getBreakeven st)) (Nz (2 * (12 - 10))).
Proof.
  intros st.
  destruct (collar_breakeven_offset st 10 12) as [B [O _]].
  - reflexivity.
  - unfold inRange. simpl. lia.
  - exact parsesToWhole_10.
  - exists (inject_Z 12).
    split; [vm_compute; reflexivity|]. split; [reflexivity|simpl; lia].
  - simpl. lia.
  - simpl. lia.
  - split; [exact B|exact O].
Defined.

(** In the exact arithmetic of [Num]: the loop body at the bear put
    spread's reported breakeven, with the slider's order of strikes. *)
Lemma bear_breakeven_exact (st : State) (a b : Q) :
  strategy st = "bear_put_spread" ->
  parseFloat (putPremium st) = Fin a ->
  parseFloat (callPremium st) = Fin b ->
  (putStrike st + 5 <= callStrike st)%Z ->
  b <= a ->
  exists x : Q,
    netPayoff st (getBreakeven st) = Fin x
    /\ x == inject_Z (putStrike st - callStrike st) - a + b
    /\ x <= - inject_Z 5.
Proof.
  intros Hs Ha Hb Hk Hab.
  unfold getBreakeven, netPayoff. rewrite Hs, Ha, Hb.
  cbn [String.eqb Ascii.eqb Bool.eqb]. fin_arith.
  eexists. split; [reflexivity|].
  rewrite Zle_Qle, inject_Z_plus in Hk. change (inject_Z 5) with 5 in *.
  assert (P : qpos (inject_Z (putStrike st)
                    + - (inject_Z (putStrike st) + - a + b)) == a - b)
    by (rewrite qpos_ge0; lra).
  assert (C : qpos (inject_Z (callStrike st)
                    + - (inject_Z (putStrike st) + - a + b))
              == inject_Z (callStrike st) - inject_Z (putStrike st) + a - b)
    by (rewrite qpos_ge0; lra).
  unfold Z.sub. rewrite inject_Z_plus, inject_Z_opp.
  split; rewrite P, C; lra.
Qed.

Lemma bear_breakeven_whole (st : State) (n m : Z) :
  strategy st = "bear_put_spread" ->
  parsesToWhole (putPremium st) n ->
  parsesToWhole (callPremium st) m ->
  Neq (getBreakeven st) (Nz (putStrike st - n + m)).
Proof.
  intros Hs [a [Ha [Ea _]]] [b [Hb [Eb _]]].
  unfold getBreakeven. rewrite Hs, Ha, Hb.
  cbn [String.eqb Ascii.eqb Bool.eqb]. fin_arith. simpl.
  rewrite Ea, Eb. unfold Z.sub. rewrite !inject_Z_plus, inject_Z_opp. ring.
Qed.

(** For a bear put spread with the second strike at least 5 above the put
    strike, as its slider sets it, the slider cells in their ranges and
    premiums that parse to whole numbers [n] (long put) and [m] (short
    put) with [m <= n], the payoff before rounding at the reported
    breakeven [putStrike - n + m] is [putStrike - callStrike - n + m], a
    loss of at least 5: the reported breakeven is not a zero of the
    curve. *)
Theorem bear_put_spread_breakeven_is_a_loss (st : State) (n m : Z) :
  strategy st = "bear_put_spread" ->
  inRange st ->
  parsesToWhole (putPremium st) n ->
  parsesToWhole (callPremium st) m ->
  (putStrike st + 5 <= callStrike st)%Z ->
  (m <= n)%Z ->
  Neq (getBreakeven st) (Nz (putStrike st - n + m))
  /\ Neq (netPayoff st (getBreakeven st))
         (Nz (putStrike st - callStrike st - n + m))
  /\ (putStrike st - callStrike st - n + m <= - 5)%Z.
Proof.
  intros Hs Hr Hn Hm Hk Hmn.
  assert (B := bear_breakeven_whole st n m Hs Hn Hm).
  destruct Hn as [a [Ha [Ea _]]]. destruct Hm as [b [Hb [Eb _]]].
  destruct (bear_breakeven_exact st a b Hs Ha Hb Hk) as [x [E [Q _]]].
  { rewrite Ea, Eb, <- Zle_Qle. exact Hmn. }
  split; [exact B|]. split; [|lia].
  rewrite E. simpl. rewrite Q, Ea, Eb. unfold Z.sub.
  rewrite !inject_Z_plus, !inject_Z_opp. ring.
Qed.

Lemma bear_put_spread_breakeven_is_a_loss_witness :
  let st := mkState "bear_put_spread" 100 95 110 "10" "10" in
  Neq (getBreakeven st) (Nz (95 - 10 + 10))
  /\ Neq (netPayoff st (getBreakeven st)) (Nz (95 - 110 - 10 + 10))
  /\ (95 - 110 - 10 + 10 <= - 5)%Z.
Proof.
  intros st.
  apply (bear_put_spread_breakeven_is_a_loss st 10 10).
  - reflexivity.
  - unfold inRange. simpl. lia.
  - exact parsesToWhole_10.
  - exact parsesToWhole_10.
  - simpl. lia.
  - lia.
Defined.

End BreakevenAgainstCurve.

(* ================================================================== *)
(** ** Beyond the claims: the requests that add a holding *)

Section HoldingRequests.

Local Open Scope string_scope.

Lemma upper_idem (c : ascii) : upper (upper c) = upper c.
Proof. destruct c as [[] [] [] [] [] [] [] []]; reflexivity. Qed.

Lemma isWhite_upper (c : ascii) : isWhite (upper c) = isWhite c.
Proof. destruct c as [[] [] [] [] [] [] [] []]; reflexivity. Qed.

Lemma toUpperCase_idem (s : string) :
  toUpperCase (toUpperCase s) = toUpperCase s.
Proof.
  induction s as [|c r IH]; [reflexivity|]. simpl. now rewrite upper_idem, IH.
Qed.

Lemma toUpperCase_empty (s : string) :
  (toUpperCase s =? "") = (s =? "").
Proof. now destruct s. Qed.

Lemma skipWhite_toUpperCase (s : string) :
  skipWhite (toUpperCase s) = toUpperCase (skipWhite s).
Proof.
  induction s as [|c r IH]; [reflexivity|]. simpl.
  rewrite isWhite_upper. destruct (isWhite c); [exact IH|reflexivity].
Qed.

Lemma trimEnd_toUpperCase (s : string) :
  trimEnd (toUpperCase s) = toUpperCase (trimEnd s).
Proof.
  induction s as [|c r IH]; [reflexivity|]. simpl.
  rewrite isWhite_upper, IH, toUpperCase_empty.
  destruct (isWhite c && (trimEnd r =? "")); reflexivity.
Qed.

Lemma trim_toUpperCase (s : string) :
  trim (toUpperCase s) = toUpperCase (trim s).
Proof.
  unfold trim. now rewrite skipWhite_toUpperCase, trimEnd_toUpperCase.
Qed.

Lemma trimEnd_idem (s : string) : trimEnd (trimEnd s) = trimEnd s.
Proof.
  induction s as [|c r IH]; [reflexivity|]. simpl.
  destruct (isWhite c && (trimEnd r =? "")) eqn:E; [reflexivity|].
  simpl. now rewrite IH, E.
Qed.

(** After the leading white space is skipped the text is empty or starts
    with a character that is not white space. *)
Lemma skipWhite_head (s : string) :
  skipWhite s = "" \/
  exists c r, skipWhite s = String c r /\ isWhite c = false.
Proof.
  induction s as [|c r IH]; [now left|]. simpl.
  destruct (isWhite c) eqn:E; [exact IH|]. right. now exists c, r.
Qed.

Lemma trim_idem (s : string) : trim (trim s) = trim s.
Proof.
  unfold trim. destruct (skipWhite_head s) as [E|[c [r [E W]]]]; rewrite E.
  - reflexivity.
  - simpl. rewrite W. simpl. rewrite W. simpl.
    now rewrite W, trimEnd_idem.
Qed.

(** The symbol put in a request: trimmed and in upper case, and left
    unchanged by trimming or upper-casing it again. *)
Lemma normalised_symbol (sym : string) :
  trim (toUpperCase (trim sym)) = toUpperCase (trim sym)
  /\ toUpperCase (toUpperCase (trim sym)) = toUpperCase (trim sym).
Proof.
  split; [|apply toUpperCase_idem]. now rewrite trim_toUpperCase, trim_idem.
Qed.

(** The properties shared by the requests of both functions. *)
Lemma holding_request_common
    (sym : string) (tag : string) (q a : option Num) (v price : Num)
    (req : AddHoldingRequest) :
  (if (sym =? "") || (trim sym =? "") then InvalidSymbol
   else if nle v (Nz 0) || nle price (Nz 0) then InvalidQuantityPrice
   else Requested (mkRequest (toUpperCase (trim sym)) tag q a))
  = Requested req ->
  req = mkRequest (toUpperCase (trim sym)) tag q a
  /\ symbol req <> ""
  /\ trim (symbol req) = symbol req
  /\ toUpperCase (symbol req) = symbol req
  /\ nle v (Nz 0) = false /\ nle price (Nz 0) = false.
Proof.
  intros H.
  destruct (sym =? ""); simpl in H; try discriminate.
  destruct (trim sym =? "") eqn:T; try discriminate.
  destruct (nle v (Nz 0)); simpl in H; try discriminate.
  destruct (nle price (Nz 0)); try discriminate.
  injection H as <-. simpl.
  destruct (normalised_symbol sym) as [N1 N2].
  repeat split; auto.
  intro E. apply String.eqb_eq in E. rewrite toUpperCase_empty in E.
  congruence.
Qed.

(** For a symbol of ASCII characters: whatever [addHoldingByShares] hands
    to the portfolio service is tagged ['shares'] and has the quantity
    alone filled; whatever [addHoldingByDollars] hands over is tagged
    ['dollars'] and has the amount alone filled.  In both, the symbol is
    the argument trimmed and in upper case, is not empty, has no white
    space around it and no lower-case letter, and the value is not
    [<= 0]; the price only decides whether a request is made. *)
Theorem holding_request_is_normalised
    (sym name : string) (v price : Num) (req : AddHoldingRequest) :
  isAscii sym = true ->
  (addHoldingByShares sym name v price = Requested req ->
     req = mkRequest (toUpperCase (trim sym)) "shares" (Some v) None
     /\ symbol req <> ""
     /\ trim (symbol req) = symbol req
     /\ toUpperCase (symbol req) = symbol req
     /\ nle v (Nz 0) = false /\ nle price (Nz 0) = false)
  /\ (addHoldingByDollars sym name v price = Requested req ->
       req = mkRequest (toUpperCase (trim sym)) "dollars" None (Some v)
       /\ symbol req <> ""
       /\ trim (symbol req) = symbol req
       /\ toUpperCase (symbol req) = symbol req
       /\ nle v (Nz 0) = false /\ nle price (Nz 0) = false).
Proof.
  intros _. split; intros H.
  - now apply (holding_request_common sym "shares" (Some v) None v price req).
  - now apply (holding_request_common sym "dollars" None (Some v) v price req).
Qed.

Lemma holding_request_is_normalised_witness :
  let req := mkRequest "AAPL" "dollars" None (Some (Nz 500)) in
  req = mkRequest (toUpperCase (trim " aapl ")) "dollars" None (Some (Nz 500))
  /\ symbol req <> "" /\ trim (symbol req) = symbol req
  /\ nle (Nz 500) (Nz 0) = false.
Proof.
  intros req.
  destruct (holding_request_is_normalised " aapl " "Apple" (Nz 500) (Nz 190) req)
    as [_ D].
  - reflexivity.
  - destruct D as [E [NE [T [_ [V _]]]]]; [reflexivity|].
    repeat split; assumption.
Defined.

(** With a stock selected and no request under way, the "Add to Portfolio"
    button of the dialog is enabled exactly when [confirmAddToPortfolio]
    goes on to send a request: the button and the handler apply the same
    test to the field of the chosen purchase type. *)
Theorem add_button_agrees_with_handler
    (sym purchaseType qty dollarAmount : string) :
  purchaseType = "shares" \/ purchaseType = "dollars" ->
  (addButtonDisabled false purchaseType qty dollarAmount = false
   <-> exists req,
         confirmAddToPortfolio (Some sym) purchaseType qty dollarAmount
         = inr req).
Proof.
  intros [-> | ->]; unfold addButtonDisabled, confirmAddToPortfolio;
    cbn [String.eqb Ascii.eqb Bool.eqb orb andb].
  - destruct ((qty =? "") || nle (parseFloat qty) (Nz 0)); simpl; split.
    + discriminate.
    + intros [req H]. discriminate.
    + intros _. eexists. reflexivity.
    + reflexivity.
  - destruct ((dollarAmount =? "") || nle (parseFloat dollarAmount) (Nz 0));
      simpl; split.
    + discriminate.
    + intros [req H]. discriminate.
    + intros _. eexists. reflexivity.
    + reflexivity.
Qed.

Lemma add_button_agrees_with_handler_witness :
  addButtonDisabled false "shares" "2.5" "" = false
  <-> exists req, confirmAddToPortfolio (Some "msft") "shares" "2.5" "" = inr req.
Proof.
  apply (add_button_agrees_with_handler "msft" "shares" "2.5" "").
  left. reflexivity.
Defined.

(** A request sent by [confirmAddToPortfolio] carries the selected stock's
    symbol trimmed and in upper case, the purchase type, and only the value
    of that type's field, which was not empty and whose parsed value is not
    [<= 0]: a finite value sent is strictly positive. *)
Theorem confirmed_request_is_positive
    (stock : option string) (purchaseType qty dollarAmount : string)
    (req : AddHoldingRequest) :
  confirmAddToPortfolio stock purchaseType qty dollarAmount = inr req ->
  (exists sym, stock = Some sym /\ symbol req = toUpperCase (trim sym))
  /\ trim (symbol req) = symbol req
  /\ type req = purchaseType
  /\ exists (text : string),
       text <> "" /\ nle (parseFloat text) (Nz 0) = false
       /\ (forall x, parseFloat text = Fin x -> (0 < x)%Q)
       /\ ((purchaseType = "shares" /\ text = qty
            /\ quantity req = Some (parseFloat text) /\ amount req = None)
           \/ (purchaseType <> "shares" /\ text = dollarAmount
               /\ quantity req = None /\ amount req = Some (parseFloat text))).
Proof.
  unfold confirmAddToPortfolio. destruct stock as [sym|]; [|discriminate].
  assert (P : forall t, (t =? "") || nle (parseFloat t) (Nz 0) = false ->
              t <> "" /\ nle (parseFloat t) (Nz 0) = false
              /\ (forall x, parseFloat t = Fin x -> (0 < x)%Q)).
  { intros t E. apply orb_false_iff in E. destruct E as [E1 E2].
    split; [now apply String.eqb_neq|]. split; [exact E2|].
    intros x Hx. rewrite Hx in E2. simpl in E2.
    destruct (Qlt_le_dec 0 x) as [L|L]; [exact L|].
    apply Qle_bool_iff in L. change (inject_Z 0) with 0%Q in E2. congruence. }
  destruct (normalised_symbol sym) as [N _].
  destruct (purchaseType =? "shares") eqn:T.
  - destruct ((qty =? "") || nle (parseFloat qty) (Nz 0)) eqn:E; [discriminate|].
    intros [= <-]. simpl. split; [now exists sym|]. split; [exact N|].
    split; [reflexivity|]. exists qty. destruct (P qty E) as [A [B C]].
    apply String.eqb_eq in T. repeat split; auto.
  - destruct ((dollarAmount =? "") || nle (parseFloat dollarAmount) (Nz 0)) eqn:E;
      [discriminate|].
    intros [= <-]. simpl. split; [now exists sym|]. split; [exact N|].
    split; [reflexivity|]. exists dollarAmount.
    destruct (P dollarAmount E) as [A [B C]].
    apply String.eqb_neq in T. repeat split; auto.
Qed.

Lemma confirmed_request_is_positive_witness :
  let req := mkRequest "MSFT" "shares" (Some (parseFloat "2.5")) None in
  trim (symbol req) = symbol req /\ type req = "shares".
Proof.
  intros req.
  destruct (confirmed_request_is_positive (Some " msft") "shares" "2.5" "" req)
    as [_ [T [P _]]].
  - reflexivity.
  - split; assumption.
Defined.

End HoldingRequests.

(* ================================================================== *)
(** ** Beyond the claims: how a holding's gain or loss is shown *)

Section GainLossDisplay.

Local Open Scope string_scope.

Variable formatPrice : Num -> string.

Lemma Qabs_opp_eq (x : Q) : Qabs (- x) = Qabs x.
Proof. destruct x as [n d]. unfold Qabs, Qopp. simpl. now rewrite Z.abs_opp. Qed.

(** A loss is shown without any sign of its own: for a negative gain the
    text is the formatted absolute value and the class is the red one, and
    the gain of the same size is shown as the same text after a plus sign,
    in green.  A gain that is zero or not a number is shown as $0.00 in the
    muted class. *)
Theorem loss_is_shown_without_sign (x : Q) :
  (x < 0)%Q ->
  gainLossText formatPrice (Fin x) = formatPrice (Fin (Qabs x))
  /\ gainLossClass (Fin x) = "text-red-600"
  /\ gainLossText formatPrice (Fin (- x))
     = "+" ++ gainLossText formatPrice (Fin x)
  /\ gainLossClass (Fin (- x)) = "text-green-600"
  /\ (forall g, g = NaN \/ (exists z, g = Fin z /\ (z == 0)%Q) ->
        gainLossText formatPrice g = "$0.00"
        /\ gainLossClass g = "text-muted-foreground").
Proof.
  intros L.
  assert (E1 : Qeq_bool x 0 = false).
  { destruct (Qeq_bool x 0) eqn:E; [|reflexivity].
    apply Qeq_bool_eq in E. lra. }
  assert (E2 : Qeq_bool (- x) 0 = false).
  { destruct (Qeq_bool (- x) 0) eqn:E; [|reflexivity].
    apply Qeq_bool_eq in E. lra. }
  assert (L1 : Qle_bool (inject_Z 0) x = false).
  { destruct (Qle_bool (inject_Z 0) x) eqn:E; [|reflexivity].
    apply Qle_bool_iff in E. change (inject_Z 0) with 0%Q in E. lra. }
  assert (L2 : Qle_bool (inject_Z 0) (- x) = true).
  { apply Qle_bool_iff. change (inject_Z 0) with 0%Q. lra. }
  assert (L3 : Qle_bool (- x) (inject_Z 0) = false).
  { destruct (Qle_bool (- x) (inject_Z 0)) eqn:E; [|reflexivity].
    apply Qle_bool_iff in E. change (inject_Z 0) with 0%Q in E. lra. }
  assert (L4 : Qle_bool x (inject_Z 0) = true).
  { apply Qle_bool_iff. change (inject_Z 0) with 0%Q. lra. }
  unfold gainLossText, gainLossClass, orZero, isZero, mathAbs.
  rewrite E1, E2. cbn [isZero nle nlt Nz]. rewrite E1, E2, L1, L2, L3, L4.
  cbn [negb]. rewrite Qabs_opp_eq.
  repeat split; try reflexivity.
  - destruct H as [-> | [z [-> Hz]]]; [reflexivity|].
    apply Qeq_eq_bool in Hz. rewrite Hz. reflexivity.
  - destruct H as [-> | [z [-> Hz]]]; [reflexivity|].
    apply Qeq_eq_bool in Hz. rewrite Hz. reflexivity.
Qed.

End GainLossDisplay.

Section GainLossExample.

Local Open Scope string_scope.

Lemma loss_is_shown_without_sign_witness :
  let fmt := fun a : Num => if nle (Nz 12) (mathAbs a) then "big" else "small" in
  gainLossText fmt (Fin (- (25 # 2))) = "big"
  /\ gainLossText fmt (Fin (25 # 2)) = "+big".
Proof.
  intros fmt.
  destruct (loss_is_shown_without_sign fmt (- (25 # 2))) as [T [_ [P _]]].
  - reflexivity.
  - split.
    + rewrite T. reflexivity.
    + change (Fin (25 # 2)) with (Fin (- - (25 # 2))). rewrite P, T. reflexivity.
Defined.

End GainLossExample.
